(** * 24hours: the orchestration core, embedded and verified

    A shallow embedding of the TypeScript services that discover Linear
    issues, run them through the agent and report the outcome:

    - [LinearService]       (src/linear/linear.service.ts)
    - [SessionStoreService] (monitor/session-store.service.ts)
    - [MonitorService]      (monitor/monitor.service.ts)
    - [ClaudeService]       (src/claude/claude.service.ts)
    - [TaskProcessor]       (src/queue/task.processor.ts)
    - the two pollers       (src/scheduler/*.service.ts)

    Every service method is a function over one [World] value that holds
    what the services share: the Linear workspace, the SQLite tables, the
    monitor's two maps, the websocket event stream and the Bull queue.
    Methods that can throw live in the monad [M]; [try_catch] is the
    source's try/catch.

    Strings are byte strings (UTF-8), so [startsWith] and [includes] are
    the JavaScript functions on well-formed text; [length] and the slices
    count the UTF-16 units the bytes stand for.  Times are milliseconds
    in [nat], read from the [clock] field of the world; the queue's
    delays are in [N]. *)

From Stdlib Require Import Ascii String.
From stdpp Require Import gmap strings list fin_maps pretty sorting.

Open Scope string_scope.
Open Scope list_scope.
Open Scope nat_scope.

(** ** JavaScript string primitives *)

Module Js.

Definition startsWith (s pre : string) : bool := String.prefix pre s.

Fixpoint includes (s sub : string) : bool :=
  String.prefix sub s
  || match s with
     | EmptyString => false
     | String _ s' => includes s' sub
     end.

(** ASCII letters are folded; every other byte is kept.  The trigger
    keywords are ASCII, so this decides the same matches as
    [String.prototype.toLowerCase] on the texts considered here. *)
Definition lower_ascii (c : ascii) : ascii :=
  let n := nat_of_ascii c in
  if ((65 <=? n) && (n <=? 90))%nat then ascii_of_nat (n + 32) else c.

Fixpoint toLowerCase (s : string) : string :=
  match s with
  | EmptyString => EmptyString
  | String c s' => String (lower_ascii c) (toLowerCase s')
  end.

Fixpoint join (sep : string) (l : list string) : string :=
  match l with
  | [] => EmptyString
  | [x] => x
  | x :: rest => x +:+ sep +:+ join sep rest
  end.

(** [s.slice(0, n)] cuts after [n] UTF-16 units.  In UTF-8 a code point
    of one, two or three bytes is one unit and a code point of four bytes
    is two, a surrogate pair; the first byte tells which. *)
Definition utf8_bytes (lead : ascii) : nat :=
  let b := nat_of_ascii lead in
  if (b <? 192)%nat then 1
  else if (b <? 224)%nat then 2
  else if (b <? 240)%nat then 3
  else 4.

Definition utf16_units (lead : ascii) : nat :=
  if (utf8_bytes lead =? 4)%nat then 2 else 1.

(** A cut between the two units of a pair leaves a surrogate alone.  It
    is written here the way UTF-8 writes any code point below [0x10000],
    in three bytes.  [b1 .. b4] are the bytes of the code point
    [((b1 mod 8) * 64 + b2 mod 64) * 4096 + (b3 mod 64) * 64 + b4 mod 64],
    whose high surrogate is [0xD800 + (codePoint - 0x10000) / 1024] and
    whose low surrogate is [0xDC00 + codePoint mod 1024]; [0xD800] is
    [216 * 256] and [0xDC00] is [220 * 256]. *)
Definition surrogate (code : nat) : string :=
  String (ascii_of_nat 237)
    (String (ascii_of_nat (128 + (code / 64) mod 64))
       (String (ascii_of_nat (128 + code mod 64)) EmptyString)).

Definition high_surrogate (b1 b2 b3 : ascii) : string :=
  let top := (nat_of_ascii b1 mod 8) * 64 + nat_of_ascii b2 mod 64 in
  surrogate (216 * 256 + ((top - 16) * 4 + (nat_of_ascii b3 mod 64) / 16)).

Definition low_surrogate (b3 b4 : ascii) : string :=
  surrogate
    (220 * 256 + ((nat_of_ascii b3 mod 16) * 64 + nat_of_ascii b4 mod 64)).

(** [pending] counts the bytes still to copy of a code point whose units
    have been counted already. *)
Fixpoint take_units (n pending : nat) (s : string) : string :=
  match s with
  | EmptyString => EmptyString
  | String c s' =>
      match pending with
      | S pending' => String c (take_units n pending' s')
      | 0 =>
          if (utf16_units c <=? n)%nat
          then String c (take_units (n - utf16_units c) (utf8_bytes c - 1) s')
          else
            match n, s' with
            | 1, String b2 (String b3 _) => high_surrogate c b2 b3
            | _, _ => EmptyString
            end
      end
  end.

Definition slice0 (n : nat) (s : string) : string := take_units n 0 s.

(** [x || y] on an optional string: the empty string is falsy. *)
Definition truthy (o : option string) : option string :=
  match o with
  | Some s => if String.eqb s EmptyString then None else Some s
  | None => None
  end.

(** [Math.round(d / 1000)] for a non-negative [d]. *)
Definition round_div_1000 (d : nat) : nat := (d + 500) / 1000.

(** [s.length]: the UTF-16 units of [s].  A continuation byte
    ([0x80 .. 0xBF]) belongs to the code point its lead byte counted. *)
Fixpoint length (s : string) : nat :=
  match s with
  | EmptyString => 0
  | String c s' =>
      let b := nat_of_ascii c in
      (if (128 <=? b) && (b <? 192) then 0 else utf16_units c) + length s'
  end.

(** What is left of [s] after its first [n] units; a cut inside a pair
    keeps the low surrogate. *)
Fixpoint drop_units (n pending : nat) (s : string) : string :=
  match s with
  | EmptyString => EmptyString
  | String c s' =>
      match pending, n with
      | S pending', _ => drop_units n pending' s'
      | 0, 0 => s
      | 0, _ =>
          if (utf16_units c <=? n)%nat
          then drop_units (n - utf16_units c) (utf8_bytes c - 1) s'
          else
            match s' with
            | String _ (String b3 (String b4 rest)) =>
                low_surrogate b3 b4 +:+ rest
            | _ => EmptyString
            end
      end
  end.

(** [s.slice(-n)]: the last [n] units, all of [s] when it has fewer, and
    all of [s] for [n = 0], which JavaScript reads as [s.slice(0)]. *)
Definition slice_last (n : nat) (s : string) : string :=
  match n with
  | 0 => s
  | _ => drop_units (length s - n) 0 s
  end.

End Js.

Definition nl : string := String (ascii_of_nat 10) EmptyString.
Definition dquote : string := String (ascii_of_nat 34) EmptyString.
Definition backticks : string := "```".

(** ** Data model *)

(** src/linear/linear.types.ts *)
Inductive TaskStatus :=
  | BACKLOG | TODO | IN_PROGRESS | IN_REVIEW | DONE | FAILED | CANCELED.

#[global] Instance TaskStatus_eq_dec : EqDecision TaskStatus.
Proof. solve_decision. Defined.

Definition TaskStatus_name (s : TaskStatus) : string :=
  match s with
  | BACKLOG => "Backlog" | TODO => "Todo" | IN_PROGRESS => "In Progress"
  | IN_REVIEW => "In Review" | DONE => "Done" | FAILED => "Failed"
  | CANCELED => "Canceled"
  end.

Record LinearTask := {
  task_id : string;
  task_identifier : string;
  task_title : string;
  task_description : option string;
  task_priority : option nat;
  task_createdAt : nat;
}.

Record LinearComment := {
  comment_id : string;
  comment_body : string;
  comment_createdAt : nat;
}.

(** Requests that reach the Linear API through [LinearService]. *)
Inductive ApiCall :=
  | UpdateIssue (issueId : string) (state : TaskStatus)
  | CreateComment (issueId : string) (body : string).

(** The Linear workspace together with the client-side fields of
    [LinearService].  [lin_ready] is the outcome of [ensureClient()];
    workflow states are identified with their [TaskStatus] name, so
    [lin_stateCache] lists the names present in [stateCache]. *)
Record Linear := {
  lin_ready : bool;
  lin_teamId : string;
  lin_stateCache : list TaskStatus;
  srv_states : list TaskStatus;
  srv_issues : gmap string (LinearTask * TaskStatus);
  srv_comments : gmap string (list LinearComment);
  srv_nextComment : nat;
  api_log : list ApiCall;
}.

(** monitor/session-store.service.ts: the two SQLite tables. *)
Record SessionRow := {
  row_session_id : option string;
  row_identifier : string;
  row_title : string;
  row_started_at : nat;
  row_completed_at : option nat;
  row_success : option bool;
  row_updated_at : nat;
}.

Record ProcessedRow := {
  pc_linear_task_id : string;
  pc_processed_at : nat;
}.

(** [db_insert_fails] tells for which comment id the INSERT statement
    raises (a storage error); it is what makes a rollback observable.
    Writes to [task_sessions] always succeed. *)
Record SessionStore := {
  task_sessions : gmap string SessionRow;
  processed_comments : gmap string ProcessedRow;
  db_insert_fails : string → bool;
}.

Record TaskSession := {
  ts_linearTaskId : string;
  ts_sessionId : string;
  ts_identifier : string;
  ts_title : string;
  ts_startedAt : nat;
  ts_completedAt : option nat;
  ts_success : option bool;
}.

(** monitor/monitor.service.ts *)
Record RunningTaskInfo := {
  rt_taskId : string;
  rt_identifier : string;
  rt_title : string;
  rt_progress : nat;
  rt_currentStep : option string;
  rt_steps : list (string * nat);
  rt_startedAt : nat;
  rt_sessionId : option string;
}.

Record TaskExecutionHistory := {
  th_taskId : string;
  th_identifier : string;
  th_title : string;
  th_sessionId : option string;
  th_startedAt : nat;
  th_completedAt : nat;
  th_success : bool;
}.

(** monitor/monitor.gateway.ts: what [server.emit] sends. *)
Inductive EventStatus := ev_queued | ev_running | ev_completed | ev_failed.
Inductive LogLevel := level_info | level_warn | level_error.

Record TaskUpdateEvent := {
  tu_taskId : string;
  tu_identifier : string;
  tu_status : EventStatus;
  tu_progress : option nat;
  tu_currentStep : option string;
  tu_startedAt : option nat;
  tu_duration : option nat;
  tu_sessionId : option string;
}.

Record LogEvent := {
  log_timestamp : nat;
  log_level : LogLevel;
  log_taskId : option string;
  log_message : string;
}.

Record StatsEvent := {
  st_todo : nat;
  st_inProgress : nat;
  st_inReview : nat;
  st_done : nat;
  st_failed : nat;
  st_queueLength : nat;
}.

Inductive Event :=
  | task_update (e : TaskUpdateEvent)
  | log_new (e : LogEvent)
  | stats_update (e : StatsEvent).

(** src/queue/task.interface.ts and the options handed to [queue.add]. *)
Record FeedbackJob := {
  fb_task : LinearTask;
  fb_feedback : string;
  fb_commentIds : list string;
  fb_sessionId : string;
}.

Record RetryJob := {
  rj_task : LinearTask;
  rj_sessionId : string;
}.

Inductive BackoffType := fixed | exponential.

Record JobOptions := {
  opt_attempts : nat;
  opt_backoff_type : BackoffType;
  opt_backoff_delay : N;
  opt_timeout : option nat;
  opt_removeOnComplete : bool;
  opt_removeOnFail : bool;
}.

Record Job (A : Type) := {
  job_data : A;
  job_attemptsMade : nat;
  job_opts : JobOptions;
}.
Arguments job_data {A} _.
Arguments job_attemptsMade {A} _.
Arguments job_opts {A} _.

Inductive JobData :=
  | execute_job (task : LinearTask)
  | feedback_job (data : FeedbackJob)
  | retry_job (data : RetryJob).

Inductive AuthMethod := api_key | login.

(** ** The shared state *)

Record World := {
  linear : Linear;
  store : SessionStore;
  runningTasks : gmap string RunningTaskInfo;
  taskHistory : gmap string TaskExecutionHistory;
  events : list Event;
  queue : list (JobData * JobOptions);
  taskPoller_isPolling : bool;
  reviewPoller_isPolling : bool;
  cfg_taskTimeout : option nat;
  cfg_authMethod : AuthMethod;
  clock : nat;
}.

Definition with_linear (f : Linear → Linear) (w : World) : World :=
  {| linear := f (linear w); store := store w;
     runningTasks := runningTasks w; taskHistory := taskHistory w;
     events := events w; queue := queue w;
     taskPoller_isPolling := taskPoller_isPolling w;
     reviewPoller_isPolling := reviewPoller_isPolling w;
     cfg_taskTimeout := cfg_taskTimeout w;
     cfg_authMethod := cfg_authMethod w; clock := clock w |}.

Definition with_store (f : SessionStore → SessionStore) (w : World) : World :=
  {| linear := linear w; store := f (store w);
     runningTasks := runningTasks w; taskHistory := taskHistory w;
     events := events w; queue := queue w;
     taskPoller_isPolling := taskPoller_isPolling w;
     reviewPoller_isPolling := reviewPoller_isPolling w;
     cfg_taskTimeout := cfg_taskTimeout w;
     cfg_authMethod := cfg_authMethod w; clock := clock w |}.

Definition with_runningTasks
    (f : gmap string RunningTaskInfo → gmap string RunningTaskInfo)
    (w : World) : World :=
  {| linear := linear w; store := store w;
     runningTasks := f (runningTasks w); taskHistory := taskHistory w;
     events := events w; queue := queue w;
     taskPoller_isPolling := taskPoller_isPolling w;
     reviewPoller_isPolling := reviewPoller_isPolling w;
     cfg_taskTimeout := cfg_taskTimeout w;
     cfg_authMethod := cfg_authMethod w; clock := clock w |}.

Definition with_taskHistory
    (f : gmap string TaskExecutionHistory → gmap string TaskExecutionHistory)
    (w : World) : World :=
  {| linear := linear w; store := store w;
     runningTasks := runningTasks w; taskHistory := f (taskHistory w);
     events := events w; queue := queue w;
     taskPoller_isPolling := taskPoller_isPolling w;
     reviewPoller_isPolling := reviewPoller_isPolling w;
     cfg_taskTimeout := cfg_taskTimeout w;
     cfg_authMethod := cfg_authMethod w; clock := clock w |}.

Definition with_events (f : list Event → list Event) (w : World) : World :=
  {| linear := linear w; store := store w;
     runningTasks := runningTasks w; taskHistory := taskHistory w;
     events := f (events w); queue := queue w;
     taskPoller_isPolling := taskPoller_isPolling w;
     reviewPoller_isPolling := reviewPoller_isPolling w;
     cfg_taskTimeout := cfg_taskTimeout w;
     cfg_authMethod := cfg_authMethod w; clock := clock w |}.

Definition with_queue
    (f : list (JobData * JobOptions) → list (JobData * JobOptions))
    (w : World) : World :=
  {| linear := linear w; store := store w;
     runningTasks := runningTasks w; taskHistory := taskHistory w;
     events := events w; queue := f (queue w);
     taskPoller_isPolling := taskPoller_isPolling w;
     reviewPoller_isPolling := reviewPoller_isPolling w;
     cfg_taskTimeout := cfg_taskTimeout w;
     cfg_authMethod := cfg_authMethod w; clock := clock w |}.

Definition with_taskPoller_isPolling (b : bool) (w : World) : World :=
  {| linear := linear w; store := store w;
     runningTasks := runningTasks w; taskHistory := taskHistory w;
     events := events w; queue := queue w;
     taskPoller_isPolling := b;
     reviewPoller_isPolling := reviewPoller_isPolling w;
     cfg_taskTimeout := cfg_taskTimeout w;
     cfg_authMethod := cfg_authMethod w; clock := clock w |}.

Definition with_reviewPoller_isPolling (b : bool) (w : World) : World :=
  {| linear := linear w; store := store w;
     runningTasks := runningTasks w; taskHistory := taskHistory w;
     events := events w; queue := queue w;
     taskPoller_isPolling := taskPoller_isPolling w;
     reviewPoller_isPolling := b;
     cfg_taskTimeout := cfg_taskTimeout w;
     cfg_authMethod := cfg_authMethod w; clock := clock w |}.

(** ** The monad of service methods: state and exceptions *)

Inductive Res (A : Type) :=
  | Ok (a : A)
  | Throw (message : string).
Arguments Ok {A} a.
Arguments Throw {A} message.

Definition M (A : Type) : Type := World → Res A * World.

Definition ret {A} (a : A) : M A := λ w, (Ok a, w).
Definition throw {A} (message : string) : M A := λ w, (Throw message, w).

Definition bind {A B} (m : M A) (k : A → M B) : M B :=
  λ w, match m w with
       | (Ok a, w') => k a w'
       | (Throw e, w') => (Throw e, w')
       end.

Definition try_catch {A} (m : M A) (handler : string → M A) : M A :=
  λ w, match m w with
       | (Ok a, w') => (Ok a, w')
       | (Throw e, w') => handler e w'
       end.

Definition gets {A} (f : World → A) : M A := λ w, (Ok (f w), w).
Definition modify (f : World → World) : M unit := λ w, (Ok tt, f w).

(** The world a method leaves behind, whether it returned or threw. *)
Definition exec {A} (m : M A) (w : World) : World := snd (m w).
Definition result {A} (m : M A) (w : World) : Res A := fst (m w).

Notation "'call' x ':=' m 'in' k" := (bind m (λ x, k))
  (at level 10, x name, m at level 100, k at level 200,
   format "'[v' 'call'  x  ':='  m  'in' '/' k ']'").
Notation "m >> k" := (bind m (λ _, k))
  (at level 65, right associativity, only parsing).

Fixpoint for_each {A} (l : list A) (body : A → M unit) : M unit :=
  match l with
  | [] => ret tt
  | x :: rest => body x >> for_each rest body
  end.

(** ** LinearService (src/linear/linear.service.ts) *)

Module LinearService.

Definition set_stateCache (c : list TaskStatus) (l : Linear) : Linear :=
  {| lin_ready := lin_ready l; lin_teamId := lin_teamId l;
     lin_stateCache := c; srv_states := srv_states l;
     srv_issues := srv_issues l; srv_comments := srv_comments l;
     srv_nextComment := srv_nextComment l; api_log := api_log l |}.

Definition set_issues (i : gmap string (LinearTask * TaskStatus))
    (l : Linear) : Linear :=
  {| lin_ready := lin_ready l; lin_teamId := lin_teamId l;
     lin_stateCache := lin_stateCache l; srv_states := srv_states l;
     srv_issues := i; srv_comments := srv_comments l;
     srv_nextComment := srv_nextComment l; api_log := api_log l |}.

Definition set_comments (c : gmap string (list LinearComment)) (n : nat)
    (l : Linear) : Linear :=
  {| lin_ready := lin_ready l; lin_teamId := lin_teamId l;
     lin_stateCache := lin_stateCache l; srv_states := srv_states l;
     srv_issues := srv_issues l; srv_comments := c;
     srv_nextComment := n; api_log := api_log l |}.

Definition log_call (c : ApiCall) (l : Linear) : Linear :=
  {| lin_ready := lin_ready l; lin_teamId := lin_teamId l;
     lin_stateCache := lin_stateCache l; srv_states := srv_states l;
     srv_issues := srv_issues l; srv_comments := srv_comments l;
     srv_nextComment := srv_nextComment l; api_log := api_log l ++ [c] |}.

(** *** The Linear API as the client sees it

    A request on an issue that does not exist is rejected, which the
    SDK reports by throwing; the service methods below catch it. *)

Definition client_updateIssue (issueId : string) (state : TaskStatus)
    : M unit :=
  modify (with_linear (log_call (UpdateIssue issueId state))) >>
  call found := gets (λ w, srv_issues (linear w) !! issueId) in
  match found with
  | None => throw "Entity not found: Issue"
  | Some (t, _) =>
      modify (with_linear (λ l,
        set_issues (<[issueId := (t, state)]> (srv_issues l)) l))
  end.

Definition client_createComment (issueId body : string) : M unit :=
  modify (with_linear (log_call (CreateComment issueId body))) >>
  call found := gets (λ w, srv_issues (linear w) !! issueId) in
  match found with
  | None => throw "Entity not found: Issue"
  | Some _ =>
      modify (λ w, with_linear (λ l,
        let c := {| comment_id := "comment-" +:+ pretty (srv_nextComment l);
                    comment_body := body;
                    comment_createdAt := clock w |} in
        set_comments
          (<[issueId := default [] (srv_comments l !! issueId) ++ [c]]>
             (srv_comments l))
          (S (srv_nextComment l)) l) w)
  end.

(** *** Service methods *)

(** [ensureClient] answers [true] at once for a client that is ready.
    For one that is not it runs [initializeClient], which gives up and
    leaves the client as it is when the settings hold no API key.  The
    client is initialised when the module starts, so a client that is not
    ready stands here for a service without an API key; a key that is
    entered while the services run is outside this development. *)
Definition ensureClient : M bool := gets (λ w, lin_ready (linear w)).

Definition hasTeamId : M bool :=
  gets (λ w, negb (String.eqb (lin_teamId (linear w)) EmptyString)).

Definition refreshStateCache : M unit :=
  call ready := ensureClient in
  call team := hasTeamId in
  if negb ready || negb team then ret tt
  else modify (with_linear (λ l, set_stateCache (srv_states l) l)).

(** A state's id is its name here, so the lookup is a membership test. *)
Definition getStateId (statusName : TaskStatus) : M (option TaskStatus) :=
  gets (λ w, if bool_decide (statusName ∈ lin_stateCache (linear w))
             then Some statusName else None).

Definition getTasksByStatus (statusName : TaskStatus)
    : M (list LinearTask) :=
  call ready := ensureClient in
  call team := hasTeamId in
  if negb ready || negb team then ret []
  else
    call stateId := getStateId statusName in
    (if stateId is None then refreshStateCache else ret tt) >>
    call finalStateId := getStateId statusName in
    match finalStateId with
    | None => ret []
    | Some st =>
        gets (λ w,
          (fst ∘ snd) <$>
            filter (λ kv, snd (snd kv) = st)
                   (map_to_list (srv_issues (linear w))))
    end.

(** Lock a task by updating its status to In Progress. *)
Definition lockTask (issueId : string) : M bool :=
  call ready := ensureClient in
  if negb ready then ret false
  else
    try_catch
      (call inProgressStateId := getStateId IN_PROGRESS in
       match inProgressStateId with
       | None => throw "In Progress state not found"
       | Some st => client_updateIssue issueId st >> ret true
       end)
      (λ _, ret false).

Definition updateStatus (issueId : string) (statusName : TaskStatus)
    : M bool :=
  call ready := ensureClient in
  if negb ready then ret false
  else
    try_catch
      (call stateId := getStateId statusName in
       (if stateId is None then refreshStateCache else ret tt) >>
       call finalStateId := getStateId statusName in
       match finalStateId with
       | None =>
           throw ("Status " +:+ dquote +:+ TaskStatus_name statusName
                  +:+ dquote +:+ " not found")
       | Some st => client_updateIssue issueId st >> ret true
       end)
      (λ _, ret false).

Definition addComment (issueId content : string) : M bool :=
  call ready := ensureClient in
  if negb ready then ret false
  else
    try_catch (client_createComment issueId content >> ret true)
              (λ _, ret false).

(** [result.sort((a, b) => b.createdAt - a.createdAt)]: newest first,
    and stable, so [c], which came before all of [l], stays before the
    comments of [l] that are as old as it is. *)
Fixpoint insert_desc (c : LinearComment) (l : list LinearComment)
    : list LinearComment :=
  match l with
  | [] => [c]
  | d :: rest =>
      if (comment_createdAt d <=? comment_createdAt c)%nat
      then c :: d :: rest
      else d :: insert_desc c rest
  end.

Definition sort_desc (l : list LinearComment) : list LinearComment :=
  foldr insert_desc [] l.

Definition getComments (issueId : string) : M (list LinearComment) :=
  call ready := ensureClient in
  if negb ready then ret []
  else
    gets (λ w,
      match srv_issues (linear w) !! issueId with
      | None => []
      | Some _ => sort_desc (default [] (srv_comments (linear w) !! issueId))
      end).

End LinearService.

(** ** SessionStoreService (monitor/session-store.service.ts) *)

Module SessionStoreService.

Definition set_task_sessions (t : gmap string SessionRow)
    (s : SessionStore) : SessionStore :=
  {| task_sessions := t; processed_comments := processed_comments s;
     db_insert_fails := db_insert_fails s |}.

Definition set_processed_comments (p : gmap string ProcessedRow)
    (s : SessionStore) : SessionStore :=
  {| task_sessions := task_sessions s; processed_comments := p;
     db_insert_fails := db_insert_fails s |}.

(** SQL [COALESCE(a, b)] *)
Definition coalesce {A} (a b : option A) : option A :=
  match a with Some _ => a | None => b end.

(** INSERT ... ON CONFLICT(linear_task_id) DO UPDATE SET ... *)
Definition saveSession (taskSession : TaskSession) : M unit :=
  modify (λ w, with_store (λ s,
    let sessionId := Js.truthy (Some (ts_sessionId taskSession)) in
    let row :=
      match task_sessions s !! ts_linearTaskId taskSession with
      | None =>
          {| row_session_id := sessionId;
             row_identifier := ts_identifier taskSession;
             row_title := ts_title taskSession;
             row_started_at := ts_startedAt taskSession;
             row_completed_at := ts_completedAt taskSession;
             row_success := ts_success taskSession;
             row_updated_at := clock w |}
      | Some old =>
          {| row_session_id := coalesce sessionId (row_session_id old);
             row_identifier := ts_identifier taskSession;
             row_title := ts_title taskSession;
             row_started_at := ts_startedAt taskSession;
             row_completed_at :=
               coalesce (ts_completedAt taskSession) (row_completed_at old);
             row_success := coalesce (ts_success taskSession) (row_success old);
             row_updated_at := clock w |}
      end in
    set_task_sessions
      (<[ts_linearTaskId taskSession := row]> (task_sessions s)) s) w).

(** UPDATE task_sessions SET session_id = ? WHERE linear_task_id = ? *)
Definition updateSessionId (linearTaskId sessionId : string) : M unit :=
  modify (λ w, with_store (λ s,
    set_task_sessions
      (alter (λ r,
         {| row_session_id := Some sessionId;
            row_identifier := row_identifier r;
            row_title := row_title r;
            row_started_at := row_started_at r;
            row_completed_at := row_completed_at r;
            row_success := row_success r;
            row_updated_at := clock w |})
         linearTaskId (task_sessions s)) s) w).

(** UPDATE task_sessions SET completed_at = CURRENT_TIMESTAMP, success = ? *)
Definition completeTask (linearTaskId : string) (success : bool) : M unit :=
  modify (λ w, with_store (λ s,
    set_task_sessions
      (alter (λ r,
         {| row_session_id := row_session_id r;
            row_identifier := row_identifier r;
            row_title := row_title r;
            row_started_at := row_started_at r;
            row_completed_at := Some (clock w);
            row_success := Some success;
            row_updated_at := clock w |})
         linearTaskId (task_sessions s)) s) w).

(** The selected row; its [linear_task_id] is the key asked for. *)
Definition getSessionByTaskId (linearTaskId : string)
    : M (option SessionRow) :=
  gets (λ w, task_sessions (store w) !! linearTaskId).

Definition isCommentProcessed (commentId : string) : M bool :=
  gets (λ w, bool_decide (is_Some (processed_comments (store w) !! commentId))).

(** One run of the prepared statement
    INSERT OR IGNORE INTO processed_comments (comment_id, linear_task_id). *)
Definition insert_or_ignore (commentId taskId : string) : M unit :=
  call fails := gets (λ w, db_insert_fails (store w) commentId) in
  if fails then throw "SqliteError"
  else
    modify (λ w, with_store (λ s,
      match processed_comments s !! commentId with
      | Some _ => s
      | None =>
          set_processed_comments
            (<[commentId := {| pc_linear_task_id := taskId;
                               pc_processed_at := clock w |}]>
               (processed_comments s)) s
      end) w).

Definition markCommentProcessed (commentId taskId : string) : M unit :=
  insert_or_ignore commentId taskId.

(** [db.transaction(fn)()]: commit when [fn] returns, roll the database
    back to where it was and rethrow when it throws. *)
Definition transaction (fn : M unit) : M unit :=
  λ w, match fn w with
       | (Ok a, w') => (Ok a, w')
       | (Throw e, w') => (Throw e, with_store (λ _, store w) w')
       end.

Definition markCommentsProcessed (commentIds : list string)
    (taskId : string) : M unit :=
  transaction
    (for_each commentIds (λ commentId, insert_or_ignore commentId taskId)).

End SessionStoreService.

(** ** MonitorGateway (monitor/monitor.gateway.ts) *)

Module MonitorGateway.

Definition emit (e : Event) : M unit :=
  modify (with_events (λ es, es ++ [e])).

Definition broadcastTaskUpdate (data : TaskUpdateEvent) : M unit :=
  emit (task_update data).
Definition broadcastLog (data : LogEvent) : M unit := emit (log_new data).
Definition broadcastStats (data : StatsEvent) : M unit :=
  emit (stats_update data).

End MonitorGateway.

(** ** MonitorService (monitor/monitor.service.ts)

    The copy of this file at hand has the emoji of its string literals
    mis-decoded ([🔄] reads [üîÑ], [🎉] reads [üéâ]); the literals below
    carry the emoji, as those of the other services do. *)

Module MonitorService.

Import SessionStoreService MonitorGateway.

Record LinearStats := {
  ls_todo : nat;
  ls_inProgress : nat;
  ls_inReview : nat;
  ls_done : nat;
  ls_failed : nat;
}.

(** Get Linear task statistics *)
Definition getLinearStats : M LinearStats :=
  call todo := LinearService.getTasksByStatus TODO in
  call inProgress := LinearService.getTasksByStatus IN_PROGRESS in
  call inReview := LinearService.getTasksByStatus IN_REVIEW in
  call done := LinearService.getTasksByStatus DONE in
  call failed := LinearService.getTasksByStatus FAILED in
  ret {| ls_todo := length todo; ls_inProgress := length inProgress;
         ls_inReview := length inReview; ls_done := length done;
         ls_failed := length failed |}.

(** Get dashboard statistics: the number of waiting jobs (the jobs added
    to [queue]), the tracker's counts and the running entries. *)
Definition getDashboardStats
    : M (nat * LinearStats * list RunningTaskInfo) :=
  call waiting := gets (λ w, length (queue w)) in
  call linearStats := getLinearStats in
  call running := gets (λ w, snd <$> map_to_list (runningTasks w)) in
  ret (waiting, linearStats, running).

(** Refresh and broadcast stats.  The source starts it without awaiting
    it; here it runs to the end where it is started. *)
Definition refreshStats : M unit :=
  call stats := getDashboardStats in
  let '(waiting, linearStats, _) := stats in
  broadcastStats
    {| st_todo := ls_todo linearStats;
       st_inProgress := ls_inProgress linearStats;
       st_inReview := ls_inReview linearStats;
       st_done := ls_done linearStats;
       st_failed := ls_failed linearStats;
       st_queueLength := waiting |}.

(** Record task start *)
Definition taskStarted (taskId identifier title : string) : M unit :=
  call now := gets clock in
  let info :=
    {| rt_taskId := taskId; rt_identifier := identifier; rt_title := title;
       rt_progress := 0; rt_currentStep := None; rt_steps := [];
       rt_startedAt := now; rt_sessionId := None |} in
  modify (with_runningTasks (λ m, <[taskId := info]> m)) >>
  saveSession
    {| ts_linearTaskId := taskId; ts_sessionId := EmptyString;
       ts_identifier := identifier; ts_title := title;
       ts_startedAt := rt_startedAt info;
       ts_completedAt := None; ts_success := None |} >>
  broadcastTaskUpdate
    {| tu_taskId := taskId; tu_identifier := identifier;
       tu_status := ev_running; tu_progress := None;
       tu_currentStep := None; tu_startedAt := Some (rt_startedAt info);
       tu_duration := None; tu_sessionId := None |} >>
  broadcastLog
    {| log_timestamp := now; log_level := level_info; log_taskId := Some taskId;
       log_message :=
         "🚀 [" +:+ identifier +:+ "] Starting task: " +:+ title |}.

(** Update task progress *)
Definition taskProgress (taskId step : string) (progress : nat) : M unit :=
  call found := gets (λ w, runningTasks w !! taskId) in
  match found with
  | None => ret tt
  | Some info =>
      call now := gets clock in
      let info' :=
        {| rt_taskId := rt_taskId info; rt_identifier := rt_identifier info;
           rt_title := rt_title info; rt_progress := progress;
           rt_currentStep := Some step;
           rt_steps := rt_steps info ++ [(step, now)];
           rt_startedAt := rt_startedAt info;
           rt_sessionId := rt_sessionId info |} in
      modify (with_runningTasks (λ m, <[taskId := info']> m)) >>
      broadcastTaskUpdate
        {| tu_taskId := taskId; tu_identifier := rt_identifier info';
           tu_status := ev_running; tu_progress := Some progress;
           tu_currentStep := Some step; tu_startedAt := None;
           tu_duration := Some (now - rt_startedAt info');
           tu_sessionId := None |} >>
      broadcastLog
        {| log_timestamp := now; log_level := level_info;
           log_taskId := Some taskId;
           log_message := "[" +:+ rt_identifier info' +:+ "] " +:+ step |}
  end.

(** Update task session ID *)
Definition taskSessionId (taskId sessionId : string) : M unit :=
  call found := gets (λ w, runningTasks w !! taskId) in
  match found with
  | None => ret tt
  | Some info =>
      call now := gets clock in
      let info' :=
        {| rt_taskId := rt_taskId info; rt_identifier := rt_identifier info;
           rt_title := rt_title info; rt_progress := rt_progress info;
           rt_currentStep := rt_currentStep info;
           rt_steps := rt_steps info;
           rt_startedAt := rt_startedAt info;
           rt_sessionId := Some sessionId |} in
      modify (with_runningTasks (λ m, <[taskId := info']> m)) >>
      updateSessionId taskId sessionId >>
      broadcastTaskUpdate
        {| tu_taskId := taskId; tu_identifier := rt_identifier info';
           tu_status := ev_running;
           tu_progress := Some (rt_progress info');
           tu_currentStep := rt_currentStep info'; tu_startedAt := None;
           tu_duration := Some (now - rt_startedAt info');
           tu_sessionId := Some sessionId |} >>
      broadcastLog
        {| log_timestamp := now; log_level := level_info;
           log_taskId := Some taskId;
           log_message :=
             "[" +:+ rt_identifier info' +:+ "] Session ID: " +:+ sessionId |}
  end.

(** Record task completion *)
Definition taskCompleted (taskId : string) (success : bool)
    (summary : option string) : M unit :=
  call found := gets (λ w, runningTasks w !! taskId) in
  match found with
  | None => ret tt
  | Some info =>
      call now := gets clock in
      let duration := now - rt_startedAt info in
      modify (with_taskHistory (λ h,
        <[taskId := {| th_taskId := taskId;
                       th_identifier := rt_identifier info;
                       th_title := rt_title info;
                       th_sessionId := rt_sessionId info;
                       th_startedAt := rt_startedAt info;
                       th_completedAt := now;
                       th_success := success |}]> h)) >>
      completeTask taskId success >>
      broadcastTaskUpdate
        {| tu_taskId := taskId; tu_identifier := rt_identifier info;
           tu_status := if success then ev_completed else ev_failed;
           tu_progress := Some 100; tu_currentStep := None;
           tu_startedAt := None; tu_duration := Some duration;
           tu_sessionId := rt_sessionId info |} >>
      broadcastLog
        {| log_timestamp := now;
           log_level := if success then level_info else level_error;
           log_taskId := Some taskId;
           log_message :=
             if success
             then "🎉 [" +:+ rt_identifier info
                  +:+ "] Task completed (duration: "
                  +:+ pretty (Js.round_div_1000 duration) +:+ "s)"
             else "❌ [" +:+ rt_identifier info +:+ "] Task failed: "
                  +:+ default "undefined" summary |} >>
      modify (with_runningTasks (λ m, delete taskId m)) >>
      refreshStats
  end.

End MonitorService.

(** ** ClaudeService (src/claude/claude.service.ts)

    The agent is the environment.  [query] is started with the Linear MCP
    server, and the prompts (prompts/task-execution.prompt.ts) tell the
    agent to post its comments and to set the status of the issue itself,
    with the server's tools [create_comment] and [update_issue]: these
    requests go from the agent to the tracker while the service reads the
    stream, and not through [LinearService].  One call of [query] is
    given by what happens while its stream is read, in order (a message
    the stream yields, or a request of the agent to the tracker), and by
    the error the stream, or the set-up before it, throws in the end, if
    any. *)

Module ClaudeService.

Inductive ContentBlock :=
  | text_block (text : string)
  | tool_use_block (name : string)
  | other_block.

Inductive SDKMessage :=
  | assistant (content : option (list ContentBlock))
  | result_message (subtype : string) (result : option string)
  | system (subtype : string) (session_id : option string)
  | tool_progress
  | auth_status
  | other_message.

Inductive AgentAct :=
  | create_comment (issueId body : string)
  | update_issue (issueId : string) (state : TaskStatus).

Inductive StreamItem :=
  | yields (msg : SDKMessage)
  | acts (act : AgentAct).

Record AgentRun := {
  run_stream : list StreamItem;
  run_throws : option string;
}.

Definition yielded (item : StreamItem) : option SDKMessage :=
  match item with
  | yields msg => Some msg
  | acts _ => None
  end.

Definition acted (item : StreamItem) : option AgentAct :=
  match item with
  | yields _ => None
  | acts act => Some act
  end.

(** The messages of a run, and the agent's requests to the tracker. *)
Definition run_messages (agent : AgentRun) : list SDKMessage :=
  omap yielded (run_stream agent).

Definition run_acts (agent : AgentRun) : list AgentAct :=
  omap acted (run_stream agent).

(** What the tracker does with a request of the agent at time [now].  A
    comment on an issue that does not exist is rejected, and so is a
    status change of such an issue or to a state the team's workflow does
    not have; the agent is told, the services are not. *)
Definition tracker_grants (now : nat) (act : AgentAct) (l : Linear)
    : Linear :=
  match act with
  | create_comment issueId body =>
      match srv_issues l !! issueId with
      | None => l
      | Some _ =>
          let c := {| comment_id := "comment-" +:+ pretty (srv_nextComment l);
                      comment_body := body;
                      comment_createdAt := now |} in
          LinearService.set_comments
            (<[issueId := default [] (srv_comments l !! issueId) ++ [c]]>
               (srv_comments l))
            (S (srv_nextComment l)) l
      end
  | update_issue issueId state =>
      match srv_issues l !! issueId with
      | None => l
      | Some (t, _) =>
          if bool_decide (state ∈ srv_states l)
          then LinearService.set_issues
                 (<[issueId := (t, state)]> (srv_issues l)) l
          else l
      end
  end.

Definition mcp_linear (act : AgentAct) : M unit :=
  modify (λ w, with_linear (tracker_grants (clock w) act) w).

Record TaskExecutionResult := {
  res_success : bool;
  res_error : option string;
  res_sessionId : option string;
}.

Record ProgressCallback := {
  onProgress : string → nat → M unit;
  onSessionId : option (string → M unit);
}.

(** The [let] variables of [executeTask] that the handlers close over. *)
Record Locals := {
  responseText : string;
  lastProgress : nat;
  toolCallCount : nat;
  sessionId : option string;
}.

Record Handlers := {
  onText : string → Locals → M Locals;
  onToolUse : string → Locals → M Locals;
  onResult : string → Locals → M Locals;
  h_onSessionId : string → Locals → M Locals;
}.

Fixpoint process_blocks (content : list ContentBlock) (handlers : Handlers)
    (v : Locals) : M Locals :=
  match content with
  | [] => ret v
  | text_block text :: rest =>
      call v' := onText handlers text v in process_blocks rest handlers v'
  | tool_use_block name :: rest =>
      call v' := onToolUse handlers name v in process_blocks rest handlers v'
  | other_block :: rest => process_blocks rest handlers v
  end.

(** Process SDK messages and extract relevant information *)
Definition processMessage (msg : SDKMessage) (handlers : Handlers)
    (v : Locals) : M Locals :=
  match msg with
  | assistant (Some content) => process_blocks content handlers v
  | assistant None => ret v
  | result_message subtype result =>
      match String.eqb subtype "success", Js.truthy result with
      | true, Some r => onResult handlers r v
      | _, _ => ret v
      end
  | system subtype session_id =>
      match String.eqb subtype "init", Js.truthy session_id with
      | true, Some id => h_onSessionId handlers id v
      | _, _ => ret v
      end
  | tool_progress | auth_status | other_message => ret v
  end.

Definition stream_handlers (callbacks : ProgressCallback) : Handlers :=
  {| onText := λ text v,
       ret {| responseText := responseText v +:+ text;
              lastProgress := lastProgress v;
              toolCallCount := toolCallCount v;
              sessionId := sessionId v |};
     onToolUse := λ toolName v,
       let count := S (toolCallCount v) in
       let progress := 90 `min` (20 + count * 15) in
       onProgress callbacks ("Using tool: " +:+ toolName) progress >>
       ret {| responseText := responseText v;
              lastProgress := progress;
              toolCallCount := count;
              sessionId := sessionId v |};
     onResult := λ _ v, ret v;
     h_onSessionId := λ id v,
       (if onSessionId callbacks is Some f then f id else ret tt) >>
       ret {| responseText := responseText v;
              lastProgress := lastProgress v;
              toolCallCount := toolCallCount v;
              sessionId := Some id |} |}.

(** [for await (const msg of agentQuery) { this.processMessage(...) }],
    the agent's requests to the tracker taking effect where they fall
    between the messages. *)
Fixpoint consume (stream : list StreamItem) (handlers : Handlers)
    (v : Locals) : M Locals :=
  match stream with
  | [] => ret v
  | yields msg :: rest =>
      call v' := processMessage msg handlers v in consume rest handlers v'
  | acts act :: rest => mcp_linear act >> consume rest handlers v
  end.

Definition run_query (agent : AgentRun) (callbacks : ProgressCallback)
    : M Locals :=
  call v := consume (run_stream agent) (stream_handlers callbacks)
              {| responseText := EmptyString; lastProgress := 10;
                 toolCallCount := 0; sessionId := None |} in
  match run_throws agent with
  | Some e => throw e
  | None => ret v
  end.

Definition hasError (responseText : string) : bool :=
  Js.includes responseText "❌" && Js.includes responseText "failed".

Definition summarized (responseText : string) : bool :=
  Js.includes responseText "🎉" || Js.includes responseText "👀".

(** The catch block's helpful error message. *)
Definition describe_error (authMethod : AuthMethod) (message : string)
    : string :=
  if Js.includes message "401" || Js.includes message "invalid token"
     || Js.includes message "invalid"
  then
    match authMethod with
    | api_key =>
        "Proxy API authentication failed. Please check if ANTHROPIC_BASE_URL and ANTHROPIC_AUTH_TOKEN are correct."
        +:+ nl +:+ "Original error: " +:+ message
    | login =>
        "Anthropic API authentication failed. Please check if ANTHROPIC_API_KEY is correct."
        +:+ nl +:+ "Original error: " +:+ message
    end
  else message.

(** Execute a task using Claude Agent SDK with MCP support *)
Definition executeTask (task : LinearTask) (callbacks : ProgressCallback)
    (agent : AgentRun) : M TaskExecutionResult :=
  call authMethod := gets cfg_authMethod in
  call startTime := gets clock in
  try_catch
    (onProgress callbacks "🚀 Starting task execution" 10 >>
     call v := run_query agent callbacks in
     if hasError (responseText v) then
       onProgress callbacks "❌ Task execution failed" 100 >>
       ret {| res_success := false; res_error := Some (responseText v);
              res_sessionId := sessionId v |}
     else
       call now := gets clock in
       let duration := Js.round_div_1000 (now - startTime) in
       (if negb (summarized (responseText v)) then
          call _ := LinearService.addComment (task_id task)
            ("🎉 Task completed" +:+ nl +:+ nl +:+ "**Execution Summary:**"
             +:+ nl +:+ Js.slice0 500 (responseText v) +:+ nl +:+ nl
             +:+ "**Duration:** " +:+ pretty duration +:+ " seconds") in
          ret tt
        else ret tt) >>
       onProgress callbacks "🎉 Task completed" 100 >>
       ret {| res_success := true; res_error := None;
              res_sessionId := sessionId v |})
    (λ message,
       let errorMessage := describe_error authMethod message in
       call _ := LinearService.addComment (task_id task)
         ("❌ Task execution failed" +:+ nl +:+ nl +:+ "**Error:**" +:+ nl
          +:+ backticks +:+ nl +:+ errorMessage +:+ nl +:+ backticks) in
       onProgress callbacks ("❌ Execution failed: " +:+ errorMessage) 100 >>
       ret {| res_success := false; res_error := Some errorMessage;
              res_sessionId := None |}).

(** Execute feedback processing by resuming the previous session *)
Definition executeFeedback (task : LinearTask) (feedback : string)
    (sessionId0 : string) (callbacks : ProgressCallback)
    (agent : AgentRun) : M TaskExecutionResult :=
  call authMethod := gets cfg_authMethod in
  call startTime := gets clock in
  try_catch
    (onProgress callbacks "🔄 Processing feedback" 10 >>
     call v := run_query agent callbacks in
     let newSessionId :=
       SessionStoreService.coalesce (Js.truthy (sessionId v))
                                    (Some sessionId0) in
     if hasError (responseText v) then
       onProgress callbacks "❌ Feedback processing failed" 100 >>
       ret {| res_success := false; res_error := Some (responseText v);
              res_sessionId := newSessionId |}
     else
       call now := gets clock in
       let duration := Js.round_div_1000 (now - startTime) in
       (if negb (summarized (responseText v)) then
          call _ := LinearService.addComment (task_id task)
            ("🎉 Feedback processed" +:+ nl +:+ nl
             +:+ "**Execution Summary:**"
             +:+ nl +:+ Js.slice0 500 (responseText v) +:+ nl +:+ nl
             +:+ "**Duration:** " +:+ pretty duration +:+ " seconds") in
          ret tt
        else ret tt) >>
       onProgress callbacks "🎉 Feedback processed" 100 >>
       ret {| res_success := true; res_error := None;
              res_sessionId := newSessionId |})
    (λ message,
       let errorMessage := describe_error authMethod message in
       call _ := LinearService.addComment (task_id task)
         ("❌ Feedback processing failed" +:+ nl +:+ nl +:+ "**Error:**"
          +:+ nl +:+ backticks +:+ nl +:+ errorMessage +:+ nl
          +:+ backticks) in
       onProgress callbacks ("❌ Execution failed: " +:+ errorMessage) 100 >>
       ret {| res_success := false; res_error := Some errorMessage;
              res_sessionId := Some sessionId0 |}).

End ClaudeService.

(** ** TaskProcessor (src/queue/task.processor.ts) *)

Module TaskProcessor.

Import ClaudeService.

(** Keywords that trigger review requirement *)
Definition REVIEW_KEYWORDS : list string :=
  [ "write"; "generate"; "create"; "send"; "email"; "article"; "report";
    "delete"; "modify"; "update"; "code"; "script" ].

(** Check if task needs human review *)
Definition checkNeedsReview (task : LinearTask) : bool :=
  let content :=
    Js.toLowerCase
      (task_title task +:+ " "
       +:+ default EmptyString (Js.truthy (task_description task))) in
  existsb (λ keyword, Js.includes content keyword) REVIEW_KEYWORDS.

(** The callbacks every handler passes to the agent call. *)
Definition monitor_callbacks (taskId : string) : ProgressCallback :=
  {| onProgress := λ step progress,
       MonitorService.taskProgress taskId step progress;
     onSessionId := Some (λ sessionId,
       MonitorService.taskSessionId taskId sessionId) |}.

Definition review_instructions : string :=
  "Please check the execution result, then:" +:+ nl
  +:+ "- ✅ Approved → Change status to " +:+ dquote +:+ "Done" +:+ dquote
  +:+ nl
  +:+ "- 🔄 Needs changes → Reply with feedback, change status back to "
  +:+ dquote +:+ "Todo" +:+ dquote +:+ nl
  +:+ "- ❌ Cancel task → Change status to " +:+ dquote +:+ "Canceled"
  +:+ dquote.

Definition failure_comment {A} (headline message : string) (job : Job A)
    : string :=
  headline +:+ nl +:+ nl +:+ "**Error:**" +:+ nl +:+ backticks +:+ nl
  +:+ message +:+ nl +:+ backticks +:+ nl +:+ nl
  +:+ "**Retry attempts:** " +:+ pretty (job_attemptsMade job) +:+ "/"
  +:+ pretty (opt_attempts (job_opts job)).

(** The catch block shared, word for word, by the three handlers. *)
Definition on_failure {A} (task : LinearTask) (headline : string)
    (job : Job A) (message : string) : M unit :=
  call _ := LinearService.updateStatus (task_id task) FAILED in
  call _ := LinearService.addComment (task_id task)
              (failure_comment headline message job) in
  MonitorService.taskCompleted (task_id task) false (Some message) >>
  throw message.

(** @Process('execute') *)
Definition handleTask (job : Job LinearTask) (agent : AgentRun) : M unit :=
  let task := job_data job in
  MonitorService.taskStarted (task_id task) (task_identifier task)
    (task_title task) >>
  try_catch
    (call result := executeTask task (monitor_callbacks (task_id task))
                      agent in
     if res_success result then
       let needsReview := checkNeedsReview task in
       (if needsReview then
          call _ := LinearService.updateStatus (task_id task) IN_REVIEW in
          call _ := LinearService.addComment (task_id task)
            ("👀 **Task completed, awaiting human review**" +:+ nl +:+ nl
             +:+ review_instructions) in
          ret tt
        else
          call _ := LinearService.updateStatus (task_id task) DONE in
          ret tt) >>
       MonitorService.taskCompleted (task_id task) true None
     else throw (default EmptyString (res_error result)))
    (on_failure task "❌ Task execution failed" job).

(** @Process('feedback') *)
Definition handleFeedback (job : Job FeedbackJob) (agent : AgentRun)
    : M unit :=
  let task := fb_task (job_data job) in
  MonitorService.taskStarted (task_id task) (task_identifier task)
    ("[Feedback] " +:+ task_title task) >>
  try_catch
    (call _ := LinearService.updateStatus (task_id task) IN_PROGRESS in
     call _ := LinearService.addComment (task_id task)
                 "🔄 Processing your feedback..." in
     call result := executeFeedback task (fb_feedback (job_data job))
                      (fb_sessionId (job_data job))
                      (monitor_callbacks (task_id task)) agent in
     SessionStoreService.markCommentsProcessed
       (fb_commentIds (job_data job)) (task_id task) >>
     if res_success result then
       MonitorService.taskCompleted (task_id task) true None
     else throw (default EmptyString (res_error result)))
    (on_failure task "❌ Feedback processing failed" job).

Definition retryPrompt : string :=
  "This is a task retry. Please review the previous execution history, identify the cause of failure, and attempt to complete the task again."
  +:+ nl +:+ nl +:+ "Pay special attention to:" +:+ nl
  +:+ "1. Review the previous error messages" +:+ nl
  +:+ "2. Analyze the failure cause" +:+ nl
  +:+ "3. Take a different approach or fix the error" +:+ nl
  +:+ "4. Re-execute the task".

(** @Process('retry') *)
Definition handleRetry (job : Job RetryJob) (agent : AgentRun) : M unit :=
  let task := rj_task (job_data job) in
  MonitorService.taskStarted (task_id task) (task_identifier task)
    ("[Retry] " +:+ task_title task) >>
  try_catch
    (call _ := LinearService.addComment (task_id task)
                 "🔄 Retrying task execution..." in
     call result := executeFeedback task retryPrompt
                      (rj_sessionId (job_data job))
                      (monitor_callbacks (task_id task)) agent in
     if res_success result then
       let needsReview := checkNeedsReview task in
       (if needsReview then
          call _ := LinearService.updateStatus (task_id task) IN_REVIEW in
          call _ := LinearService.addComment (task_id task)
            ("👀 **Retry completed, awaiting human review**" +:+ nl +:+ nl
             +:+ review_instructions) in
          ret tt
        else
          call _ := LinearService.updateStatus (task_id task) DONE in
          call _ := LinearService.addComment (task_id task)
                      "✅ **Retry successful! Task completed**" in
          ret tt) >>
       MonitorService.taskCompleted (task_id task) true None
     else throw (default EmptyString (res_error result)))
    (on_failure task "❌ Retry failed" job).

End TaskProcessor.

(** ** The pollers (src/scheduler) *)

Definition queue_add (data : JobData) (opts : JobOptions) : M unit :=
  modify (with_queue (λ q, q ++ [(data, opts)])).

(** The options both pollers hand to [taskQueue.add]. *)
Definition job_options (timeout : option nat) : JobOptions :=
  {| opt_attempts := 3; opt_backoff_type := exponential;
     opt_backoff_delay := 5000%N; opt_timeout := timeout;
     opt_removeOnComplete := true; opt_removeOnFail := false |}.

Module TaskPollerService.

(** The body of [for (const task of tasks)]. *)
Definition claim_and_enqueue (task : LinearTask) : M unit :=
  call locked := LinearService.lockTask (task_id task) in
  if negb locked then ret tt
  else
    call _ := LinearService.addComment (task_id task)
                "🚀 Task received by system, execution starting soon..." in
    call timeout := gets cfg_taskTimeout in
    queue_add (execute_job task) (job_options timeout).

Definition pollTasks : M unit :=
  call isPolling := gets taskPoller_isPolling in
  if isPolling then ret tt
  else
    modify (with_taskPoller_isPolling true) >>
    λ w, let '(r, w') :=
           try_catch
             (call tasks := LinearService.getTasksByStatus TODO in
              for_each tasks claim_and_enqueue)
             (λ _, ret tt) w in
         (r, with_taskPoller_isPolling false w').

End TaskPollerService.

Module ReviewPollerService.

Import SessionStoreService.

Definition system_marker : string := "🤖 " +:+ nl.

(** [comments.filter(...)], the ledger being read through
    [isCommentProcessed]. *)
Definition newUserComments (comments : list LinearComment)
    (ledger : gmap string ProcessedRow) : list LinearComment :=
  List.filter
    (λ c, negb (Js.startsWith (comment_body c) system_marker)
          && negb (bool_decide (is_Some (ledger !! comment_id c))))
    comments.

(** The body of [for (const task of tasks)]. *)
Definition collect_feedback (task : LinearTask) : M unit :=
  call session := getSessionByTaskId (task_id task) in
  match Js.truthy (session ≫= row_session_id) with
  | None => ret tt
  | Some sessionId =>
      call comments := LinearService.getComments (task_id task) in
      call ledger := gets (λ w, processed_comments (store w)) in
      let new := newUserComments comments ledger in
      if bool_decide (length new = 0) then ret tt
      else
        let feedback :=
          Js.join (nl +:+ nl +:+ "---" +:+ nl +:+ nl)
                  (comment_body <$> new) in
        let commentIds := comment_id <$> new in
        call timeout := gets cfg_taskTimeout in
        queue_add
          (feedback_job {| fb_task := task; fb_feedback := feedback;
                           fb_commentIds := commentIds;
                           fb_sessionId := sessionId |})
          (job_options timeout)
  end.

Definition pollReviewTasks : M unit :=
  call isPolling := gets reviewPoller_isPolling in
  if isPolling then ret tt
  else
    modify (with_reviewPoller_isPolling true) >>
    λ w, let '(r, w') :=
           try_catch
             (call tasks := LinearService.getTasksByStatus IN_REVIEW in
              for_each tasks collect_feedback)
             (λ _, ret tt) w in
         (r, with_reviewPoller_isPolling false w').

End ReviewPollerService.

(** ** The Queue's retry policy *)

Module Queue.

(** Modelled from the spec: what the Queue does with a job whose handler
    threw, "requeue after delay" or "mark terminally failed". *)
Inductive Verdict :=
  | requeue (delay : N)
  | terminal_failure.

(** Modelled from the spec: the retry policy that the repository leaves
    to the Bull library, which is not in the sources.  "On handler
    exception: if attempts < maxAttempts, requeue after
    delay = baseDelay * 2^(attempts-1); otherwise mark terminally
    failed."  [attempts] counts the attempts made, the failed one
    included; [maxAttempts] and [baseDelay] are the [attempts] and
    [backoff.delay] options the pollers pass to [taskQueue.add]. *)
Definition on_exception (opts : JobOptions) (attempts : nat) : Verdict :=
  if (attempts <? opt_attempts opts)%nat
  then requeue (opt_backoff_delay opts * 2 ^ N.of_nat (attempts - 1))%N
  else terminal_failure.

(** Modelled from the spec: the life of a job whose handler throws at
    every attempt, as the list of the queue's verdicts; [attempts] is the
    number of attempts already made. *)
Fixpoint always_failing (fuel : nat) (opts : JobOptions) (attempts : nat)
    : list Verdict :=
  match fuel with
  | 0 => []
  | S fuel' =>
      match on_exception opts (S attempts) with
      | requeue delay =>
          requeue delay :: always_failing fuel' opts (S attempts)
      | terminal_failure => [terminal_failure]
      end
  end.

Definition delays (trace : list Verdict) : list N :=
  omap (λ v, match v with requeue d => Some d | terminal_failure => None end)
       trace.

End Queue.

(** ** Notions used to state the properties *)

(** A call of one of the four Task Tracker methods. *)
Inductive MonitorOp :=
  | op_started (taskId identifier title : string)
  | op_progress (taskId step : string) (progress : nat)
  | op_sessionId (taskId sessionId : string)
  | op_completed (taskId : string) (success : bool) (summary : option string).

Definition run_op (op : MonitorOp) : M unit :=
  match op with
  | op_started taskId identifier title =>
      MonitorService.taskStarted taskId identifier title
  | op_progress taskId step progress =>
      MonitorService.taskProgress taskId step progress
  | op_sessionId taskId sessionId =>
      MonitorService.taskSessionId taskId sessionId
  | op_completed taskId success summary =>
      MonitorService.taskCompleted taskId success summary
  end.

Definition run_ops (ops : list MonitorOp) (w : World) : World :=
  fold_left (λ w op, exec (run_op op) w) ops w.

Definition starts (taskId : string) (op : MonitorOp) : bool :=
  match op with
  | op_started taskId' _ _ => bool_decide (taskId' = taskId)
  | _ => false
  end.

Definition is_completion (op : MonitorOp) : bool :=
  match op with
  | op_completed _ _ _ => true
  | _ => false
  end.

Definition completions (ops : list MonitorOp) : nat :=
  length (List.filter is_completion ops).

(** One run of a job handler on a work item. *)
Inductive Run :=
  | run_execute (job : Job LinearTask) (agent : ClaudeService.AgentRun)
  | run_feedback (job : Job FeedbackJob) (agent : ClaudeService.AgentRun)
  | run_retry (job : Job RetryJob) (agent : ClaudeService.AgentRun).

Definition run_task (r : Run) : LinearTask :=
  match r with
  | run_execute job _ => job_data job
  | run_feedback job _ => fb_task (job_data job)
  | run_retry job _ => rj_task (job_data job)
  end.

Definition run_agent (r : Run) : ClaudeService.AgentRun :=
  match r with
  | run_execute _ agent | run_feedback _ agent | run_retry _ agent => agent
  end.

Definition do_run (r : Run) : M unit :=
  match r with
  | run_execute job agent => TaskProcessor.handleTask job agent
  | run_feedback job agent => TaskProcessor.handleFeedback job agent
  | run_retry job agent => TaskProcessor.handleRetry job agent
  end.

Definition do_runs (rs : list Run) (w : World) : World :=
  fold_left (λ w r, exec (do_run r) w) rs w.

(** The session id a message makes [processMessage] report, if any, and
    the ids a whole agent run reports, in order. *)
Definition captured_by (msg : ClaudeService.SDKMessage) : option string :=
  match msg with
  | ClaudeService.system subtype session_id =>
      if String.eqb subtype "init" then Js.truthy session_id else None
  | _ => None
  end.

Definition captured (r : Run) : list string :=
  omap captured_by (ClaudeService.run_messages (run_agent r)).

(** [session_id] of the work item's row in [task_sessions]. *)
Definition storedSessionId (taskId : string) (w : World) : option string :=
  task_sessions (store w) !! taskId ≫= row_session_id.

(** The completed-task history has an entry for the task id. *)
Definition recorded (taskId : string) (w : World) : Prop :=
  is_Some (taskHistory w !! taskId).

(** The work item has a running entry and a row in [task_sessions]. *)
Definition tracked (taskId : string) (w : World) : Prop :=
  is_Some (runningTasks w !! taskId)
  ∧ is_Some (task_sessions (store w) !! taskId).

(** The handlers a job handler's stream loop runs with. *)
Definition monitor_handlers (taskId : string) : ClaudeService.Handlers :=
  ClaudeService.stream_handlers (TaskProcessor.monitor_callbacks taskId).

(** The stored session id of a tracked work item is [s]. *)
Definition session_is (taskId : string) (s : option string) (w : World)
    : Prop :=
  storedSessionId taskId w = s ∧ tracked taskId w.

Definition ledger (w : World) : gmap string ProcessedRow :=
  processed_comments (store w).

(** The status transitions the services have requested from Linear so
    far. *)
Definition status_requests (w : World) : list (string * TaskStatus) :=
  omap (λ c, match c with
             | UpdateIssue issueId st => Some (issueId, st)
             | CreateComment _ _ => None
             end)
       (api_log (linear w)).

Definition issue_status (issueId : string) (w : World) : option TaskStatus :=
  snd <$> srv_issues (linear w) !! issueId.

(** The bodies of the comments the services themselves have posted on an
    issue, and the bodies of all the comments the issue carries. *)
Definition posted_by_system (issueId : string) (w : World) : list string :=
  omap (λ c, match c with
             | CreateComment issueId' body =>
                 if String.eqb issueId' issueId then Some body else None
             | UpdateIssue _ _ => None
             end)
       (api_log (linear w)).

Definition comment_bodies (issueId : string) (w : World) : list string :=
  comment_body <$> default [] (srv_comments (linear w) !! issueId).

(** What the tracker has been asked and what it shows for one issue;
    what the client knows of the workspace. *)
Definition requests_view (issueId : string) (w : World)
    : list (string * TaskStatus) * option TaskStatus :=
  (status_requests w, issue_status issueId w).

Definition client_view (w : World) : bool * list TaskStatus :=
  (lin_ready (linear w), lin_stateCache (linear w)).

Definition tracker_view (issueId : string) (w : World) :=
  (requests_view issueId w, client_view w).

Definition ledger_view (w : World) :=
  (ledger w, db_insert_fails (store w)).

(** What a batch marking of [ids] may leave of a ledger that was [L],
    when [F] tells which inserts raise. *)
Definition marked_or_untouched (L : gmap string ProcessedRow)
    (F : string → bool) (ids : list string)
    (L' : gmap string ProcessedRow) : Prop :=
  (L' = L ∨ ∀ c, c ∈ ids → is_Some (L' !! c))
  ∧ ((∀ c, c ∈ ids → F c = false) →
     (∀ c, c ∈ ids → is_Some (L' !! c))
     ∧ (∀ c, c ∉ ids → L' !! c = L !! c)).

(** The view once [target] has been requested, and granted if the issue
    exists. *)
Definition routed (V : list (string * TaskStatus) * option TaskStatus)
    (issueId : string) (target : TaskStatus) :=
  (V.1 ++ [(issueId, target)], (λ _ : TaskStatus, target) <$> V.2).

(** ** A program logic for [M] *)

(** [m] leaves the observation [f] of the world as it found it. *)
Definition keeps {A B} (f : World → B) (m : M A) : Prop :=
  ∀ w, f (exec m w) = f w.

(** From a world where [P] holds, [m] ends with an outcome (a value or an
    exception) and in a world that [Q] relates. *)
Definition hoare {A} (P : World → Prop) (m : M A)
    (Q : Res A → World → Prop) : Prop :=
  ∀ w, P w → Q (result m w) (exec m w).

(** [m] returns, it does not throw. *)
Definition returned {A} (r : Res A) : Prop :=
  match r with Ok _ => True | Throw _ => False end.

Definition returns {A} (m : M A) : Prop := ∀ w, returned (result m w).

(** The most recent of the ids in [l], or [s0] when there is none. *)
Definition latest (s0 : option string) (l : list string) : option string :=
  match last l with
  | Some s => Some s
  | None => s0
  end.

(** ** A concrete workspace, used to exercise the model *)

Module Scenario.

Import ClaudeService.

Definition workflow : list TaskStatus :=
  [BACKLOG; TODO; IN_PROGRESS; IN_REVIEW; DONE; FAILED; CANCELED].

Definition changelog : LinearTask :=
  {| task_id := "issue-1"; task_identifier := "X-1";
     task_title := "Write changelog"; task_description := None;
     task_priority := None; task_createdAt := 100 |}.

Definition status_check : LinearTask :=
  {| task_id := "issue-2"; task_identifier := "X-2";
     task_title := "Check status"; task_description := None;
     task_priority := Some 2; task_createdAt := 200 |}.

Definition workspace : Linear :=
  {| lin_ready := true; lin_teamId := "team-1";
     lin_stateCache := workflow; srv_states := workflow;
     srv_issues := {[ "issue-1" := (changelog, TODO);
                      "issue-2" := (status_check, TODO) ]};
     srv_comments := ∅; srv_nextComment := 0; api_log := [] |}.

(** The services right after start-up: nothing running, empty tables. *)
Definition initial : World :=
  {| linear := workspace;
     store := {| task_sessions := ∅; processed_comments := ∅;
                 db_insert_fails := λ _, false |};
     runningTasks := ∅; taskHistory := ∅; events := []; queue := [];
     taskPoller_isPolling := false; reviewPoller_isPolling := false;
     cfg_taskTimeout := Some 3000; cfg_authMethod := login;
     clock := 1000 |}.

Definition job_of {A} (data : A) : Job A :=
  {| job_data := data; job_attemptsMade := 1;
     job_opts := job_options (Some 3000) |}.

Definition agent_succeeds (session : string) : AgentRun :=
  {| run_stream :=
       [ yields (system "init" (Some session));
         yields (assistant (Some [text_block "All steps finished."]));
         yields (result_message "success" (Some "ok")) ];
     run_throws := None |}.

Definition agent_reports_failure (session : string) : AgentRun :=
  {| run_stream :=
       [ yields (system "init" (Some session));
         yields (assistant (Some [text_block "❌ The build failed"])) ];
     run_throws := None |}.

(** An agent that does what the feedback prompt asks of it when the
    feedback approves the work: it says so in a comment and sets the
    issue to Done. *)
Definition agent_approves (session issueId : string) : AgentRun :=
  {| run_stream :=
       [ yields (system "init" (Some session));
         yields (assistant
                   (Some [tool_use_block "mcp__linear__create_comment"]));
         acts (create_comment issueId
                 ("🤖 " +:+ nl +:+ "Approved, closing the task."));
         yields (assistant
                   (Some [tool_use_block "mcp__linear__update_issue"]));
         acts (update_issue issueId DONE);
         yields (assistant (Some [text_block "🎉 Feedback processed."]));
         yields (result_message "success" (Some "ok")) ];
     run_throws := None |}.

(** The second work item awaits review: the agent left a session behind
    and a human has commented. *)
Definition human_comment : LinearComment :=
  {| comment_id := "comment-h1"; comment_body := "looks good";
     comment_createdAt := 900 |}.

Definition reviewing : World :=
  {| linear :=
       {| lin_ready := true; lin_teamId := "team-1";
          lin_stateCache := workflow; srv_states := workflow;
          srv_issues := {[ "issue-1" := (changelog, TODO);
                           "issue-2" := (status_check, IN_REVIEW) ]};
          srv_comments := {[ "issue-2" := [human_comment] ]};
          srv_nextComment := 0; api_log := [] |};
     store :=
       {| task_sessions :=
            {[ "issue-2" :=
                 {| row_session_id := Some "session-2";
                    row_identifier := "X-2"; row_title := "Check status";
                    row_started_at := 500; row_completed_at := Some 800;
                    row_success := Some true; row_updated_at := 800 |} ]};
          processed_comments := ∅;
          db_insert_fails := λ _, false |};
     runningTasks := ∅; taskHistory := ∅; events := []; queue := [];
     taskPoller_isPolling := false; reviewPoller_isPolling := false;
     cfg_taskTimeout := Some 3000; cfg_authMethod := login;
     clock := 1000 |}.

(** The feedback job the review poller builds in [reviewing]. *)
Definition looks_good : FeedbackJob :=
  {| fb_task := status_check; fb_feedback := "looks good";
     fb_commentIds := ["comment-h1"]; fb_sessionId := "session-2" |}.

(** Start and complete [n] tasks, one after the other. *)
Definition churn (n : nat) : list MonitorOp :=
  flat_map (λ i, [ op_started (pretty i) (pretty i) "task";
                   op_completed (pretty i) true None ])
           (seq 0 n).

End Scenario.

(** ** Further notions *)

(** What a run of the agent cannot change of the tracker, whatever it asks
    of it: the requests the services have made, whether the issue exists,
    and what the client knows. *)
Definition service_view (issueId : string) (w : World) :=
  (status_requests w,
   bool_decide (is_Some (srv_issues (linear w) !! issueId)),
   client_view w).

(** The status the agent's requests leave an issue in that had the status
    [st]: the state of its last [update_issue] for the issue that names a
    state of the team's workflow, [st] if there is none. *)
Definition agent_sets (issueId : string) (states : list TaskStatus)
    (st : TaskStatus) (acts : list ClaudeService.AgentAct) : TaskStatus :=
  foldl (λ st act,
           match act with
           | ClaudeService.update_issue i state =>
               if bool_decide (i = issueId) && bool_decide (state ∈ states)
               then state else st
           | ClaudeService.create_comment _ _ => st
           end)
        st acts.

(** The status of an issue and the states of the team's workflow. *)
Definition status_view (issueId : string) (w : World) :=
  (issue_status issueId w, srv_states (linear w)).

(** What [LinearService] resolves a status name with. *)
Definition resolver_view (w : World) :=
  (lin_ready (linear w), lin_teamId (linear w), lin_stateCache (linear w),
   srv_states (linear w)).

(** A keyword without blanks. *)
Definition spaceless (kw : string) : Prop :=
  ∀ c, c ∈ list_ascii_of_string kw → c ≠ " "%char.

(** [LinearService] can turn the status name into a state id: the name is
    in the cache, or the cache can be refreshed and the team has it. *)
Definition resolvable (statusName : TaskStatus) (w : World) : bool :=
  bool_decide (statusName ∈ lin_stateCache (linear w))
  || (negb (String.eqb (lin_teamId (linear w)) EmptyString)
      && bool_decide (statusName ∈ srv_states (linear w))).

Definition issue_exists (issueId : string) (w : World) : bool :=
  bool_decide (is_Some (srv_issues (linear w) !! issueId)).

(** The order [getComments] returns comments in. *)
Definition newer_first (a b : LinearComment) : Prop :=
  (comment_createdAt b ≤ comment_createdAt a)%nat.

(** Whether a call returned. *)
Definition succeeded {A} (r : Res A) : bool :=
  match r with Ok _ => true | Throw _ => false end.

(** The work item is out of the running-task map, and both the history and
    its [task_sessions] row record the outcome [success]. *)
Definition settled (taskId : string) (success : bool) (w : World) : Prop :=
  runningTasks w !! taskId = None
  ∧ th_success <$> taskHistory w !! taskId = Some success
  ∧ task_sessions (store w) !! taskId ≫= row_success = Some success.

(** What the body of a handler leaves for its catch block: a settled work
    item when it returns, a tracked one when it throws. *)
Definition body_outcome (taskId : string) (r : Res unit) (w : World)
    : Prop :=
  match r with
  | Ok _ => settled taskId true w
  | Throw _ => tracked taskId w
  end.

(** The text an agent run writes: the text blocks of its assistant
    messages, one after the other. *)
Definition block_text (block : ClaudeService.ContentBlock) : string :=
  match block with
  | ClaudeService.text_block text => text
  | _ => EmptyString
  end.

Definition message_text (msg : ClaudeService.SDKMessage) : string :=
  match msg with
  | ClaudeService.assistant (Some content) =>
      foldr (λ block rest, block_text block +:+ rest) EmptyString content
  | _ => EmptyString
  end.

Definition transcript (msgs : list ClaudeService.SDKMessage) : string :=
  foldr (λ msg rest, message_text msg +:+ rest) EmptyString msgs.

(** What [executeTask] and [executeFeedback] report for an agent run. *)
Definition reported_success (agent : ClaudeService.AgentRun) : bool :=
  match ClaudeService.run_throws agent with
  | Some _ => false
  | None =>
      negb (ClaudeService.hasError
              (transcript (ClaudeService.run_messages agent)))
  end.

Definition reported_error (authMethod : AuthMethod)
    (agent : ClaudeService.AgentRun) : option string :=
  match ClaudeService.run_throws agent with
  | Some e => Some (ClaudeService.describe_error authMethod e)
  | None =>
      let text := transcript (ClaudeService.run_messages agent) in
      if ClaudeService.hasError text then Some text else None
  end.

(** The stream loop returned, having added [text] to the response text of
    [v]. *)
Definition wrote (text : string) (v : ClaudeService.Locals)
    (r : Res ClaudeService.Locals) : Prop :=
  ∃ v', r = Ok v'
        ∧ ClaudeService.responseText v'
          = ClaudeService.responseText v +:+ text.

(** The result the agent call hands to the job handler. *)
Definition reports (authMethod : AuthMethod) (agent : ClaudeService.AgentRun)
    (r : Res ClaudeService.TaskExecutionResult) : Prop :=
  ∃ res, r = Ok res
         ∧ ClaudeService.res_success res = reported_success agent
         ∧ ClaudeService.res_error res = reported_error authMethod agent.

(** What the [try] block of the agent call leaves for its [catch]. *)
Definition attempt (authMethod : AuthMethod) (agent : ClaudeService.AgentRun)
    (r : Res ClaudeService.TaskExecutionResult) : Prop :=
  match r with
  | Ok _ => reports authMethod agent r
  | Throw e => ClaudeService.run_throws agent = Some e
  end.

(** The database accepts the insert of every one of [ids]. *)
Definition inserts_accepted (F : string → bool) (ids : list string) : bool :=
  forallb (λ c, negb (F c)) ids.


(** ** Notions for the pollers *)









(** The comments of a work item that the review poller takes for new
    feedback. *)
Definition new_feedback (w : World) (task : LinearTask)
    : list LinearComment :=
  ReviewPollerService.newUserComments
    (if lin_ready (linear w) && issue_exists (task_id task) w
     then LinearService.sort_desc
            (default [] (srv_comments (linear w) !! task_id task))
     else [])
    (ledger w).




(** ** MonitorService: the queries (monitor/monitor.service.ts) *)

Module MonitorQueries.

(** Get session ID for a task: first the running tasks, then SQLite. *)
Definition getTaskSessionId (taskId : string) : M (option string) :=
  call runningTask := gets (λ w, runningTasks w !! taskId) in
  match Js.truthy (runningTask ≫= rt_sessionId) with
  | Some sessionId => ret (Some sessionId)
  | None =>
      call storedSession := SessionStoreService.getSessionByTaskId taskId in
      ret (Js.truthy (storedSession ≫= row_session_id))
  end.

(** [LinearService.getIssueWithState] (linear/linear.service.ts): the
    issue with its state, [null] when the client is not ready or the
    request fails. *)
Definition getIssueWithState (issueId : string)
    : M (option (LinearTask * TaskStatus)) :=
  call ready := LinearService.ensureClient in
  if negb ready then ret None
  else gets (λ w, srv_issues (linear w) !! issueId).

(** What the endpoint answers: the success object, or one of the two
    HTTP exceptions.  The [catch] block of [retryTask] rethrows these two
    as they are and turns any other error into a [BadRequestException]. *)
Inductive RetryResponse :=
  | queued_for_retry (message : string)
  | NotFoundException (message : string)
  | BadRequestException (message : string).

(** The queue is a client of Redis: [taskQueue.add] and
    [taskQueue.getJobCounts] reject, with the error given here, when Redis
    does not answer. *)
Record QueueFaults := {
  add_rejects : option string;
  getJobCounts_rejects : option string;
}.

Definition working : QueueFaults :=
  {| add_rejects := None; getJobCounts_rejects := None |}.

(** [await this.taskQueue.add(...)] *)
Definition taskQueue_add (faults : QueueFaults) (data : JobData)
    (opts : JobOptions) : M unit :=
  match add_rejects faults with
  | Some e => throw e
  | None => queue_add data opts
  end.

(** [await this.refreshStats()].  [getDashboardStats] asks for the job
    counts and for the tracker's counts at once; when the first request is
    rejected the second has been made all the same, and nothing is
    broadcast. *)
Definition awaited_refreshStats (faults : QueueFaults) : M unit :=
  match getJobCounts_rejects faults with
  | Some e => MonitorService.getLinearStats >> throw e
  | None => MonitorService.refreshStats
  end.

Definition retry_comment (sessionId : string) : string :=
  "🔄 **Manual task retry**" +:+ nl +:+ nl
  +:+ "Using previous execution context (Session ID: "
  +:+ sessionId +:+ ")" +:+ nl
  +:+ "System will review the previous failure and retry...".

(** [retryTask] once its checks have passed: from "Update status to In
    Progress immediately" to the [return]. *)
Definition queue_retry (faults : QueueFaults) (taskId : string)
    (task : LinearTask) (sessionId : string) : M RetryResponse :=
  call _ := LinearService.updateStatus taskId IN_PROGRESS in
  call _ := LinearService.addComment taskId (retry_comment sessionId) in
  call timeout := gets cfg_taskTimeout in
  taskQueue_add faults
    (retry_job {| rj_task := task; rj_sessionId := sessionId |})
    (job_options timeout) >>
  call now := gets clock in
  MonitorGateway.broadcastLog
    {| log_timestamp := now; log_level := level_info;
       log_taskId := Some taskId;
       log_message :=
         "🔄 [" +:+ task_identifier task
         +:+ "] Task added to retry queue" |} >>
  awaited_refreshStats faults >>
  ret (queued_for_retry
         ("Task " +:+ task_identifier task +:+ " has been queued for retry")).

(** The last line of the [catch] block. *)
Definition catch_all (message : string) : M RetryResponse :=
  ret (BadRequestException ("Failed to retry task: " +:+ message)).

(** Retry a failed task *)
Definition retryTask (faults : QueueFaults) (taskId : string)
    : M RetryResponse :=
  try_catch
    (call taskDetails := getIssueWithState taskId in
     match taskDetails with
     | None =>
         ret (NotFoundException
                ("Task with ID " +:+ taskId +:+ " not found"))
     | Some (task, state) =>
         if negb (bool_decide (state = FAILED)) then
           ret (BadRequestException
                  ("Only failed tasks can be retried. Current status: "
                   +:+ TaskStatus_name state))
         else
           call sessionId := getTaskSessionId taskId in
           match sessionId with
           | None =>
               ret (BadRequestException
                      ("No session found for task " +:+ taskId
                       +:+ ". Cannot retry without previous execution context."))
           | Some sessionId => queue_retry faults taskId task sessionId
           end
     end)
    catch_all.

End MonitorQueries.

(** Every running entry has its row, and the session id the entry carries
    is the one the row stores. *)
Definition coherent (w : World) : Prop :=
  ∀ taskId info,
    runningTasks w !! taskId = Some info →
    is_Some (task_sessions (store w) !! taskId)
    ∧ ∀ s, rt_sessionId info = Some s → storedSessionId taskId w = Some s.

(** The endpoint accepted the retry. *)
Definition accepted (r : Res MonitorQueries.RetryResponse) : bool :=
  match r with
  | Ok (MonitorQueries.queued_for_retry _) => true
  | _ => false
  end.

(** The queue answers. *)
Definition answers (faults : MonitorQueries.QueueFaults) : bool :=
  match MonitorQueries.add_rejects faults,
        MonitorQueries.getJobCounts_rejects faults with
  | None, None => true
  | _, _ => false
  end.

(** The error [retryTask] meets first. *)
Definition first_fault (faults : MonitorQueries.QueueFaults)
    : option string :=
  match MonitorQueries.add_rejects faults with
  | Some e => Some e
  | None => MonitorQueries.getJobCounts_rejects faults
  end.

(** What [retryTask] answers once its checks have passed. *)
Definition retry_response (faults : MonitorQueries.QueueFaults)
    (task : LinearTask) : MonitorQueries.RetryResponse :=
  match first_fault faults with
  | None =>
      MonitorQueries.queued_for_retry
        ("Task " +:+ task_identifier task +:+ " has been queued for retry")
  | Some e =>
      MonitorQueries.BadRequestException ("Failed to retry task: " +:+ e)
  end.

(** What [retryTask] changes: the requests and the comments the services
    have sent to the tracker, and the queue; what it reads on the way. *)
Definition retry_view (taskId : string) (w : World) :=
  (status_requests w, posted_by_system taskId w, queue w,
   (cfg_taskTimeout w, lin_ready (linear w))).

(** The job [retryTask] adds. *)
Definition retry_request (w : World) (task : LinearTask) (sessionId : string)
    : JobData * JobOptions :=
  (retry_job {| rj_task := task; rj_sessionId := sessionId |},
   job_options (cfg_taskTimeout w)).

(** What the failure path of a handler needs of the tracker: a ready
    client, the state cache, and the issue. *)
Definition failure_view (issueId : string) (w : World) :=
  (lin_ready (linear w), lin_stateCache (linear w), issue_exists issueId w).

(** The tracker can take any status change of the issue: the client is
    ready, the cache [c] knows every state, and the issue exists. *)
Definition serviceable (issueId : string) (c : list TaskStatus) (w : World)
    : Prop :=
  failure_view issueId w = (true, c, true).

(** Where a run leaves its issue: Failed when the job failed; otherwise
    the review gate's choice for an execute or a retry job and, for a
    feedback job, what the agent has made of the In Progress the handler
    set before the run. *)
Definition final_status (states : list TaskStatus) (r : Run)
    (success : bool) : TaskStatus :=
  if success then
    match r with
    | run_feedback _ agent =>
        agent_sets (task_id (run_task r)) states IN_PROGRESS
                   (ClaudeService.run_acts agent)
    | _ => if TaskProcessor.checkNeedsReview (run_task r)
           then IN_REVIEW else DONE
    end
  else FAILED.

(** ** Settings (settings/settings.service.ts, settings-provider.service.ts,
    settings.controller.ts)

    The settings live in their own table [settings] and in the values the
    configuration has read from the environment; a value the configuration
    does not define is [None]. *)

Module Settings.

Record State := {
  db : gmap string string;
  env : gmap string string;
}.

(** Mapping of setting keys to their config paths for .env fallback *)
Definition settingsConfig : list (string * string) :=
  [ ("authMethod", "anthropic.authMethod");
    ("model", "anthropic.model");
    ("anthropicApiKey", "anthropic.apiKey");
    ("anthropicBaseUrl", "anthropic.baseUrl");
    ("anthropicAuthToken", "anthropic.authToken");
    ("linearApiKey", "linear.apiKey");
    ("linearTeamId", "linear.teamId");
    ("linearWorkspace", "linear.workspace");
    ("linearApiKeyName", "linear.apiKeyName");
    ("workspacePath", "anthropic.workspacePath") ].

(** List of sensitive fields that should be masked *)
Definition sensitiveFields : list string :=
  [ "anthropicApiKey"; "anthropicAuthToken"; "linearApiKey" ].

Definition sensitive (key : string) : bool :=
  bool_decide (key ∈ sensitiveFields).

(** *** SettingsService *)

Definition getSetting (key : string) (s : State) : option string :=
  db s !! key.

Definition getAllSettings (s : State) : gmap string string := db s.

(** One run of INSERT ... ON CONFLICT(key) DO UPDATE SET value = ? *)
Definition setSetting (key value : string) (s : State) : State :=
  {| db := <[key := value]> (db s); env := env s |}.

(** Batch update, in the order of [Object.entries(settings)]. *)
Definition setSettings (settings : list (string * string)) (s : State)
    : State :=
  foldl (λ s kv, setSetting kv.1 kv.2 s) s settings.

(** [configService.get(configPath)] *)
Definition config_get (configPath : string) (s : State) : option string :=
  env s !! configPath.

(** *** SettingsProviderService *)

(** Get a setting value with fallback to .env *)
Definition getValue (key configPath : string) (s : State) : option string :=
  match Js.truthy (getSetting key s) with
  | Some dbValue => Some dbValue
  | None => config_get configPath s
  end.

Definition getAuthMethod (s : State) : string :=
  default "api_key"
    (Js.truthy (getValue "authMethod" "anthropic.authMethod" s)).

Definition getModel (s : State) : string :=
  default "sonnet" (Js.truthy (getValue "model" "anthropic.model" s)).

(** *** SettingsController *)

(** Mask sensitive value: show first 4 and last 4 characters *)
Definition maskSensitiveValue (value : option string) : string :=
  match Js.truthy value with
  | None => EmptyString
  | Some v =>
      if (Js.length v <=? 8)%nat then "****"
      else Js.slice0 4 v +:+ "***" +:+ Js.slice_last 4 v
  end.

(** Check if a value contains the mask pattern *)
Definition isMaskedValue (value : option string) : bool :=
  match Js.truthy value with
  | None => false
  | Some v => Js.includes v "***"
  end.

(** [savedValue || envValue || ''], masked for a sensitive field. *)
Definition shown (key configPath : string) (s : State) : string :=
  let savedValue := getAllSettings s !! key in
  let envValue := config_get configPath s in
  let value :=
    default EmptyString
      (Js.truthy (match Js.truthy savedValue with
                  | Some v => Some v
                  | None => envValue
                  end)) in
  if sensitive key && bool_decide (value ≠ EmptyString)
  then maskSensitiveValue (Some value)
  else value.

(** GET /api/settings: every key of [settingsConfig] with its value, the
    two enumerations with their defaults. *)
Definition getSettings (s : State) : gmap string string :=
  let result : gmap string string :=
    list_to_map ((λ kp, (kp.1, shown kp.1 kp.2 s)) <$> settingsConfig) in
  <["authMethod" :=
      default "api_key" (Js.truthy (result !! "authMethod"))]>
    (<["model" := default "sonnet" (Js.truthy (result !! "model"))]> result).

(** The fields of the request body that are saved. *)
Definition settingsToSave (settingsDto : gmap string string)
    : list (string * string) :=
  omap (λ kp : string * string,
          match settingsDto !! kp.1 with
          | None => None
          | Some value =>
              if sensitive kp.1 && isMaskedValue (Some value) then None
              else Some (kp.1, value)
          end)
       settingsConfig.

(** POST /api/settings *)
Definition saveSettings (settingsDto : gmap string string) (s : State)
    : State * gmap string string :=
  let s' := setSettings (settingsToSave settingsDto) s in
  (s', getSettings s').

End Settings.

(** The value of a setting that is in force, the empty string when there
    is none; the default the settings form shows for the two
    enumerations; what the form shows for a key. *)
Definition effective (key configPath : string) (s : Settings.State)
    : string :=
  default EmptyString (Js.truthy (Settings.getValue key configPath s)).

Definition form_default (key : string) : string :=
  if String.eqb key "authMethod" then "api_key"
  else if String.eqb key "model" then "sonnet"
  else EmptyString.

Definition exposed (key configPath : string) (s : Settings.State)
    : string :=
  default (form_default key)
          (Js.truthy (Some (Settings.shown key configPath s))).

(** The state after the form has been saved as it was shown. *)
Definition resaved (s : Settings.State) : Settings.State :=
  (Settings.saveSettings (Settings.getSettings s) s).1.

(** What the tracker and the session store hold for one work item. *)
Definition item_view (taskId : string) (w : World) :=
  (runningTasks w !! taskId, taskHistory w !! taskId,
   task_sessions (store w) !! taskId).

(** ** Notions for the progress a run reports *)

(** The progress a broadcast event reports for a work item, and the
    progress values all the events so far have reported for it. *)
Definition progress_of (taskId : string) (e : Event) : option nat :=
  match e with
  | task_update u =>
      if String.eqb (tu_taskId u) taskId then tu_progress u else None
  | _ => None
  end.

Definition progress_log (taskId : string) (w : World) : list nat :=
  omap (progress_of taskId) (events w).

(** The run has been started and has not reported progress yet. *)
Definition about_to_report (taskId : string) (L0 : list nat) (w : World)
    : Prop :=
  progress_log taskId w = L0 ∧ is_Some (runningTasks w !! taskId).

(** The run is reporting: since [L0] it has reported [10] first and then
    values that never decrease; the running entry holds the last of them,
    which is at most [bound]. *)
Definition reporting (taskId : string) (L0 : list nat) (bound : nat)
    (w : World) : Prop :=
  ∃ L info,
    progress_log taskId w = L0 ++ L
    ∧ head L = Some 10
    ∧ StronglySorted le L
    ∧ runningTasks w !! taskId = Some info
    ∧ Forall (λ p, p ≤ rt_progress info) L
    ∧ rt_progress info ≤ bound.

(** The run is over: its reports started with [10], never decreased and
    ended with [100]. *)
Definition reported (taskId : string) (L0 : list nat) (w : World) : Prop :=
  ∃ L, progress_log taskId w = L0 ++ L
       ∧ head L = Some 10
       ∧ StronglySorted le L
       ∧ last L = Some 100.

(** The progress the stream loop reports next is not below the last. *)
Definition paced (v : ClaudeService.Locals) : Prop :=
  ClaudeService.lastProgress v
  ≤ 90 `min` (20 + ClaudeService.toolCallCount v * 15).

(** The stream loop has returned, paced, and the run is reporting with the
    last progress of the loop for its bound. *)
Definition streamed (taskId : string) (L0 : list nat)
    (r : Res ClaudeService.Locals) (w : World) : Prop :=
  ∃ v', r = Ok v' ∧ paced v'
        ∧ reporting taskId L0 (ClaudeService.lastProgress v') w.

(** What the body of a handler leaves of the reports: a finished sequence
    when it returns, a run that is still reporting when it throws. *)
Definition body_reports (taskId : string) (L0 : list nat) (r : Res unit)
    (w : World) : Prop :=
  match r with
  | Ok _ => reported taskId L0 w
  | Throw _ => reporting taskId L0 100 w
  end.

(** What the stream loop adds to the reports of a run at a tool use
    ([onToolUse]) and at a session id ([onSessionId], which makes the
    monitor broadcast the entry as it is): [st] holds the last value
    reported, the number of tool uses so far and the values reported so
    far. *)
Definition block_step (st : nat * nat * list nat)
    (block : ClaudeService.ContentBlock) : nat * nat * list nat :=
  let '(last, count, L) := st in
  match block with
  | ClaudeService.tool_use_block _ =>
      let progress := 90 `min` (20 + S count * 15) in
      (progress, S count, L ++ [progress])
  | _ => st
  end.

Definition message_step (st : nat * nat * list nat)
    (msg : ClaudeService.SDKMessage) : nat * nat * list nat :=
  match msg with
  | ClaudeService.assistant (Some content) => foldl block_step st content
  | ClaudeService.system subtype session_id =>
      match String.eqb subtype "init", Js.truthy session_id with
      | true, Some _ =>
          let '(last, count, L) := st in (last, count, L ++ [last])
      | _, _ => st
      end
  | _ => st
  end.

(** The progress values a run reports: 10 when the agent call starts, what
    the stream adds, 100 when the agent call ends and 100 again when the
    handler completes the task. *)
Definition expected_progress (agent : ClaudeService.AgentRun) : list nat :=
  (foldl message_step (10, 0, [10]) (ClaudeService.run_messages agent)).2
  ++ [100; 100].

(** The run has reported [st.2] since [L0]; the loop's variables and the
    running entry agree with [st]. *)
Definition reports_state (taskId : string) (L0 : list nat)
    (st : nat * nat * list nat) (v : ClaudeService.Locals) (w : World)
    : Prop :=
  ClaudeService.lastProgress v = st.1.1
  ∧ ClaudeService.toolCallCount v = st.1.2
  ∧ progress_log taskId w = L0 ++ st.2
  ∧ ∃ info, runningTasks w !! taskId = Some info
            ∧ rt_progress info = st.1.1.

Definition stream_reports (taskId : string) (L0 : list nat)
    (st : nat * nat * list nat) (r : Res ClaudeService.Locals) (w : World)
    : Prop :=
  ∃ v', r = Ok v' ∧ reports_state taskId L0 st v' w.

(** The agent call is over: the run has reported [L] since [L0], and the
    work item is still running. *)
Definition reported_exactly (taskId : string) (L0 L : list nat) (w : World)
    : Prop :=
  progress_log taskId w = L0 ++ L ∧ is_Some (runningTasks w !! taskId).

(** * Properties *)

(** ** Rules of the program logic *)

Section Rules.

Context {B : Type} (f : World → B).

Lemma keeps_ret {A} (a : A) : keeps f (ret a).
Proof. by intros w. Qed.

Lemma keeps_throw {A} e : keeps f (throw (A := A) e).
Proof. by intros w. Qed.

Lemma keeps_gets {A} (g : World → A) : keeps f (gets g).
Proof. by intros w. Qed.

Lemma keeps_modify g : (∀ w, f (g w) = f w) → keeps f (modify g).
Proof. intros H w. apply H. Qed.

Lemma keeps_bind {A C} (m : M A) (k : A → M C) :
  keeps f m → (∀ a, keeps f (k a)) → keeps f (bind m k).
Proof.
  intros Hm Hk w. specialize (Hm w). unfold exec, bind in *.
  destruct (m w) as [[a|e] w1]; simpl in *; [|done].
  by rewrite <- Hm, <- (Hk a w1).
Qed.

Lemma keeps_try_catch {A} (m : M A) (h : string → M A) :
  keeps f m → (∀ e, keeps f (h e)) → keeps f (try_catch m h).
Proof.
  intros Hm Hh w. specialize (Hm w). unfold exec, try_catch in *.
  destruct (m w) as [[a|e] w1]; simpl in *; [done|].
  by rewrite <- Hm, <- (Hh e w1).
Qed.

Lemma keeps_for_each {A} (l : list A) (body : A → M unit) :
  (∀ x, keeps f (body x)) → keeps f (for_each l body).
Proof.
  intros Hb. induction l as [|x l IH]; simpl.
  - apply keeps_ret.
  - apply keeps_bind; auto.
Qed.

End Rules.

Lemma keeps_pair {A B C} (f : World → B) (g : World → C) (m : M A) :
  keeps f m → keeps g m → keeps (λ w, (f w, g w)) m.
Proof. intros Hf Hg w. by rewrite Hf, Hg. Qed.

Section HoareRules.

Context {A : Type}.
Implicit Types P : World → Prop.

Lemma hoare_ret P (a : A) (Q : Res A → World → Prop) :
  (∀ w, P w → Q (Ok a) w) → hoare P (ret a) Q.
Proof. intros H w Hw. by apply H. Qed.

Lemma hoare_throw P e (Q : Res A → World → Prop) :
  (∀ w, P w → Q (Throw e) w) → hoare P (throw e) Q.
Proof. intros H w Hw. by apply H. Qed.

Lemma hoare_keeps {B} (f : World → B) (m : M A) (I : B → Prop) :
  keeps f m → hoare (λ w, I (f w)) m (λ _ w, I (f w)).
Proof. intros H w HI. by rewrite H. Qed.

Lemma hoare_weaken P P' (Q Q' : Res A → World → Prop) (m : M A) :
  hoare P' m Q' → (∀ w, P w → P' w) → (∀ r w, Q' r w → Q r w) →
  hoare P m Q.
Proof. intros H HP HQ w Hw. apply HQ, H, HP, Hw. Qed.

Lemma hoare_post P (Q Q' : Res A → World → Prop) (m : M A) :
  hoare P m Q' → (∀ r w, Q' r w → Q r w) → hoare P m Q.
Proof. intros H HQ w Hw. apply HQ, H, Hw. Qed.

Lemma hoare_pre P P' (Q : Res A → World → Prop) (m : M A) :
  hoare P' m Q → (∀ w, P w → P' w) → hoare P m Q.
Proof. intros H HP w Hw. apply H, HP, Hw. Qed.

Lemma hoare_bind {C} P (Q1 : Res A → World → Prop)
    (Q2 : Res C → World → Prop) (m : M A) (k : A → M C) :
  hoare P m Q1 →
  (∀ a, hoare (Q1 (Ok a)) (k a) Q2) →
  (∀ e w, Q1 (Throw e) w → Q2 (Throw e) w) →
  hoare P (bind m k) Q2.
Proof.
  intros Hm Hk Hthrow w Hw. specialize (Hm w Hw).
  unfold exec, result, bind in *.
  destruct (m w) as [[a|e] w1]; simpl in *; [|by apply Hthrow].
  by apply (Hk a w1).
Qed.

Lemma hoare_try_catch P (Q1 Q2 : Res A → World → Prop) (m : M A)
    (h : string → M A) :
  hoare P m Q1 →
  (∀ e, hoare (Q1 (Throw e)) (h e) Q2) →
  (∀ a w, Q1 (Ok a) w → Q2 (Ok a) w) →
  hoare P (try_catch m h) Q2.
Proof.
  intros Hm Hh Hok w Hw. specialize (Hm w Hw).
  unfold exec, result, try_catch in *.
  destruct (m w) as [[a|e] w1]; simpl in *; [by apply Hok|].
  by apply (Hh e w1).
Qed.

End HoareRules.

Lemma hoare_gets_bind {A C} P (g : World → A) (k : A → M C)
    (Q : Res C → World → Prop) :
  (∀ a, hoare P (k a) Q) → hoare P (bind (gets g) k) Q.
Proof. intros H w Hw. by apply (H (g w) w). Qed.

(** Closed facts about a concrete run are settled by evaluation, one
    conjunct at a time. *)
Ltac evaluate :=
  intros;
  repeat match goal with |- _ ∧ _ => split end;
  vm_compute; first [reflexivity | discriminate].

(** [keeps f m] by following the structure of [m]; the definitions of the
    services are unfolded on the way, the leaves are record updates that
    do not touch [f]. *)
Ltac keeps_leaf :=
  first
    [ apply keeps_ret | apply keeps_throw | apply keeps_gets
    | apply keeps_modify;
        solve [ intros []; reflexivity
              | intros ?; reflexivity
              | intros ?; simpl; repeat case_match; reflexivity ] ].

Ltac keeps_step :=
  first
    [ assumption
    | apply keeps_pair
    | keeps_leaf
    | solve [ auto 2 with keeps ]
    | apply keeps_bind; [| intros ?]
    | apply keeps_try_catch; [| intros ?]
    | apply keeps_for_each; intros ?
    | match goal with
      | |- keeps _ (if ?b then _ else _) => destruct b
      | |- keeps _ (match ?x with _ => _ end) => destruct x
      end ].

Ltac keeps_auto := repeat keeps_step.

Create HintDb keeps discriminated.

Create HintDb services.

#[global] Hint Unfold
  LinearService.client_updateIssue LinearService.client_createComment
  LinearService.ensureClient LinearService.hasTeamId
  LinearService.refreshStateCache LinearService.getStateId
  LinearService.getTasksByStatus LinearService.lockTask
  LinearService.updateStatus LinearService.addComment
  LinearService.getComments
  SessionStoreService.saveSession SessionStoreService.updateSessionId
  SessionStoreService.completeTask SessionStoreService.getSessionByTaskId
  SessionStoreService.isCommentProcessed
  SessionStoreService.insert_or_ignore
  SessionStoreService.markCommentProcessed
  SessionStoreService.markCommentsProcessed
  MonitorGateway.emit MonitorGateway.broadcastTaskUpdate
  MonitorGateway.broadcastLog MonitorGateway.broadcastStats
  MonitorService.getLinearStats MonitorService.getDashboardStats
  MonitorService.refreshStats
  MonitorService.taskStarted MonitorService.taskProgress
  MonitorService.taskSessionId MonitorService.taskCompleted
  ClaudeService.run_query ClaudeService.executeTask
  ClaudeService.executeFeedback
  TaskProcessor.on_failure TaskProcessor.handleTask
  TaskProcessor.handleFeedback TaskProcessor.handleRetry
  TaskProcessor.monitor_callbacks
  queue_add : services.

(** *** The stream loop keeps what its handlers keep *)

Section Stream.

Import ClaudeService.
Context {B : Type} (f : World → B).

Lemma keeps_process_blocks content handlers v :
  (∀ s v, keeps f (onText handlers s v)) →
  (∀ s v, keeps f (onToolUse handlers s v)) →
  keeps f (process_blocks content handlers v).
Proof.
  intros Ht Hu. revert v.
  induction content as [|[text|name|] rest IH]; intros v; simpl.
  - apply keeps_ret.
  - apply keeps_bind; auto.
  - apply keeps_bind; auto.
  - apply IH.
Qed.

Lemma keeps_processMessage msg handlers v :
  (∀ s v, keeps f (onText handlers s v)) →
  (∀ s v, keeps f (onToolUse handlers s v)) →
  (∀ s v, keeps f (onResult handlers s v)) →
  (∀ s v, keeps f (h_onSessionId handlers s v)) →
  keeps f (processMessage msg handlers v).
Proof.
  intros Ht Hu Hr Hs.
  destruct msg as [[content|]|subtype r|subtype sid| | |]; simpl;
    try apply keeps_ret.
  - by apply keeps_process_blocks.
  - destruct (String.eqb subtype "success"), (Js.truthy r);
      auto using keeps_ret.
  - destruct (String.eqb subtype "init"), (Js.truthy sid);
      auto using keeps_ret.
Qed.

Lemma keeps_consume stream handlers v :
  (∀ s v, keeps f (onText handlers s v)) →
  (∀ s v, keeps f (onToolUse handlers s v)) →
  (∀ s v, keeps f (onResult handlers s v)) →
  (∀ s v, keeps f (h_onSessionId handlers s v)) →
  (∀ act, keeps f (mcp_linear act)) →
  keeps f (consume stream handlers v).
Proof.
  intros Ht Hu Hr Hs Ha. revert v.
  induction stream as [|[msg|act] rest IH]; intros v; simpl.
  - apply keeps_ret.
  - apply keeps_bind; [by apply keeps_processMessage | auto].
  - apply keeps_bind; auto.
Qed.

Lemma keeps_consume_callbacks stream callbacks v :
  (∀ s n, keeps f (onProgress callbacks s n)) →
  (∀ g s, onSessionId callbacks = Some g → keeps f (g s)) →
  (∀ act, keeps f (mcp_linear act)) →
  keeps f (consume stream (stream_handlers callbacks) v).
Proof.
  intros Hp Hs Ha. apply keeps_consume; [| | | |done]; intros s v'; simpl.
  - apply keeps_ret.
  - apply keeps_bind; [apply Hp | intros; apply keeps_ret].
  - apply keeps_ret.
  - apply keeps_bind; [| intros; apply keeps_ret].
    destruct (onSessionId callbacks) as [g|] eqn:E;
      [by apply (Hs g) | apply keeps_ret].
Qed.

End Stream.

(** *** Methods that never throw *)

Lemma returns_ret {A} (a : A) : returns (ret a).
Proof. by intros w. Qed.

Lemma returns_gets {A} (g : World → A) : returns (gets g).
Proof. by intros w. Qed.

Lemma returns_modify g : returns (modify g).
Proof. by intros w. Qed.

Lemma returns_bind {A C} (m : M A) (k : A → M C) :
  returns m → (∀ a, returns (k a)) → returns (bind m k).
Proof.
  intros Hm Hk w. specialize (Hm w). unfold result, bind in *.
  destruct (m w) as [[a|e] w1]; simpl in *; [apply Hk | done].
Qed.

Lemma returns_try_catch {A} (m : M A) (h : string → M A) :
  (∀ e, returns (h e)) → returns (try_catch m h).
Proof.
  intros Hh w. unfold result, try_catch.
  destruct (m w) as [[a|e] w1]; simpl; [done | apply Hh].
Qed.

Lemma returns_mcp_linear act : returns (ClaudeService.mcp_linear act).
Proof. apply returns_modify. Qed.

Lemma returns_consume_callbacks stream callbacks v :
  (∀ s n, returns (ClaudeService.onProgress callbacks s n)) →
  (∀ g s, ClaudeService.onSessionId callbacks = Some g → returns (g s)) →
  returns (ClaudeService.consume stream
             (ClaudeService.stream_handlers callbacks) v).
Proof.
  intros Hp Hs. revert v.
  induction stream as [|[msg|act] rest IH]; intros v; simpl.
  - apply returns_ret.
  - apply returns_bind; [|auto].
    destruct msg as [[content|]|subtype r|subtype sid| | |]; simpl;
      try apply returns_ret.
    + clear IH. revert v.
      induction content as [|[text|name|] content IH]; intros v; simpl;
        [apply returns_ret | | | apply IH].
      * apply returns_bind; [apply returns_ret | auto].
      * apply returns_bind; [|auto].
        apply returns_bind; [apply Hp | intros; apply returns_ret].
    + destruct (String.eqb subtype "success"), (Js.truthy r);
        apply returns_ret.
    + destruct (String.eqb subtype "init"), (Js.truthy sid);
        try apply returns_ret.
      apply returns_bind; [| intros; apply returns_ret].
      destruct (ClaudeService.onSessionId callbacks) as [g|] eqn:E;
        [by apply (Hs g) | apply returns_ret].
  - apply returns_bind; [apply returns_mcp_linear | auto].
Qed.

Ltac returns_services :=
  repeat first
    [ assumption
    | apply returns_ret | apply returns_gets | apply returns_modify
    | apply returns_try_catch; intros ?
    | apply returns_bind; [| intros ?]
    | apply returns_consume_callbacks;
        [ intros ? ? | intros ? ? [= <-] ]
    | match goal with
      | |- returns (if ?b then _ else _) => destruct b
      | |- returns (match ?x with _ => _ end) => destruct x
      end
    | progress cbv beta zeta
    | progress autounfold with services ].

(** A step that is framed by [keeps] preserves any statement about the
    observation; if it never throws, that is known afterwards too. *)
Lemma hoare_frame {A B} (f : World → B) (m : M A) (b : B)
    (Q : Res A → World → Prop) :
  keeps f m → (∀ r w, f w = b → Q r w) →
  hoare (λ w, f w = b) m Q.
Proof. intros H HQ w Hw. apply HQ. by rewrite H. Qed.

Lemma hoare_call {A B} (f : World → B) (m : M A) (b : B) :
  keeps f m → returns m →
  hoare (λ w, f w = b) m (λ r w, returned r ∧ f w = b).
Proof. intros H Hr w Hw. split; [apply Hr | by rewrite H]. Qed.

(** Sequencing after a step that is known to return. *)
Lemma hoare_seq {A C} (P P' : World → Prop) (m : M A) (k : A → M C)
    (Q : Res C → World → Prop) :
  hoare P m (λ r w, returned r ∧ P' w) → (∀ a, hoare P' (k a) Q) →
  hoare P (bind m k) Q.
Proof.
  intros Hm Hk.
  eapply hoare_bind; [exact Hm | | by intros e w [[] _]].
  intros a. eapply hoare_weaken; [apply (Hk a) | by intros w [_ ?] | done].
Qed.

Lemma hoare_bind_call {A B C} (f : World → B) (b : B) (m : M A)
    (k : A → M C) (Q : Res C → World → Prop) :
  keeps f m → returns m → (∀ a, hoare (λ w, f w = b) (k a) Q) →
  hoare (λ w, f w = b) (bind m k) Q.
Proof.
  intros Hkeeps Hreturns Hk.
  eapply hoare_bind; [by apply hoare_call | | by intros e w [[] _]].
  intros a. eapply hoare_weaken; [apply (Hk a) | by intros w [_ ?] | done].
Qed.

(** A request of the agent changes the tracker and nothing else. *)
Lemma mcp_linear_run act w :
  ∃ g, ClaudeService.mcp_linear act w = (Ok tt, with_linear g w).
Proof. by eexists. Qed.

Lemma hoare_mcp_linear {C} act (k : unit → M C) (P : World → Prop) Q :
  (∀ g w, P w → P (with_linear g w)) →
  hoare P (k tt) Q → hoare P (bind (ClaudeService.mcp_linear act) k) Q.
Proof.
  intros HP Hk w Hw. unfold result, exec, bind.
  destruct (mcp_linear_run act w) as [g ->]. apply (Hk _ (HP g w Hw)).
Qed.

Lemma keeps_transaction {B} (f : World → B) (fn : M unit) :
  (∀ g w, f (with_store g w) = f w) → keeps f fn →
  keeps f (SessionStoreService.transaction fn).
Proof.
  intros Hf Hfn w. specialize (Hfn w).
  unfold exec, SessionStoreService.transaction in *.
  destruct (fn w) as [[a|e] w1]; simpl in *; [done|].
  by rewrite Hf.
Qed.

Ltac keeps_services :=
  repeat first
    [ keeps_step
    | apply keeps_consume_callbacks;
        [ intros ? ? | intros ? ? [= <-] | intros ? ]
    | apply keeps_transaction; [ intros ? ?; reflexivity |]
    | progress cbv beta zeta
    | progress autounfold with services ].

(** ** Task Tracker: what each method does to the two maps *)

Section Monitor.

Import MonitorService.

Ltac run_monitor :=
  unfold bind, gets, modify, ret,
    SessionStoreService.completeTask, SessionStoreService.saveSession,
    SessionStoreService.updateSessionId,
    MonitorGateway.broadcastTaskUpdate, MonitorGateway.broadcastLog,
    MonitorGateway.emit;
  simpl.

Lemma refreshStats_keeps_runningTasks : keeps runningTasks refreshStats.
Proof. keeps_services. Qed.

Lemma refreshStats_keeps_taskHistory : keeps taskHistory refreshStats.
Proof. keeps_services. Qed.

Lemma taskCompleted_absent taskId success summary w :
  runningTasks w !! taskId = None →
  taskCompleted taskId success summary w = (Ok tt, w).
Proof. intros H. unfold taskCompleted, bind, gets. simpl. by rewrite H. Qed.

Lemma taskProgress_absent taskId step progress w :
  runningTasks w !! taskId = None →
  taskProgress taskId step progress w = (Ok tt, w).
Proof. intros H. unfold taskProgress, bind, gets. simpl. by rewrite H. Qed.

Lemma taskCompleted_runningTasks taskId success summary w :
  runningTasks (exec (taskCompleted taskId success summary) w)
  = delete taskId (runningTasks w).
Proof.
  destruct (runningTasks w !! taskId) as [info|] eqn:E.
  - unfold exec, taskCompleted, bind at 1, gets at 1. simpl. rewrite E.
    run_monitor. apply refreshStats_keeps_runningTasks.
  - unfold exec. rewrite taskCompleted_absent by done. simpl.
    symmetry. by apply delete_id.
Qed.

Lemma taskCompleted_taskHistory taskId success summary w :
  taskHistory (exec (taskCompleted taskId success summary) w)
  = match runningTasks w !! taskId with
    | Some info =>
        <[taskId := {| th_taskId := taskId;
                       th_identifier := rt_identifier info;
                       th_title := rt_title info;
                       th_sessionId := rt_sessionId info;
                       th_startedAt := rt_startedAt info;
                       th_completedAt := clock w;
                       th_success := success |}]> (taskHistory w)
    | None => taskHistory w
    end.
Proof.
  destruct (runningTasks w !! taskId) as [info|] eqn:E.
  - unfold exec, taskCompleted, bind at 1, gets at 1. simpl. rewrite E.
    run_monitor. apply refreshStats_keeps_taskHistory.
  - unfold exec. by rewrite taskCompleted_absent.
Qed.

Lemma run_op_absent op taskId w :
  starts taskId op = false →
  runningTasks w !! taskId = None →
  runningTasks (exec (run_op op) w) !! taskId = None.
Proof.
  intros Hop Hw. destruct op as [id' ? ?|id' ? ?|id' ?|id' ? ?]; simpl in *.
  - apply bool_decide_eq_false in Hop.
    unfold exec, taskStarted. run_monitor. by rewrite lookup_insert_ne.
  - unfold exec, taskProgress, bind at 1, gets at 1. simpl.
    destruct (runningTasks w !! id') as [i|] eqn:E; [|done].
    run_monitor. rewrite lookup_insert_ne; [done | congruence].
  - unfold exec, taskSessionId, bind at 1, gets at 1. simpl.
    destruct (runningTasks w !! id') as [i|] eqn:E; [|done].
    run_monitor. rewrite lookup_insert_ne; [done | congruence].
  - rewrite taskCompleted_runningTasks.
    by apply lookup_delete_None; right.
Qed.

Lemma run_ops_absent ops taskId w :
  Forall (λ op, starts taskId op = false) ops →
  runningTasks w !! taskId = None →
  runningTasks (run_ops ops w) !! taskId = None.
Proof.
  intros Hops. revert w. induction Hops as [|op ops Hop _ IH]; intros w Hw.
  - done.
  - apply IH. by apply run_op_absent.
Qed.

Lemma run_op_taskHistory op w :
  taskHistory (exec (run_op op) w)
  = match op with
    | op_completed taskId success summary =>
        taskHistory (exec (taskCompleted taskId success summary) w)
    | _ => taskHistory w
    end.
Proof.
  destruct op as [id' ? ?|id' ? ?|id' ?|id' ? ?]; simpl; [| | |done].
  - unfold exec, taskStarted. by run_monitor.
  - unfold exec, taskProgress, bind at 1, gets at 1. simpl.
    destruct (runningTasks w !! id'); [by run_monitor | done].
  - unfold exec, taskSessionId, bind at 1, gets at 1. simpl.
    destruct (runningTasks w !! id'); [by run_monitor | done].
Qed.

Lemma run_ops_history_size ops w :
  size (taskHistory (run_ops ops w))
  ≤ size (taskHistory w) + completions ops.
Proof.
  revert w. induction ops as [|op ops IH]; intros w; simpl.
  - unfold completions. simpl. lia.
  - etrans; [apply IH|]. rewrite run_op_taskHistory.
    unfold completions. simpl.
    destruct op as [id' ? ?|id' ? ?|id' ?|id' ? ?]; simpl; try lia.
    rewrite taskCompleted_taskHistory.
    destruct (runningTasks w !! id'); [|lia].
    rewrite map_size_insert.
    destruct (taskHistory w !! id'); simpl; lia.
Qed.

End Monitor.

(** ** Task Tracker: the claims *)

(** C10.  [taskCompleted] for an id that is not in the running-task map
    changes nothing at all: the whole world, and with it the completed-task
    history, the [task_sessions] row ([completed_at], [success]) and the
    event stream, is left as it was, and the call returns normally. *)
Theorem taskCompleted_unknown_id_noop taskId success summary w :
  runningTasks w !! taskId = None →
  MonitorService.taskCompleted taskId success summary w = (Ok tt, w).
Proof. apply taskCompleted_absent. Qed.

Lemma taskCompleted_unknown_id_noop_witness :
  runningTasks Scenario.initial !! "issue-1" = None
  ∧ MonitorService.taskCompleted "issue-1" true None Scenario.initial
    = (Ok tt, Scenario.initial).
Proof.
  split; [reflexivity|].
  apply (taskCompleted_unknown_id_noop "issue-1" true None Scenario.initial).
  reflexivity.
Defined.

(** C7.  [taskProgress] on an id that is absent from the running-task map
    leaves the world (the map and the event stream included) unchanged, so
    it never inserts an entry; and the id is absent after [taskCompleted]
    for it, whatever Task Tracker calls follow, as long as none of them is
    a [taskStarted] for that id. *)
Theorem progress_after_complete_is_noop taskId step progress :
  (∀ w, runningTasks w !! taskId = None →
        MonitorService.taskProgress taskId step progress w = (Ok tt, w))
  ∧ (∀ success summary ops w,
       Forall (λ op, starts taskId op = false) ops →
       let w' := run_ops ops
                   (exec (MonitorService.taskCompleted taskId success summary) w)
       in MonitorService.taskProgress taskId step progress w' = (Ok tt, w')).
Proof.
  split.
  - intros w. apply taskProgress_absent.
  - intros success summary ops w Hops w'.
    apply taskProgress_absent. apply run_ops_absent; [done|].
    rewrite taskCompleted_runningTasks. apply lookup_delete_eq.
Qed.

Lemma progress_after_complete_is_noop_witness :
  let ops := [ op_progress "issue-1" "late step" 50;
               op_started "issue-2" "X-2" "Check status";
               op_progress "issue-2" "working" 30 ] in
  let w := exec (MonitorService.taskStarted "issue-1" "X-1" "Write changelog")
                Scenario.initial in
  let w' := run_ops ops
              (exec (MonitorService.taskCompleted "issue-1" true None) w) in
  Forall (λ op, starts "issue-1" op = false) ops
  ∧ MonitorService.taskProgress "issue-1" "Using tool: Bash" 35 w' = (Ok tt, w').
Proof.
  intros ops w w'.
  assert (Hops : Forall (λ op, starts "issue-1" op = false) ops)
    by (repeat constructor).
  split; [exact Hops|].
  exact (proj2 (progress_after_complete_is_noop "issue-1" "Using tool: Bash" 35)
               true None ops w Hops).
Defined.

Lemma taskStarted_runningTasks taskId identifier title w :
  is_Some (runningTasks
             (exec (MonitorService.taskStarted taskId identifier title) w)
           !! taskId).
Proof.
  unfold exec, MonitorService.taskStarted, bind, gets, modify,
    SessionStoreService.saveSession, MonitorGateway.broadcastTaskUpdate,
    MonitorGateway.broadcastLog, MonitorGateway.emit. simpl.
  rewrite lookup_insert_eq. by eexists.
Qed.

Lemma run_ops_app ops1 ops2 w :
  run_ops (ops1 ++ ops2) w = run_ops ops2 (run_ops ops1 w).
Proof. apply fold_left_app. Qed.

Lemma churn_S n :
  Scenario.churn (S n)
  = Scenario.churn n ++ [ op_started (pretty n) (pretty n) "task";
                          op_completed (pretty n) true None ].
Proof.
  unfold Scenario.churn. by rewrite seq_S, flat_map_app.
Qed.

Lemma churn_history n :
  let h := taskHistory (run_ops (Scenario.churn n) Scenario.initial) in
  size h = n ∧ ∀ k, is_Some (h !! k) → ∃ i, i < n ∧ k = pretty i.
Proof.
  induction n as [|n [IHsize IHkeys]]; cbv zeta.
  - split; [reflexivity|]. intros k [x Hx]. simpl in Hx.
    by rewrite lookup_empty in Hx.
  - rewrite churn_S, run_ops_app.
    set (w := run_ops (Scenario.churn n) Scenario.initial) in *.
    unfold run_ops at 1. simpl.
    rewrite taskCompleted_taskHistory.
    destruct (taskStarted_runningTasks (pretty n) (pretty n) "task" w)
      as [info ->].
    change (taskHistory (exec (MonitorService.taskStarted (pretty n) (pretty n) "task") w))
      with (taskHistory (exec (run_op (op_started (pretty n) (pretty n) "task")) w)).
    rewrite run_op_taskHistory.
    assert (Hfresh : taskHistory w !! (pretty n : string) = None).
    { destruct (taskHistory w !! (pretty n : string)) eqn:E; [|done].
      destruct (IHkeys (pretty n)) as (i & Hi & Heq); [by eexists|].
      apply (inj pretty) in Heq. lia. }
    split.
    + rewrite map_size_insert_None by done. by rewrite IHsize.
    + intros k Hk. destruct (decide (k = pretty n)) as [->|Hne].
      * exists n. split; [lia | done].
      * rewrite lookup_insert_ne in Hk by done.
        destruct (IHkeys k Hk) as (i & Hi & Heq). exists i. split; [lia|done].
Qed.

(** *** Nothing removes an entry from the history *)

Section History.

Import MonitorService TaskProcessor.

Context (k : string).

Lemma taskCompleted_retains taskId success summary :
  hoare (recorded k) (taskCompleted taskId success summary) (λ _, recorded k).
Proof.
  intros w Hk. unfold recorded. rewrite taskCompleted_taskHistory.
  destruct (runningTasks w !! taskId); [|done].
  destruct (decide (k = taskId)) as [->|Hne].
  - rewrite lookup_insert_eq. by eexists.
  - by rewrite lookup_insert_ne.
Qed.

Lemma run_op_retains op w : recorded k w → recorded k (exec (run_op op) w).
Proof.
  intros Hk. unfold recorded. rewrite run_op_taskHistory.
  destruct op; try done. by apply taskCompleted_retains.
Qed.

Lemma run_ops_retains ops w : recorded k w → recorded k (run_ops ops w).
Proof.
  revert w. induction ops as [|op ops IH]; intros w Hk; [done|].
  apply IH. by apply run_op_retains.
Qed.

(** Along a handler: a step that does not write the history, or the
    completion. *)
Ltac retains_step :=
  first
    [ apply (hoare_keeps taskHistory _ (λ h, is_Some (h !! k)));
      solve [keeps_services]
    | apply taskCompleted_retains
    | eapply hoare_bind with (Q1 := λ _, recorded k); [| intros ? | done]
    | eapply hoare_try_catch with (Q1 := λ _, recorded k);
        [| intros ? | done]
    | match goal with
      | |- hoare _ (if ?b then _ else _) _ => destruct b
      end ].

Lemma do_run_retains r : hoare (recorded k) (do_run r) (λ _, recorded k).
Proof.
  destruct r as [job agent|job agent|job agent]; simpl.
  - unfold handleTask, on_failure. repeat retains_step.
  - unfold handleFeedback, on_failure. repeat retains_step.
  - unfold handleRetry, on_failure. repeat retains_step.
Qed.

Lemma do_runs_retains runs w : recorded k w → recorded k (do_runs runs w).
Proof.
  revert w. induction runs as [|r runs IH]; intros w Hk; [done|].
  apply IH. by apply do_run_retains.
Qed.

End History.

(** C9, as the code has it.  [taskCompleted] on a running task id removes
    the entry from the running-task map and records it, with the outcome,
    in the completed-task history under the same id; the history holds at
    most one entry per task id, so over any sequence of Task Tracker calls
    it grows by at most one entry per [taskCompleted] call.  Nothing ever
    removes an entry from it: a task id that has an entry has one after
    any sequence of Task Tracker calls and after any sequence of runs of
    the job handlers. *)
Theorem taskCompleted_moves_entry :
  (∀ taskId success summary w info,
     runningTasks w !! taskId = Some info →
     let w' := exec (MonitorService.taskCompleted taskId success summary) w in
     runningTasks w' !! taskId = None
     ∧ taskHistory w' !! taskId
       = Some {| th_taskId := taskId;
                 th_identifier := rt_identifier info;
                 th_title := rt_title info;
                 th_sessionId := rt_sessionId info;
                 th_startedAt := rt_startedAt info;
                 th_completedAt := clock w;
                 th_success := success |})
  ∧ (∀ ops w,
       size (taskHistory (run_ops ops w))
       ≤ size (taskHistory w) + completions ops)
  ∧ (∀ ops w k,
       is_Some (taskHistory w !! k) →
       is_Some (taskHistory (run_ops ops w) !! k))
  ∧ (∀ runs w k,
       is_Some (taskHistory w !! k) →
       is_Some (taskHistory (do_runs runs w) !! k)).
Proof.
  split; [|split; [|split]].
  - intros taskId success summary w info Hrun w'. subst w'. split.
    + rewrite taskCompleted_runningTasks. apply lookup_delete_eq.
    + rewrite taskCompleted_taskHistory, Hrun. apply lookup_insert_eq.
  - intros ops w. apply run_ops_history_size.
  - intros ops w k. apply run_ops_retains.
  - intros runs w k. apply do_runs_retains.
Qed.

Lemma taskCompleted_moves_entry_witness :
  let w := exec (MonitorService.taskStarted "issue-1" "X-1" "Write changelog")
                Scenario.initial in
  let w' := exec (MonitorService.taskCompleted "issue-1" false (Some "boom")) w in
  runningTasks w' !! "issue-1" = None
  ∧ th_success <$> taskHistory w' !! "issue-1" = Some false.
Proof.
  intros w w'.
  destruct (proj1 taskCompleted_moves_entry "issue-1" false (Some "boom") w
              {| rt_taskId := "issue-1"; rt_identifier := "X-1";
                 rt_title := "Write changelog"; rt_progress := 0;
                 rt_currentStep := None; rt_steps := [];
                 rt_startedAt := 1000; rt_sessionId := None |})
    as [Hgone Hkept]; [reflexivity|].
  split; [exact Hgone|].
  fold w' in Hkept. rewrite Hkept. reflexivity.
Defined.

(** C9, as stated, fails: no constant bounds the completed-task history.
    Starting and completing [N + 1] tasks with distinct ids leaves
    [N + 1] entries in it. *)
Lemma history_unbounded :
  ¬ ∃ N, ∀ ops, size (taskHistory (run_ops ops Scenario.initial)) ≤ N.
Proof.
  intros [N HN]. specialize (HN (Scenario.churn (S N))).
  pose proof (proj1 (churn_history (S N))) as Hsize. cbv zeta in Hsize.
  rewrite Hsize in HN. lia.
Qed.

(** ** The backoff schedule *)

(** C6.  With the options the pollers give every job ([attempts: 3],
    exponential backoff, [delay: 5000]) the queue waits
    [5000 * 2^(k-1)] ms before attempt [k+1]: a job that fails at every
    attempt is requeued after 5000 ms, then after 10000 ms (15000 ms in
    all), and its third failure is terminal; three steps of the policy are
    enough to reach that end. *)
Theorem backoff_schedule timeout :
  let opts := job_options timeout in
  (∀ k, 1 ≤ k → k < 3 →
        Queue.on_exception opts k
        = Queue.requeue (5000 * 2 ^ N.of_nat (k - 1))%N)
  ∧ Queue.on_exception opts 3 = Queue.terminal_failure
  ∧ (∀ fuel, 3 ≤ fuel →
        Queue.always_failing fuel opts 0
        = [ Queue.requeue 5000%N; Queue.requeue 10000%N;
            Queue.terminal_failure ])
  ∧ foldr N.add 0%N (Queue.delays (Queue.always_failing 3 opts 0)) = 15000%N.
Proof.
  intros opts. split; [|split; [|split]]; [| reflexivity | | reflexivity].
  - intros k Hlo Hhi.
    assert (k = 1 ∨ k = 2) as [-> | ->] by lia; reflexivity.
  - intros fuel Hfuel.
    destruct fuel as [|[|[|fuel]]]; [lia | lia | lia | reflexivity].
Qed.

Lemma backoff_schedule_witness :
  Queue.on_exception (job_options (Some 3000)) 2 = Queue.requeue 10000%N
  ∧ Queue.always_failing 5 (job_options (Some 3000)) 0
    = [ Queue.requeue 5000%N; Queue.requeue 10000%N; Queue.terminal_failure ].
Proof.
  destruct (backoff_schedule (Some 3000)) as (Hdelay & _ & Htrace & _).
  split.
  - apply (Hdelay 2); lia.
  - apply (Htrace 5); lia.
Defined.

(** ** LinearService: requests and frames *)

Section Tracker.

Import LinearService.

Lemma createComment_keeps_requests issueId body :
  keeps status_requests (client_createComment issueId body).
Proof.
  intros w. unfold exec, client_createComment, bind, modify, gets, throw.
  simpl. unfold status_requests.
  destruct (srv_issues (linear w) !! issueId); simpl;
    by rewrite omap_app, app_nil_r.
Qed.

Lemma updateStatus_requests issueId statusName w :
  lin_ready (linear w) = true →
  statusName ∈ lin_stateCache (linear w) →
  let w' := exec (updateStatus issueId statusName) w in
  returned (result (updateStatus issueId statusName) w)
  ∧ status_requests w' = status_requests w ++ [(issueId, statusName)]
  ∧ issue_status issueId w' = ((λ _, statusName) <$> issue_status issueId w)
  ∧ client_view w' = client_view w.
Proof.
  intros Hready Hcached.
  unfold exec, result, updateStatus, ensureClient, getStateId,
    client_updateIssue, bind, try_catch, gets, modify, throw, ret.
  simpl. rewrite Hready. simpl.
  rewrite (bool_decide_eq_true_2 _ Hcached). simpl.
  rewrite (bool_decide_eq_true_2 _ Hcached). simpl.
  unfold status_requests, issue_status, client_view.
  destruct (srv_issues (linear w) !! issueId) as [[t st]|] eqn:E; simpl.
  - rewrite omap_app, lookup_insert_eq. by rewrite Hready.
  - rewrite omap_app, E. by rewrite Hready.
Qed.

Lemma updateStatus_cached issueId st w :
  lin_ready (linear w) = true →
  st ∈ lin_stateCache (linear w) →
  let w' := exec (LinearService.updateStatus issueId st) w in
  returned (result (LinearService.updateStatus issueId st) w)
  ∧ status_requests w' = status_requests w ++ [(issueId, st)]
  ∧ status_view issueId w'
    = ((λ _, st) <$> issue_status issueId w, srv_states (linear w))
  ∧ resolver_view w' = resolver_view w.
Proof.
  intros Hready Hcached w'.
  destruct (updateStatus_requests issueId st w Hready Hcached)
    as (Hr & Hreq & Hst & Hclient).
  assert (Hkeeps : keeps (λ w, (lin_teamId (linear w), srv_states (linear w)))
                     (LinearService.updateStatus issueId st))
    by keeps_services.
  specialize (Hkeeps w). simpl in Hkeeps. injection Hkeeps as Hteam Hstates.
  fold w' in Hreq, Hst, Hclient, Hteam, Hstates.
  injection Hclient as Hready' Hcache'.
  split; [done|]. split; [done|].
  unfold status_view, resolver_view.
  by rewrite Hst, Hstates, Hready', Hteam, Hcache'.
Qed.

(** A request for a status is sent exactly when the client is ready and
    the name can be resolved. *)
Lemma updateStatus_requests_exact issueId st w :
  status_requests (exec (LinearService.updateStatus issueId st) w)
  = status_requests w
    ++ if lin_ready (linear w) && resolvable st w then [(issueId, st)]
       else [].
Proof.
  unfold resolvable, status_requests, exec, LinearService.updateStatus,
    LinearService.ensureClient, LinearService.hasTeamId,
    LinearService.refreshStateCache, LinearService.getStateId,
    LinearService.client_updateIssue, bind, try_catch, gets, modify, throw,
    ret.
  simpl.
  destruct (lin_ready (linear w)) eqn:Hready; simpl;
    [|by rewrite app_nil_r].
  destruct (bool_decide (st ∈ lin_stateCache (linear w))) eqn:Hc;
    simpl; rewrite ?Hc, ?Hready; simpl.
  - destruct (srv_issues (linear w) !! issueId) as [[t s]|]; simpl;
      by rewrite omap_app.
  - destruct (String.eqb (lin_teamId (linear w)) EmptyString) eqn:Ht; simpl;
      rewrite ?Hc; simpl; [by rewrite app_nil_r|].
    destruct (bool_decide (st ∈ srv_states (linear w))) eqn:Hs;
      simpl; [|by rewrite app_nil_r].
    destruct (srv_issues (linear w) !! issueId) as [[t s]|]; simpl;
      by rewrite omap_app.
Qed.

(** Neither the client's requests nor the agent's remove an issue. *)
Lemma insert_keeps_exists {V} (m : gmap string V) i x k :
  is_Some (m !! i) →
  bool_decide (is_Some (<[i := x]> m !! k)) = bool_decide (is_Some (m !! k)).
Proof.
  intros Hi. apply bool_decide_ext.
  destruct (decide (k = i)) as [->|Hne].
  - rewrite lookup_insert_eq. split; [done | by eexists].
  - by rewrite lookup_insert_ne.
Qed.

Lemma updateIssue_keeps_exists issueId state k :
  keeps (λ w, bool_decide (is_Some (srv_issues (linear w) !! k)))
        (client_updateIssue issueId state).
Proof.
  intros w. unfold exec, client_updateIssue, bind, modify, gets, throw.
  simpl. destruct (srv_issues (linear w) !! issueId) as [[t st]|] eqn:E;
    simpl; [|done].
  apply insert_keeps_exists. by rewrite E.
Qed.

Lemma createComment_keeps_exists issueId body k :
  keeps (λ w, bool_decide (is_Some (srv_issues (linear w) !! k)))
        (client_createComment issueId body).
Proof.
  intros w. unfold exec, client_createComment, bind, modify, gets, throw.
  simpl. by destruct (srv_issues (linear w) !! issueId).
Qed.

Lemma mcp_linear_keeps_exists act k :
  keeps (λ w, bool_decide (is_Some (srv_issues (linear w) !! k)))
        (ClaudeService.mcp_linear act).
Proof.
  intros w. destruct act as [issueId body|issueId state];
    unfold exec, ClaudeService.mcp_linear, ClaudeService.tracker_grants,
      modify; simpl.
  - by destruct (srv_issues (linear w) !! issueId).
  - destruct (srv_issues (linear w) !! issueId) as [[t st]|] eqn:E; [|done].
    destruct (bool_decide (state ∈ srv_states (linear w))); [|done]. simpl.
    apply insert_keeps_exists. by rewrite E.
Qed.

Lemma mcp_linear_keeps_requests act :
  keeps status_requests (ClaudeService.mcp_linear act).
Proof.
  intros w. destruct act as [issueId body|issueId state];
    unfold exec, ClaudeService.mcp_linear, ClaudeService.tracker_grants,
      modify, status_requests; simpl.
  - by destruct (srv_issues (linear w) !! issueId).
  - destruct (srv_issues (linear w) !! issueId) as [[t st]|]; [|done].
    by destruct (bool_decide (state ∈ srv_states (linear w))).
Qed.

Lemma mcp_linear_keeps_client act :
  keeps client_view (ClaudeService.mcp_linear act).
Proof.
  intros w. destruct act as [issueId body|issueId state];
    unfold exec, ClaudeService.mcp_linear, ClaudeService.tracker_grants,
      modify, client_view; simpl.
  - by destruct (srv_issues (linear w) !! issueId).
  - destruct (srv_issues (linear w) !! issueId) as [[t st]|]; [|done].
    by destruct (bool_decide (state ∈ srv_states (linear w))).
Qed.

Lemma tracker_service_view issueId w V C :
  tracker_view issueId w = (V, C) →
  service_view issueId w = (V.1, bool_decide (is_Some V.2), C).
Proof.
  intros [= <- <-]. unfold service_view, requests_view, issue_status. simpl.
  do 2 f_equal. apply bool_decide_ext. by rewrite fmap_is_Some.
Qed.

End Tracker.

#[global] Hint Resolve createComment_keeps_requests
  updateIssue_keeps_exists createComment_keeps_exists : keeps.

(** A request of the agent keeps what is read off the fields it does not
    write. *)
Ltac keeps_mcp_linear :=
  first
    [ apply mcp_linear_keeps_exists
    | let w := fresh "w" in
      intros w; unfold exec, ClaudeService.mcp_linear, modify;
      match goal with
      | |- context [ClaudeService.tracker_grants _ ?act] => destruct act
      end;
      unfold ClaudeService.tracker_grants, status_requests, client_view;
      simpl; repeat case_match; reflexivity ].

#[global] Hint Extern 1 (keeps _ (ClaudeService.mcp_linear _)) =>
  keeps_mcp_linear : keeps.

Lemma on_failure_throws {A} task headline (job : Job A) message :
  hoare (λ _, True) (TaskProcessor.on_failure task headline job message)
        (λ r _, ¬ returned r).
Proof.
  unfold TaskProcessor.on_failure.
  eapply hoare_bind with (Q1 := λ _ _, True);
    [by intros ??| |by intros ? ? _ []]. intros _.
  eapply hoare_bind with (Q1 := λ _ _, True);
    [by intros ??| |by intros ? ? _ []]. intros _.
  eapply hoare_bind with (Q1 := λ _ _, True);
    [by intros ??| |by intros ? ? _ []]. intros _.
  apply hoare_throw. auto.
Qed.

(** ** The execute handler routes by the review gate *)

Section Routing.

Import TaskProcessor.

Lemma updateStatus_routes issueId target V C :
  C.1 = true → target ∈ C.2 →
  hoare (λ w, tracker_view issueId w = (V, C))
        (LinearService.updateStatus issueId target)
        (λ _ w, requests_view issueId w = routed V issueId target).
Proof.
  intros Hready Hcached w [= <- <-].
  destruct (updateStatus_requests issueId target w Hready Hcached)
    as (_ & Hreq & Hst & _).
  unfold requests_view, routed. simpl. by rewrite Hreq, Hst.
Qed.

(** The agent may have changed the status of the issue in the meantime;
    the request of the service comes last. *)
Lemma updateStatus_routes_served issueId target V C :
  C.1 = true → target ∈ C.2 →
  hoare (λ w, service_view issueId w
              = (V.1, bool_decide (is_Some V.2), C))
        (LinearService.updateStatus issueId target)
        (λ _ w, requests_view issueId w = routed V issueId target).
Proof.
  intros Hready Hcached w [= Hreq Hex <-].
  destruct (updateStatus_requests issueId target w Hready Hcached)
    as (_ & Hreq' & Hst & _).
  unfold requests_view, routed. simpl. rewrite Hreq', Hst, Hreq. f_equal.
  unfold issue_status. revert Hex.
  by destruct (srv_issues (linear w) !! issueId), V.2 as [st|].
Qed.

Lemma handleTask_hoare job agent V C :
  let task := job_data job in
  let target := if checkNeedsReview task then IN_REVIEW else DONE in
  C.1 = true → target ∈ C.2 →
  hoare (λ w, tracker_view (task_id task) w = (V, C))
        (handleTask job agent)
        (λ r w, returned r →
                requests_view (task_id task) w
                = routed V (task_id task) target).
Proof.
  intros task target Hready Hcached. unfold handleTask. fold task.
  eapply hoare_pre; [|intros w; apply tracker_service_view].
  eapply hoare_bind with
    (Q1 := λ _ w, service_view (task_id task) w
                  = (V.1, bool_decide (is_Some V.2), C));
    [ apply hoare_frame; [unfold service_view; keeps_services | done]
    | intros ? | done ].
  eapply hoare_try_catch with
    (Q1 := λ r w, returned r →
                  requests_view (task_id task) w
                  = routed V (task_id task) target).
  2:{ intros err. eapply hoare_weaken; [apply on_failure_throws|done|].
      intros r w Hr Hok. by destruct Hr. }
  2:{ done. }
  eapply hoare_bind with
    (Q1 := λ _ w, service_view (task_id task) w
                  = (V.1, bool_decide (is_Some V.2), C));
    [ apply hoare_frame; [unfold service_view; keeps_services | done]
    | intros res | ].
  2:{ by intros err w _ []. }
  destruct (ClaudeService.res_success res);
    [|by apply hoare_throw; intros ? _ []].
  eapply hoare_bind with
    (Q1 := λ _ w, requests_view (task_id task) w
                  = routed V (task_id task) target).
  3:{ done. }
  2:{ intros ?. apply hoare_frame; [keeps_services | done]. }
  subst target. destruct (checkNeedsReview task).
  - eapply hoare_bind; [by apply updateStatus_routes_served | intros ? | done].
    eapply hoare_bind with
      (Q1 := λ _ w, requests_view (task_id task) w
                    = routed V (task_id task) IN_REVIEW);
      [apply hoare_frame; [keeps_services | done] | intros ? | done].
    by apply hoare_ret.
  - eapply hoare_bind; [by apply updateStatus_routes_served | intros ? | done].
    by apply hoare_ret.
Qed.

Lemma handleTask_routes job agent w :
  let task := job_data job in
  let target := if checkNeedsReview task then IN_REVIEW else DONE in
  lin_ready (linear w) = true →
  target ∈ lin_stateCache (linear w) →
  result (handleTask job agent) w = Ok tt →
  let w' := exec (handleTask job agent) w in
  status_requests w' = status_requests w ++ [(task_id task, target)]
  ∧ issue_status (task_id task) w'
    = ((λ _, target) <$> issue_status (task_id task) w).
Proof.
  intros task target Hready Hcached Hok w'.
  pose proof (handleTask_hoare job agent
                (requests_view (task_id task) w) (client_view w)
                Hready Hcached w eq_refl) as H.
  rewrite Hok in H. specialize (H I). fold w' in H.
  by injection H.
Qed.

End Routing.

(** C8.  The review gate reads the title and the description only, so two
    work items that agree on both are routed alike; a work item titled
    "Write changelog" needs review whatever its description; one titled
    "Check status" and nothing else does not, and with a description it
    needs review exactly when the description contains a trigger keyword.
    A successful execute job requests the matching transition from the
    tracker: "In Review" when the gate fires, "Done" otherwise. *)
Theorem review_gate_deterministic :
  (∀ t1 t2,
     task_title t1 = task_title t2 →
     task_description t1 = task_description t2 →
     TaskProcessor.checkNeedsReview t1 = TaskProcessor.checkNeedsReview t2)
  ∧ (∀ t, task_title t = "Write changelog" →
          TaskProcessor.checkNeedsReview t = true)
  ∧ (∀ t, task_title t = "Check status" →
          task_description t = None →
          TaskProcessor.checkNeedsReview t = false)
  ∧ (∀ t, task_title t = "Check status" →
          TaskProcessor.checkNeedsReview t
          = existsb
              (λ keyword,
                 Js.includes
                   (Js.toLowerCase
                      (default EmptyString (Js.truthy (task_description t))))
                   keyword)
              TaskProcessor.REVIEW_KEYWORDS)
  ∧ (∀ job agent w,
       let task := job_data job in
       let target :=
         if TaskProcessor.checkNeedsReview task then IN_REVIEW else DONE in
       lin_ready (linear w) = true →
       target ∈ lin_stateCache (linear w) →
       result (TaskProcessor.handleTask job agent) w = Ok tt →
       let w' := exec (TaskProcessor.handleTask job agent) w in
       status_requests w' = status_requests w ++ [(task_id task, target)]
       ∧ issue_status (task_id task) w'
         = ((λ _, target) <$> issue_status (task_id task) w)).
Proof.
  split; [|split; [|split; [|split]]].
  - intros t1 t2 Htitle Hdescription.
    unfold TaskProcessor.checkNeedsReview. by rewrite Htitle, Hdescription.
  - intros t Htitle. unfold TaskProcessor.checkNeedsReview.
    rewrite Htitle. reflexivity.
  - intros t Htitle Hdescription. unfold TaskProcessor.checkNeedsReview.
    rewrite Htitle, Hdescription. reflexivity.
  - intros t Htitle. unfold TaskProcessor.checkNeedsReview.
    rewrite Htitle. reflexivity.
  - apply handleTask_routes.
Qed.

Lemma review_gate_deterministic_witness :
  TaskProcessor.checkNeedsReview Scenario.changelog = true
  ∧ TaskProcessor.checkNeedsReview Scenario.status_check = false
  ∧ issue_status "issue-1"
      (exec (TaskProcessor.handleTask (Scenario.job_of Scenario.changelog)
                                      (Scenario.agent_succeeds "session-1"))
            Scenario.initial)
    = Some IN_REVIEW
  ∧ issue_status "issue-2"
      (exec (TaskProcessor.handleTask (Scenario.job_of Scenario.status_check)
                                      (Scenario.agent_succeeds "session-2"))
            Scenario.initial)
    = Some DONE.
Proof.
  destruct review_gate_deterministic as (_ & Hwrite & Hcheck & _ & Hroute).
  split; [by apply Hwrite|]. split; [by apply Hcheck|]. split.
  - apply (Hroute (Scenario.job_of Scenario.changelog)
                  (Scenario.agent_succeeds "session-1") Scenario.initial).
    + reflexivity.
    + change (IN_REVIEW ∈ Scenario.workflow). repeat constructor.
    + vm_compute. reflexivity.
  - apply (Hroute (Scenario.job_of Scenario.status_check)
                  (Scenario.agent_succeeds "session-2") Scenario.initial).
    + reflexivity.
    + change (DONE ∈ Scenario.workflow). repeat constructor.
    + vm_compute. reflexivity.
Defined.

(** ** The processed-comment ledger *)

Section Ledger.

Import SessionStoreService.

Lemma insert_or_ignore_run commentId taskId w :
  insert_or_ignore commentId taskId w
  = if db_insert_fails (store w) commentId then (Throw "SqliteError", w)
    else (Ok tt,
          with_store (λ s,
            match processed_comments s !! commentId with
            | Some _ => s
            | None =>
                set_processed_comments
                  (<[commentId := {| pc_linear_task_id := taskId;
                                     pc_processed_at := clock w |}]>
                     (processed_comments s)) s
            end) w).
Proof.
  unfold insert_or_ignore, bind, gets, modify, throw.
  by destruct (db_insert_fails (store w) commentId).
Qed.

Lemma for_each_insert ids taskId w :
  let m := for_each ids (λ c, insert_or_ignore c taskId) in
  db_insert_fails (store (exec m w)) = db_insert_fails (store w)
  ∧ match result m w with
    | Ok _ =>
        (∀ c, c ∈ ids → is_Some (ledger (exec m w) !! c))
        ∧ (∀ c, c ∉ ids → ledger (exec m w) !! c = ledger w !! c)
        ∧ (∀ c, is_Some (ledger w !! c) → is_Some (ledger (exec m w) !! c))
    | Throw _ => ∃ c, c ∈ ids ∧ db_insert_fails (store w) c = true
    end.
Proof.
  revert w. induction ids as [|c ids IH]; intros w; simpl.
  - split; [done|]. split; [|done]. intros c Hc. by inversion Hc.
  - unfold exec, result, bind. rewrite insert_or_ignore_run.
    destruct (db_insert_fails (store w) c) eqn:Hc; simpl.
    { split; [done|]. exists c. split; [left|done]. }
    set (w1 := with_store _ w).
    assert (Hf : db_insert_fails (store w1) = db_insert_fails (store w)).
    { subst w1. simpl. by destruct (processed_comments (store w) !! c). }
    assert (Hc1 : is_Some (ledger w1 !! c)).
    { subst w1. unfold ledger. simpl.
      destruct (processed_comments (store w) !! c) eqn:E; simpl.
      - by rewrite E.
      - rewrite lookup_insert_eq. by eexists. }
    assert (Hother : ∀ c', c' ≠ c → ledger w1 !! c' = ledger w !! c').
    { intros c' Hne. subst w1. unfold ledger. simpl.
      destruct (processed_comments (store w) !! c) eqn:E; simpl; [done|].
      by rewrite lookup_insert_ne. }
    assert (Hmono : ∀ c', is_Some (ledger w !! c') → is_Some (ledger w1 !! c')).
    { intros c' Hc'. destruct (decide (c' = c)) as [->|Hne]; [done|].
      by rewrite Hother. }
    destruct (IH w1) as [IHf IHr]. unfold exec, result in IHf, IHr.
    destruct (for_each ids (λ c0, insert_or_ignore c0 taskId) w1)
      as [[[]|e] w2]; simpl in *.
    + split; [congruence|]. destruct IHr as (Hin & Hout & Hkeep).
      split; [|split].
      * intros c' Hc'. apply elem_of_cons in Hc' as [->|Hc']; auto.
      * intros c' Hc'. apply not_elem_of_cons in Hc' as [Hne Hc'].
        rewrite Hout by done. by apply Hother.
      * auto.
    + split; [congruence|]. destruct IHr as (c' & Hc' & Hfail).
      exists c'. split; [by right | congruence].
Qed.

Lemma markCommentsProcessed_ledger commentIds taskId w :
  marked_or_untouched (ledger w) (db_insert_fails (store w)) commentIds
    (ledger (exec (markCommentsProcessed commentIds taskId) w)).
Proof.
  destruct (for_each_insert commentIds taskId w) as [_ Hr].
  unfold markCommentsProcessed, transaction, exec, result in *.
  destruct (for_each commentIds (λ c, insert_or_ignore c taskId) w)
    as [[[]|e] w1]; simpl in *.
  - destruct Hr as (Hin & Hout & _). split; [by right | done].
  - destruct Hr as (c & Hc & Hfail). split; [by left |].
    intros Hnofail. specialize (Hnofail c Hc). congruence.
Qed.

End Ledger.

Section FeedbackLedger.

Import TaskProcessor.

Lemma handleFeedback_ledger_hoare job agent L F :
  hoare (λ w, ledger_view w = (L, F))
        (handleFeedback job agent)
        (λ _ w, marked_or_untouched L F (fb_commentIds (job_data job))
                                    (ledger w)).
Proof.
  set (Good := marked_or_untouched L F (fb_commentIds (job_data job))).
  unfold handleFeedback.
  apply hoare_bind_call;
    [unfold ledger_view, ledger; keeps_services | returns_services | intros ?].
  eapply hoare_try_catch with (Q1 := λ _ w, Good (ledger w)); [| |done].
  2:{ intros err. apply (hoare_keeps ledger _ Good).
      unfold ledger; keeps_services. }
  do 3 (apply hoare_bind_call;
          [ unfold ledger_view, ledger; keeps_services
          | returns_services | intros ?]).
  eapply hoare_bind with (Q1 := λ _ w, Good (ledger w)); [| |done].
  - intros w [= <- <-]. apply markCommentsProcessed_ledger.
  - intros ?. apply (hoare_keeps ledger _ Good).
    unfold ledger; keeps_services.
Qed.

End FeedbackLedger.

(** C4, as the code has it.  The feedback handler marks the supplied
    comment ids after the agent call has returned, whether the run reports
    success or failure.  The marking is one transaction: afterwards either
    every supplied id is in the ledger or the ledger is as it was; and
    when no insert raises, every supplied id is in the ledger and no other
    row has changed. *)
Theorem handleFeedback_marks_all_or_nothing job agent w :
  let ids := fb_commentIds (job_data job) in
  let w' := exec (TaskProcessor.handleFeedback job agent) w in
  (ledger w' = ledger w ∨ ∀ c, c ∈ ids → is_Some (ledger w' !! c))
  ∧ ((∀ c, c ∈ ids → db_insert_fails (store w) c = false) →
     (∀ c, c ∈ ids → is_Some (ledger w' !! c))
     ∧ (∀ c, c ∉ ids → ledger w' !! c = ledger w !! c)).
Proof.
  intros ids w'.
  exact (handleFeedback_ledger_hoare job agent (ledger w)
           (db_insert_fails (store w)) w eq_refl).
Qed.

Lemma handleFeedback_marks_all_or_nothing_witness :
  let m := TaskProcessor.handleFeedback
             (Scenario.job_of Scenario.looks_good)
             (Scenario.agent_reports_failure "session-3") in
  (∀ c, c ∈ ["comment-h1"] → db_insert_fails (store Scenario.reviewing) c = false)
  ∧ (∀ c, c ∈ ["comment-h1"] →
          is_Some (ledger (exec m Scenario.reviewing) !! c)).
Proof.
  intros m.
  assert (Hno : ∀ c, c ∈ ["comment-h1"] →
                     db_insert_fails (store Scenario.reviewing) c = false)
    by reflexivity.
  split; [exact Hno|].
  exact (proj1 (proj2 (handleFeedback_marks_all_or_nothing
                         (Scenario.job_of Scenario.looks_good)
                         (Scenario.agent_reports_failure "session-3")
                         Scenario.reviewing) Hno)).
Defined.

(** C4, as stated, fails: the agent run reports failure (its text carries
    the failure marker), the handler throws, and the comment of the job is
    in the ledger all the same. *)
Lemma failed_feedback_marks_comments :
  let m := TaskProcessor.handleFeedback
             (Scenario.job_of Scenario.looks_good)
             (Scenario.agent_reports_failure "session-3") in
  result m Scenario.reviewing = Throw "❌ The build failed"
  ∧ ledger Scenario.reviewing !! "comment-h1" = None
  ∧ pc_linear_task_id <$> ledger (exec m Scenario.reviewing) !! "comment-h1"
    = Some "issue-2".
Proof. evaluate. Qed.

(** ** The stored session id *)

Section Session.

Import SessionStoreService MonitorGateway MonitorService ClaudeService
  TaskProcessor.

Lemma latest_cons s0 s l : latest s0 (s :: l) = latest (Some s) l.
Proof.
  unfold latest. destruct l as [|x l]; [done|].
  change (last (s :: x :: l)) with (last (x :: l)).
  destruct (last (x :: l)) eqn:E; [done|].
  by apply last_None in E.
Qed.

Lemma latest_app s0 l1 l2 : latest (latest s0 l1) l2 = latest s0 (l1 ++ l2).
Proof.
  revert s0. induction l1 as [|s l1 IH]; intros s0; simpl; [done|].
  by rewrite !latest_cons, IH.
Qed.

Lemma completeTask_keeps_session taskId taskId' success :
  keeps (storedSessionId taskId) (completeTask taskId' success).
Proof.
  intros w. unfold exec, completeTask, modify, storedSessionId. simpl.
  rewrite lookup_alter. case_decide; [|done]. subst.
  by destruct (task_sessions (store w) !! taskId).
Qed.

Lemma markCommentsProcessed_keeps_session taskId commentIds taskId' :
  keeps (storedSessionId taskId) (markCommentsProcessed commentIds taskId').
Proof.
  intros w. unfold storedSessionId. f_equal. f_equal.
  change (task_sessions (store (exec (markCommentsProcessed commentIds taskId') w)))
    with ((λ w, task_sessions (store w))
            (exec (markCommentsProcessed commentIds taskId') w)).
  revert w. change (keeps (λ w, task_sessions (store w))
                          (markCommentsProcessed commentIds taskId')).
  unfold markCommentsProcessed.
  intros w. unfold exec, transaction.
  assert (H : keeps (λ w, task_sessions (store w))
                (for_each commentIds (λ c, insert_or_ignore c taskId')))
    by keeps_services.
  specialize (H w). unfold exec in H.
  by destruct (for_each commentIds _ w) as [[a|e] w1].
Qed.

#[local] Hint Resolve completeTask_keeps_session
  markCommentsProcessed_keeps_session : keeps.

Lemma taskStarted_session taskId identifier title s0 :
  hoare (λ w, storedSessionId taskId w = s0)
        (taskStarted taskId identifier title)
        (λ r w, returned r ∧ storedSessionId taskId w = s0 ∧ tracked taskId w).
Proof.
  intros w Hw. unfold result, exec, taskStarted, tracked, storedSessionId in *.
  unfold bind, gets, modify, saveSession, broadcastTaskUpdate, broadcastLog,
    emit. simpl.
  rewrite !lookup_insert_eq. split; [done|]. split; [|by split; eexists].
  by destruct (task_sessions (store w) !! taskId).
Qed.

Lemma taskProgress_session taskId step progress s0 :
  hoare (λ w, storedSessionId taskId w = s0 ∧ tracked taskId w)
        (taskProgress taskId step progress)
        (λ r w, returned r ∧ storedSessionId taskId w = s0 ∧ tracked taskId w).
Proof.
  intros w [Hw [[info Hrun] Hrow]]. unfold result, exec.
  destruct (taskProgress taskId step progress w) as [r w'] eqn:E.
  unfold taskProgress, bind, gets, modify, ret, broadcastTaskUpdate,
    broadcastLog, emit in E.
  simpl in E. rewrite Hrun in E. injection E as <- <-.
  unfold tracked, storedSessionId in *. simpl.
  rewrite lookup_insert_eq.
  split; [done|]. split; [done|]. split; [by eexists | done].
Qed.

Lemma taskSessionId_session taskId sessionId s0 :
  hoare (λ w, storedSessionId taskId w = s0 ∧ tracked taskId w)
        (taskSessionId taskId sessionId)
        (λ r w, returned r ∧ storedSessionId taskId w = Some sessionId
                ∧ tracked taskId w).
Proof.
  intros w [_ [[info Hrun] [row Hrow]]]. unfold result, exec.
  destruct (taskSessionId taskId sessionId w) as [r w'] eqn:E.
  unfold taskSessionId, bind, gets, modify, ret, updateSessionId,
    broadcastTaskUpdate, broadcastLog, emit in E.
  simpl in E. rewrite Hrun in E. injection E as <- <-.
  unfold tracked, storedSessionId in *. simpl.
  rewrite lookup_insert_eq, lookup_alter, decide_True by done.
  rewrite Hrow. simpl.
  split; [done|]. split; [done|]. split; by eexists.
Qed.

Section SessionStream.

Context (taskId : string).

Lemma process_blocks_session content v s0 :
  hoare (session_is taskId s0)
        (process_blocks content (monitor_handlers taskId) v)
        (λ r w, returned r ∧ session_is taskId s0 w).
Proof.
  revert v. induction content as [|[text|name|] content IH]; intros v; simpl.
  - by apply hoare_ret.
  - eapply hoare_seq; [|intros ?; apply IH]. by apply hoare_ret.
  - eapply hoare_seq; [|intros ?; apply IH].
    eapply hoare_seq; [apply taskProgress_session|].
    intros ?. by apply hoare_ret.
  - apply IH.
Qed.

Lemma processMessage_session msg v s0 :
  hoare (session_is taskId s0)
        (processMessage msg (monitor_handlers taskId) v)
        (λ r w, returned r
                ∧ session_is taskId
                    (from_option Some s0 (captured_by msg)) w).
Proof.
  destruct msg as [[content|]|subtype r|subtype sid| | |]; simpl;
    try by apply hoare_ret.
  - apply process_blocks_session.
  - destruct (String.eqb subtype "success"), (Js.truthy r);
      by apply hoare_ret.
  - destruct (String.eqb subtype "init"), (Js.truthy sid) as [s|]; simpl;
      try by apply hoare_ret.
    eapply hoare_seq; [apply taskSessionId_session|].
    intros ?. by apply hoare_ret.
Qed.

Lemma consume_session stream v s0 :
  hoare (session_is taskId s0)
        (consume stream (monitor_handlers taskId) v)
        (λ r w, returned r
                ∧ session_is taskId
                    (latest s0 (omap captured_by (omap yielded stream))) w).
Proof.
  revert v s0.
  induction stream as [|[msg|act] stream IH]; intros v s0; simpl.
  - by apply hoare_ret.
  - eapply hoare_seq; [apply processMessage_session|]. intros v'.
    eapply hoare_post; [apply IH|]. intros r w [Hr HJ]. split; [done|].
    destruct (captured_by msg) as [s|]; simpl in *; [|done].
    by rewrite latest_cons.
  - apply hoare_mcp_linear; [done | apply IH].
Qed.

Lemma run_query_session agent s0 :
  hoare (session_is taskId s0) (run_query agent (monitor_callbacks taskId))
        (λ r w, (returned r → tracked taskId w)
                ∧ storedSessionId taskId w
                  = latest s0 (omap captured_by (run_messages agent))).
Proof.
  unfold run_query.
  eapply hoare_seq; [apply consume_session|]. intros v.
  destruct (run_throws agent);
    [apply hoare_throw | apply hoare_ret]; by intros w [? ?].
Qed.

End SessionStream.

(** After the stream, nothing writes the session id any more. *)
Ltac session_frame taskId :=
  apply (hoare_frame (storedSessionId taskId));
  [keeps_services | done].

Lemma executeTask_session task agent s0 :
  hoare (λ w, storedSessionId (task_id task) w = s0 ∧ tracked (task_id task) w)
        (executeTask task (monitor_callbacks (task_id task)) agent)
        (λ _ w, storedSessionId (task_id task) w
                = latest s0 (omap captured_by (run_messages agent))).
Proof.
  unfold executeTask.
  apply hoare_gets_bind; intros authMethod.
  apply hoare_gets_bind; intros startTime.
  eapply hoare_try_catch with
    (Q1 := λ _ w, storedSessionId (task_id task) w
                  = latest s0 (omap captured_by (run_messages agent)));
    [| |done].
  2:{ intros err. session_frame (task_id task). }
  eapply hoare_seq; [apply taskProgress_session|]. intros ?.
  eapply hoare_bind with
    (Q1 := λ _ w, storedSessionId (task_id task) w
                  = latest s0 (omap captured_by (run_messages agent)));
    [| |done].
  - eapply hoare_post; [apply run_query_session|]. by intros r w [_ ?].
  - intros v. session_frame (task_id task).
Qed.

Lemma executeFeedback_session task text sessionId0 agent s0 :
  hoare (λ w, storedSessionId (task_id task) w = s0 ∧ tracked (task_id task) w)
        (executeFeedback task text sessionId0
           (monitor_callbacks (task_id task)) agent)
        (λ _ w, storedSessionId (task_id task) w
                = latest s0 (omap captured_by (run_messages agent))).
Proof.
  unfold executeFeedback.
  apply hoare_gets_bind; intros authMethod.
  apply hoare_gets_bind; intros startTime.
  eapply hoare_try_catch with
    (Q1 := λ _ w, storedSessionId (task_id task) w
                  = latest s0 (omap captured_by (run_messages agent)));
    [| |done].
  2:{ intros err. session_frame (task_id task). }
  eapply hoare_seq; [apply taskProgress_session|]. intros ?.
  eapply hoare_bind with
    (Q1 := λ _ w, storedSessionId (task_id task) w
                  = latest s0 (omap captured_by (run_messages agent)));
    [| |done].
  - eapply hoare_post; [apply run_query_session|]. by intros r w [_ ?].
  - intros v. session_frame (task_id task).
Qed.

(** A framed call between [taskStarted] and the agent call. *)
Lemma hoare_tracked_call {A C} taskId s0 (m : M A) (k : A → M C) Q :
  keeps (λ w, (storedSessionId taskId w, runningTasks w,
               task_sessions (store w))) m →
  returns m →
  (∀ a, hoare (λ w, storedSessionId taskId w = s0 ∧ tracked taskId w) (k a) Q) →
  hoare (λ w, storedSessionId taskId w = s0 ∧ tracked taskId w) (bind m k) Q.
Proof.
  intros Hkeeps Hreturns Hk. eapply hoare_seq; [|exact Hk].
  intros w [Hs [Hrun Hrow]]. specialize (Hkeeps w). simpl in Hkeeps.
  injection Hkeeps as Hs' Hrun' Hrow'.
  split; [apply Hreturns|]. unfold tracked. by rewrite Hs', Hrun', Hrow'.
Qed.

Lemma do_run_session r s0 :
  hoare (λ w, storedSessionId (task_id (run_task r)) w = s0)
        (do_run r)
        (λ _ w, storedSessionId (task_id (run_task r)) w
                = latest s0 (captured r)).
Proof.
  destruct r as [job agent|job agent|job agent]; unfold captured; simpl.
  - unfold handleTask.
    eapply hoare_seq; [apply taskStarted_session|]. intros ?.
    eapply hoare_try_catch with
      (Q1 := λ _ w, storedSessionId (task_id (job_data job)) w
                    = latest s0 (omap captured_by (run_messages agent)));
      [| |done].
    2:{ intros err. session_frame (task_id (job_data job)). }
    eapply hoare_bind; [apply executeTask_session| |done].
    intros res. session_frame (task_id (job_data job)).
  - unfold handleFeedback.
    eapply hoare_seq; [apply taskStarted_session|]. intros ?.
    eapply hoare_try_catch with
      (Q1 := λ _ w, storedSessionId (task_id (fb_task (job_data job))) w
                    = latest s0 (omap captured_by (run_messages agent)));
      [| |done].
    2:{ intros err. session_frame (task_id (fb_task (job_data job))). }
    do 2 (apply hoare_tracked_call;
            [keeps_services | returns_services | intros ?]).
    eapply hoare_bind; [apply executeFeedback_session| |done].
    intros res. session_frame (task_id (fb_task (job_data job))).
  - unfold handleRetry.
    eapply hoare_seq; [apply taskStarted_session|]. intros ?.
    eapply hoare_try_catch with
      (Q1 := λ _ w, storedSessionId (task_id (rj_task (job_data job))) w
                    = latest s0 (omap captured_by (run_messages agent)));
      [| |done].
    2:{ intros err. session_frame (task_id (rj_task (job_data job))). }
    apply hoare_tracked_call;
      [keeps_services | returns_services | intros ?].
    eapply hoare_bind; [apply executeFeedback_session| |done].
    intros res. session_frame (task_id (rj_task (job_data job))).
Qed.

Lemma do_runs_session taskId runs w :
  Forall (λ r, task_id (run_task r) = taskId) runs →
  storedSessionId taskId (do_runs runs w)
  = latest (storedSessionId taskId w) (concat (captured <$> runs)).
Proof.
  intros Hruns. revert w.
  induction Hruns as [|r runs Hr _ IH]; intros w; simpl; [done|].
  rewrite IH, <- latest_app. f_equal.
  rewrite <- Hr. by apply do_run_session.
Qed.

End Session.

Lemma concat_captured_nil runs :
  Forall (λ r, captured r = []) runs → concat (captured <$> runs) = [].
Proof.
  induction 1 as [|r runs Hr _ IH]; [done|].
  rewrite fmap_cons. simpl. by rewrite Hr.
Qed.

(** C5.  After any sequence of execute, feedback and retry runs on one
    work item, the [session_id] stored for it is the last id captured
    during the sequence, or the id stored before when no run captured one:
    if [r] is the most recent run that captured an id, the stored id is
    the last one [r] captured, whatever the runs before it captured.
    [taskStarted], which upserts the row at the start of every run, leaves
    the stored id as it is. *)
Theorem session_id_most_recent taskId :
  (∀ runs w,
     Forall (λ r, task_id (run_task r) = taskId) runs →
     storedSessionId taskId (do_runs runs w)
     = latest (storedSessionId taskId w) (concat (captured <$> runs)))
  ∧ (∀ earlier r later w s,
       Forall (λ r, task_id (run_task r) = taskId) (earlier ++ r :: later) →
       last (captured r) = Some s →
       Forall (λ r, captured r = []) later →
       storedSessionId taskId (do_runs (earlier ++ r :: later) w) = Some s)
  ∧ (∀ identifier title w,
       storedSessionId taskId
         (exec (MonitorService.taskStarted taskId identifier title) w)
       = storedSessionId taskId w).
Proof.
  split; [|split].
  - intros runs w. apply do_runs_session.
  - intros earlier r later w s Hruns Hlast Hlater.
    rewrite do_runs_session by done.
    rewrite fmap_app, concat_app, fmap_cons.
    change (concat (captured r :: (captured <$> later)))
      with (captured r ++ concat (captured <$> later)).
    rewrite (concat_captured_nil later Hlater), app_nil_r.
    rewrite <- latest_app. unfold latest at 1. by rewrite Hlast.
  - intros identifier title w.
    by destruct (taskStarted_session taskId identifier title
                   (storedSessionId taskId w) w eq_refl) as (_ & ? & _).
Qed.

Lemma session_id_most_recent_witness :
  let silent : ClaudeService.AgentRun :=
    {| ClaudeService.run_stream := [];
       ClaudeService.run_throws := Some "network down" |} in
  let runs :=
    [ run_execute (Scenario.job_of Scenario.changelog)
                  (Scenario.agent_succeeds "session-1");
      run_feedback
        (Scenario.job_of
           {| fb_task := Scenario.changelog; fb_feedback := "shorter please";
              fb_commentIds := ["comment-9"]; fb_sessionId := "session-1" |})
        (Scenario.agent_succeeds "session-2");
      run_retry
        (Scenario.job_of
           {| rj_task := Scenario.changelog; rj_sessionId := "session-2" |})
        silent ] in
  Forall (λ r, task_id (run_task r) = "issue-1") runs
  ∧ storedSessionId "issue-1" (do_runs runs Scenario.initial)
    = Some "session-2".
Proof.
  intros silent runs.
  assert (Hruns : Forall (λ r, task_id (run_task r) = "issue-1") runs)
    by (repeat constructor).
  split; [exact Hruns|].
  exact (proj1 (session_id_most_recent "issue-1") runs Scenario.initial Hruns).
Defined.

(** ** Claiming work items *)

(** [lockTask] grants the claim on every existing issue, whatever status
    the issue is in: it never reads the status it overwrites. *)
Lemma lockTask_grants issueId w :
  lin_ready (linear w) = true →
  IN_PROGRESS ∈ lin_stateCache (linear w) →
  is_Some (srv_issues (linear w) !! issueId) →
  result (LinearService.lockTask issueId) w = Ok true
  ∧ issue_status issueId (exec (LinearService.lockTask issueId) w)
    = Some IN_PROGRESS.
Proof.
  intros Hready Hcached [[t st] Hissue].
  unfold result, exec, issue_status, LinearService.lockTask,
    LinearService.ensureClient, LinearService.getStateId,
    LinearService.client_updateIssue, bind, try_catch, gets, modify, throw,
    ret.
  simpl. rewrite Hready. simpl.
  rewrite (bool_decide_eq_true_2 _ Hcached). simpl.
  rewrite Hissue. simpl. by rewrite lookup_insert_eq.
Qed.

(** C1 fails on the code.  Two claim attempts on the same ready work item
    both succeed, in whichever order the tracker serves them; and two
    pollers that both fetched the ready items before either claimed them
    each enqueue an execute job for every item. *)
Lemma lock_granted_twice :
  let claim := LinearService.lockTask "issue-1" in
  let fetched := [Scenario.changelog; Scenario.status_check] in
  let pass := for_each fetched TaskPollerService.claim_and_enqueue in
  issue_status "issue-1" Scenario.initial = Some TODO
  ∧ result claim Scenario.initial = Ok true
  ∧ result claim (exec claim Scenario.initial) = Ok true
  ∧ result (LinearService.getTasksByStatus TODO) Scenario.initial = Ok fetched
  ∧ fst <$> queue (exec pass (exec pass Scenario.initial))
    = [ execute_job Scenario.changelog; execute_job Scenario.status_check;
        execute_job Scenario.changelog; execute_job Scenario.status_check ].
Proof. evaluate. Qed.

(** ** Collecting feedback *)

(** The filter of the review poller keeps exactly the comments that do not
    start with the marker and whose id is not in the ledger. *)
Lemma newUserComments_exact comments L c :
  c ∈ ReviewPollerService.newUserComments comments L
  ↔ c ∈ comments
    ∧ Js.startsWith (comment_body c) ReviewPollerService.system_marker = false
    ∧ L !! comment_id c = None.
Proof.
  unfold ReviewPollerService.newUserComments.
  rewrite !list_elem_of_In, filter_In, andb_true_iff, !negb_true_iff.
  rewrite bool_decide_eq_false, <- eq_None_not_Some. tauto.
Qed.

(** C3 fails on the code.  The work item "Write changelog" is claimed,
    executed with success and sent to review.  Every comment it carries
    was posted by the services themselves through [addComment], none
    starts with the marker, and the next review poll merges all of them
    into a feedback job. *)
Lemma review_poll_merges_system_comments :
  let w1 := exec TaskPollerService.pollTasks Scenario.initial in
  let w2 := exec (TaskProcessor.handleTask
                    (Scenario.job_of Scenario.changelog)
                    (Scenario.agent_succeeds "session-1")) w1 in
  let w3 := exec ReviewPollerService.pollReviewTasks w2 in
  issue_status "issue-1" w2 = Some IN_REVIEW
  ∧ comment_bodies "issue-1" w2 = posted_by_system "issue-1" w2
  ∧ length (posted_by_system "issue-1" w2) = 3
  ∧ forallb (λ body,
       negb (Js.startsWith body ReviewPollerService.system_marker))
       (posted_by_system "issue-1" w2) = true
  ∧ fst <$> last (queue w3)
    = Some (feedback_job
              {| fb_task := Scenario.changelog;
                 fb_feedback :=
                   Js.join (nl +:+ nl +:+ "---" +:+ nl +:+ nl)
                           (posted_by_system "issue-1" w2);
                 fb_commentIds := ["comment-0"; "comment-2"; "comment-3"];
                 fb_sessionId := "session-1" |}).
Proof. evaluate. Qed.

(** ** The review gate, keyword by keyword *)

Section Gate.

Import TaskProcessor.

Lemma toLowerCase_app a b :
  Js.toLowerCase (a +:+ b) = Js.toLowerCase a +:+ Js.toLowerCase b.
Proof. induction a as [|c a IH]; simpl; [done | by rewrite IH]. Qed.

Lemma prefix_before_space kw a b :
  spaceless kw →
  String.prefix kw (a +:+ " " +:+ b) = String.prefix kw a.
Proof.
  revert a. induction kw as [|c kw IH]; intros a Hkw; [by destruct a|].
  assert (Hc : c ≠ " "%char) by (apply Hkw; simpl; left).
  assert (Hrest : spaceless kw) by (intros c' Hc'; apply Hkw; simpl; by right).
  destruct a as [|c' a]; simpl.
  - destruct (ascii_dec c " "); [done | done].
  - destruct (ascii_dec c c'); [by apply IH | done].
Qed.

Lemma includes_cons c s sub :
  Js.includes (String c s) sub
  = String.prefix sub (String c s) || Js.includes s sub.
Proof. reflexivity. Qed.

Lemma includes_across_space kw a b :
  spaceless kw → kw ≠ EmptyString →
  Js.includes (a +:+ " " +:+ b) kw = Js.includes a kw || Js.includes b kw.
Proof.
  intros Hkw Hne. induction a as [|c a IH].
  - change (EmptyString +:+ " " +:+ b) with (String " " b).
    rewrite includes_cons.
    assert (H : String.prefix kw (String " " b) = String.prefix kw EmptyString)
      by apply (prefix_before_space kw EmptyString b Hkw).
    rewrite H. by destruct kw.
  - change (String c a +:+ " " +:+ b) with (String c (a +:+ " " +:+ b)).
    rewrite !includes_cons, IH.
    assert (H : String.prefix kw (String c (a +:+ " " +:+ b))
                = String.prefix kw (String c a))
      by apply (prefix_before_space kw (String c a) b Hkw).
    rewrite H. by rewrite orb_assoc.
Qed.

Lemma includes_prefix kw s : String.prefix kw s = true → Js.includes s kw = true.
Proof.
  intros H. destruct s as [|c s].
  - change (Js.includes EmptyString kw)
      with (String.prefix kw EmptyString || false). by rewrite H.
  - rewrite includes_cons. by rewrite H.
Qed.

Lemma prefix_self kw post : String.prefix kw (kw +:+ post) = true.
Proof.
  induction kw as [|c kw IH]; simpl; [by destruct post|].
  by destruct (ascii_dec c c).
Qed.

Lemma includes_infix pre kw post :
  Js.includes (pre +:+ kw +:+ post) kw = true.
Proof.
  induction pre as [|c pre IH].
  - change (EmptyString +:+ kw +:+ post) with (kw +:+ post).
    apply includes_prefix, prefix_self.
  - change (String c pre +:+ kw +:+ post) with (String c (pre +:+ kw +:+ post)).
    rewrite includes_cons, IH. apply orb_true_r.
Qed.

Lemma REVIEW_KEYWORDS_spaceless kw :
  kw ∈ REVIEW_KEYWORDS → spaceless kw ∧ kw ≠ EmptyString.
Proof.
  intros Hkw. unfold REVIEW_KEYWORDS in Hkw.
  repeat (apply elem_of_cons in Hkw as [->|Hkw];
          [split; [|done]; intros c Hc; simpl in Hc;
           repeat (apply elem_of_cons in Hc as [->|Hc]; [done|]);
           by apply elem_of_nil in Hc |]).
  by apply elem_of_nil in Hkw.
Qed.

Lemma existsb_ext_in {A} (f g : A → bool) (l : list A) :
  (∀ x, x ∈ l → f x = g x) → existsb f l = existsb g l.
Proof.
  induction l as [|x l IH]; intros H; simpl; [done|].
  rewrite (H x) by left. rewrite IH; [done|]. intros y Hy. apply H. by right.
Qed.

(** X1.  The review gate looks at the title and at the description
    separately: a work item needs review exactly when one of the trigger
    keywords occurs in the lower-cased title or in the lower-cased
    description; no keyword is ever matched across the blank that joins
    the two.  In particular a keyword inside a longer word, in any letter
    case, triggers review. *)
Theorem review_gate_by_field task :
  let title := Js.toLowerCase (task_title task) in
  let description :=
    Js.toLowerCase (default EmptyString (Js.truthy (task_description task))) in
  checkNeedsReview task
  = existsb (λ kw, Js.includes title kw || Js.includes description kw)
            REVIEW_KEYWORDS
  ∧ (∀ kw pre post,
       kw ∈ REVIEW_KEYWORDS →
       title = pre +:+ kw +:+ post ∨ description = pre +:+ kw +:+ post →
       checkNeedsReview task = true).
Proof.
  intros title description.
  assert (Hgate : checkNeedsReview task
    = existsb (λ kw, Js.includes title kw || Js.includes description kw)
              REVIEW_KEYWORDS).
  { unfold checkNeedsReview. rewrite !toLowerCase_app.
    change (Js.toLowerCase " ") with " ". fold title description.
    apply existsb_ext_in. intros kw Hkw.
    destruct (REVIEW_KEYWORDS_spaceless kw Hkw) as [Hs Hne].
    by apply includes_across_space. }
  split; [exact Hgate|].
  intros kw pre post Hkw Hin. rewrite Hgate.
  apply existsb_exists. exists kw. split; [by apply list_elem_of_In|].
  destruct Hin as [-> | ->]; rewrite includes_infix; [done|].
  apply orb_true_r.
Qed.

Lemma review_gate_by_field_witness :
  let task := {| task_id := "issue-3"; task_identifier := "X-3";
                 task_title := "Decode Message"; task_description := None;
                 task_priority := None; task_createdAt := 300 |} in
  "code" ∈ REVIEW_KEYWORDS ∧ checkNeedsReview task = true.
Proof.
  intros task.
  assert (Hkw : "code" ∈ REVIEW_KEYWORDS) by (repeat constructor).
  split; [exact Hkw|].
  apply (proj2 (review_gate_by_field task) "code" "de" " message" Hkw).
  left. reflexivity.
Defined.

End Gate.

(** ** LinearService: when a request is granted *)

Section Granted.

Import LinearService.

Ltac run_linear :=
  unfold result, exec, updateStatus, lockTask, addComment, ensureClient,
    hasTeamId, refreshStateCache, getStateId, client_updateIssue,
    client_createComment, bind, try_catch, gets, modify, throw, ret;
  simpl.

Lemma issue_exists_Some issueId w x :
  srv_issues (linear w) !! issueId = Some x → issue_exists issueId w = true.
Proof. intros E. unfold issue_exists. by rewrite E, bool_decide_eq_true_2. Qed.

Lemma issue_exists_None issueId w :
  srv_issues (linear w) !! issueId = None → issue_exists issueId w = false.
Proof.
  intros E. unfold issue_exists. rewrite E, bool_decide_eq_false_2; [done|].
  by intros [? ?].
Qed.

Lemma issue_status_insert i issueId t st issues :
  snd <$> (<[issueId := (t, st)]> issues : gmap string (LinearTask * TaskStatus)) !! i
  = if bool_decide (i = issueId) then Some st else snd <$> issues !! i.
Proof.
  case_bool_decide as H.
  - subst. by rewrite lookup_insert_eq.
  - by rewrite lookup_insert_ne.
Qed.

(** X2.  [updateStatus] never throws, and it answers [true] exactly when the
    client is ready, the status name can be resolved (from the cache, or
    from the team's states after a refresh) and the issue exists.  When it
    answers [true] the issue has the requested status and no other issue
    has changed; when it answers [false] no issue has changed. *)
Theorem updateStatus_granted issueId statusName w :
  let granted :=
    lin_ready (linear w) && resolvable statusName w
    && issue_exists issueId w in
  result (updateStatus issueId statusName) w = Ok granted
  ∧ ∀ i, issue_status i (exec (updateStatus issueId statusName) w)
         = if granted && bool_decide (i = issueId) then Some statusName
           else issue_status i w.
Proof.
  unfold resolvable, issue_status. run_linear.
  destruct (lin_ready (linear w)) eqn:Hready; simpl; [|done].
  destruct (bool_decide (statusName ∈ lin_stateCache (linear w))) eqn:Hc;
    simpl; rewrite ?Hc, ?Hready; simpl.
  - destruct (srv_issues (linear w) !! issueId) as [[t st]|] eqn:E; simpl.
    + rewrite (issue_exists_Some _ _ _ E). split; [done|]. intros i.
      by rewrite (issue_status_insert i issueId t statusName).
    + by rewrite (issue_exists_None _ _ E).
  - destruct (String.eqb (lin_teamId (linear w)) EmptyString) eqn:Ht; simpl;
      rewrite ?Hc; simpl; [done|].
    destruct (bool_decide (statusName ∈ srv_states (linear w))) eqn:Hs;
      simpl; [|done].
    destruct (srv_issues (linear w) !! issueId) as [[t st]|] eqn:E; simpl.
    + rewrite (issue_exists_Some _ _ _ E). split; [done|]. intros i.
      by rewrite (issue_status_insert i issueId t statusName).
    + by rewrite (issue_exists_None _ _ E).
Qed.

(** X3.  On a client that is ready, so that [ensureClient] has nothing to
    initialise, [lockTask] never throws and never refreshes the state
    cache: it answers [true] exactly when the In Progress state is already
    in the cache and the issue exists, whatever the team's states are and
    whatever status the issue has.  The issue is then In Progress and no
    other issue has changed. *)
Theorem lockTask_needs_cached_state issueId w :
  lin_ready (linear w) = true →
  let granted :=
    bool_decide (IN_PROGRESS ∈ lin_stateCache (linear w))
    && issue_exists issueId w in
  result (lockTask issueId) w = Ok granted
  ∧ lin_stateCache (linear (exec (lockTask issueId) w))
    = lin_stateCache (linear w)
  ∧ ∀ i, issue_status i (exec (lockTask issueId) w)
         = if granted && bool_decide (i = issueId) then Some IN_PROGRESS
           else issue_status i w.
Proof.
  intros Hready. unfold issue_status. run_linear. rewrite Hready. simpl.
  destruct (bool_decide (IN_PROGRESS ∈ lin_stateCache (linear w))) eqn:Hc;
    simpl; [|done].
  destruct (srv_issues (linear w) !! issueId) as [[t st]|] eqn:E; simpl.
  - rewrite (issue_exists_Some _ _ _ E). split; [done|]. split; [done|].
    intros i. by rewrite (issue_status_insert i issueId t IN_PROGRESS).
  - by rewrite (issue_exists_None _ _ E).
Qed.

Lemma lockTask_needs_cached_state_witness :
  lin_ready (linear Scenario.initial) = true
  ∧ result (lockTask "issue-1") Scenario.initial = Ok true
  ∧ issue_status "issue-1" (exec (lockTask "issue-1") Scenario.initial)
    = Some IN_PROGRESS.
Proof.
  split; [reflexivity|].
  destruct (lockTask_needs_cached_state "issue-1" Scenario.initial eq_refl)
    as (Hgranted & _ & Hstatus).
  split; [exact Hgranted | exact (Hstatus "issue-1")].
Defined.

(** X4.  [addComment] never throws, and it answers [true] exactly when the
    client is ready and the issue exists.  It then has appended one comment
    with the given content to the issue; the comments of the other issues,
    and of this one when the answer is [false], are as before. *)
Theorem addComment_appends issueId content w :
  let granted := lin_ready (linear w) && issue_exists issueId w in
  result (addComment issueId content) w = Ok granted
  ∧ ∀ i, comment_bodies i (exec (addComment issueId content) w)
         = if granted && bool_decide (i = issueId)
           then comment_bodies i w ++ [content]
           else comment_bodies i w.
Proof.
  unfold comment_bodies. run_linear.
  destruct (lin_ready (linear w)) eqn:Hready; simpl; [|done].
  destruct (srv_issues (linear w) !! issueId) as [x|] eqn:E; simpl.
  - rewrite (issue_exists_Some _ _ _ E). split; [done|]. intros i. simpl.
    case_bool_decide as H.
    + subst. rewrite lookup_insert_eq. simpl. by rewrite fmap_app.
    + by rewrite lookup_insert_ne.
  - by rewrite (issue_exists_None _ _ E).
Qed.

End Granted.

(** ** LinearService: what the queries return *)

Section Queries.

Import LinearService.

Lemma tasks_with_status (issues : gmap string (LinearTask * TaskStatus)) st t :
  t ∈ (fst ∘ snd) <$> filter (λ kv, snd (snd kv) = st) (map_to_list issues)
  ↔ ∃ k, issues !! k = Some (t, st).
Proof.
  rewrite list_elem_of_fmap. split.
  - intros [[k [t' st']] [-> Hin]]. apply list_elem_of_filter in Hin as [Hst Hin].
    simpl in *. subst. exists k. by apply elem_of_map_to_list.
  - intros [k Hk]. exists (k, (t, st)). split; [done|].
    apply list_elem_of_filter. split; [done|]. by apply elem_of_map_to_list.
Qed.

(** X5.  [getTasksByStatus] never throws and changes no issue.  The work
    items it returns are exactly those the tracker holds in the requested
    status, provided the client is ready, a team is set and the status name
    is known to the cache or to the team; otherwise it returns none. *)
Theorem getTasksByStatus_exact statusName w :
  ∃ tasks,
    result (getTasksByStatus statusName) w = Ok tasks
    ∧ srv_issues (linear (exec (getTasksByStatus statusName) w))
      = srv_issues (linear w)
    ∧ ∀ t, t ∈ tasks
           ↔ lin_ready (linear w) = true
             ∧ lin_teamId (linear w) ≠ EmptyString
             ∧ (statusName ∈ lin_stateCache (linear w)
                ∨ statusName ∈ srv_states (linear w))
             ∧ ∃ k, srv_issues (linear w) !! k = Some (t, statusName).
Proof.
  unfold result, exec, getTasksByStatus, ensureClient, hasTeamId,
    refreshStateCache, getStateId, bind, gets, modify, ret.
  simpl.
  destruct (lin_ready (linear w)) eqn:Hready; simpl;
    [|eexists; split; [done|]; split; [done|]; intros t;
      rewrite elem_of_nil; intuition congruence].
  destruct (String.eqb (lin_teamId (linear w)) EmptyString) eqn:Ht; simpl.
  { apply String.eqb_eq in Ht. eexists. split; [done|]. split; [done|].
    intros t. rewrite elem_of_nil. intuition congruence. }
  apply String.eqb_neq in Ht.
  destruct (bool_decide (statusName ∈ lin_stateCache (linear w))) eqn:Hc;
    simpl; rewrite ?Hc, ?Hready; simpl.
  - apply bool_decide_eq_true_1 in Hc. eexists. split; [done|].
    split; [done|]. intros t. rewrite tasks_with_status. intuition congruence.
  - apply bool_decide_eq_false_1 in Hc.
    destruct (String.eqb (lin_teamId (linear w)) EmptyString) eqn:Ht';
      [by apply String.eqb_eq in Ht'|]. simpl.
    destruct (bool_decide (statusName ∈ srv_states (linear w))) eqn:Hs; simpl.
    + apply bool_decide_eq_true_1 in Hs. eexists. split; [done|].
      split; [done|]. intros t. rewrite tasks_with_status. intuition congruence.
    + apply bool_decide_eq_false_1 in Hs. eexists. split; [done|].
      split; [done|]. intros t. rewrite elem_of_nil. intuition congruence.
Qed.

Lemma insert_desc_perm c l : insert_desc c l ≡ₚ c :: l.
Proof.
  induction l as [|d l IH]; simpl; [done|].
  destruct (comment_createdAt d <=? comment_createdAt c)%nat; [done|].
  rewrite IH. apply Permutation_swap.
Qed.

Lemma sort_desc_perm l : sort_desc l ≡ₚ l.
Proof.
  induction l as [|c l IH]; simpl; [done|].
  unfold sort_desc in *. simpl. by rewrite insert_desc_perm, IH.
Qed.

Lemma insert_desc_sorted c l :
  StronglySorted newer_first l → StronglySorted newer_first (insert_desc c l).
Proof.
  induction 1 as [|d l Hl IH Hd]; simpl.
  - repeat constructor.
  - destruct (comment_createdAt d <=? comment_createdAt c)%nat eqn:E.
    + apply Nat.leb_le in E. constructor; [by constructor|].
      constructor; [done|]. eapply Forall_impl; [exact Hd|].
      unfold newer_first. intros x Hx. simpl in Hx. lia.
    + apply Nat.leb_gt in E. constructor; [done|].
      rewrite insert_desc_perm. constructor; [|done].
      unfold newer_first. lia.
Qed.

Lemma sort_desc_sorted l : StronglySorted newer_first (sort_desc l).
Proof.
  induction l as [|c l IH]; [constructor|].
  by apply insert_desc_sorted.
Qed.

(** X6.  [getComments] never throws and changes nothing.  For an issue that
    exists, with a ready client, it returns the issue's comments, each one
    once, ordered from the newest to the oldest; otherwise it returns
    none. *)
Theorem getComments_newest_first issueId w :
  ∃ comments,
    getComments issueId w = (Ok comments, w)
    ∧ StronglySorted newer_first comments
    ∧ comments
      ≡ₚ (if lin_ready (linear w) && issue_exists issueId w
          then default [] (srv_comments (linear w) !! issueId) else []).
Proof.
  unfold getComments, ensureClient, bind, gets, ret. simpl.
  destruct (lin_ready (linear w)); simpl;
    [|eexists; split; [done|]; split; [constructor | done]].
  destruct (srv_issues (linear w) !! issueId) as [x|] eqn:E.
  - rewrite (issue_exists_Some _ _ _ E). eexists. split; [done|].
    split; [apply sort_desc_sorted | apply sort_desc_perm].
  - rewrite (issue_exists_None _ _ E). eexists. split; [done|].
    split; [constructor | done].
Qed.

End Queries.

(** ** Every handler run settles its work item *)

Section Settles.

Import MonitorService ClaudeService TaskProcessor.

Context (taskId : string).

Lemma tracked_keeps {A} (m : M A) :
  keeps (λ w, (runningTasks w, task_sessions (store w))) m →
  hoare (tracked taskId) m (λ _, tracked taskId).
Proof.
  intros H w Hw. specialize (H w). simpl in H. injection H as H1 H2.
  unfold tracked. by rewrite H1, H2.
Qed.

Lemma taskProgress_tracked step progress :
  hoare (tracked taskId) (taskProgress taskId step progress)
        (λ _, tracked taskId).
Proof.
  intros w Hw.
  by destruct (taskProgress_session taskId step progress
                 (storedSessionId taskId w) w (conj eq_refl Hw))
    as (_ & _ & H).
Qed.

Lemma consume_tracked msgs v :
  hoare (tracked taskId) (consume msgs (monitor_handlers taskId) v)
        (λ r w, returned r ∧ tracked taskId w).
Proof.
  intros w Hw.
  by destruct (consume_session taskId msgs v (storedSessionId taskId w) w
                 (conj eq_refl Hw)) as (? & _ & ?).
Qed.

Lemma run_query_tracked agent :
  hoare (tracked taskId) (run_query agent (monitor_callbacks taskId))
        (λ _, tracked taskId).
Proof.
  unfold run_query.
  eapply hoare_seq; [apply consume_tracked|]. intros v.
  destruct (run_throws agent); [by apply hoare_throw | by apply hoare_ret].
Qed.

(** [tracked] along a computation, step by step. *)
Ltac tracked_step :=
  first
    [ apply taskProgress_tracked
    | apply run_query_tracked
    | apply hoare_ret; intros ? H; exact H
    | apply hoare_throw; intros ? H; exact H
    | apply hoare_gets_bind; intros ?
    | eapply hoare_bind with (Q1 := λ _, tracked taskId);
        [ | intros ? | intros ? ? H; exact H ]
    | eapply hoare_try_catch with (Q1 := λ _, tracked taskId);
        [ | intros ? | intros ? ? H; exact H ]
    | match goal with
      | |- hoare _ (if ?b then _ else _) _ => destruct b
      | |- hoare _ (match ?x with _ => _ end) _ => destruct x
      end
    | apply tracked_keeps; solve [keeps_services] ].

Lemma executeTask_tracked task agent :
  hoare (tracked taskId) (executeTask task (monitor_callbacks taskId) agent)
        (λ _, tracked taskId).
Proof.
  unfold executeTask. simpl.
  repeat tracked_step.
Qed.

Lemma executeFeedback_tracked task text sessionId0 agent :
  hoare (tracked taskId)
        (executeFeedback task text sessionId0 (monitor_callbacks taskId) agent)
        (λ _, tracked taskId).
Proof. unfold executeFeedback. simpl. repeat tracked_step. Qed.

Lemma taskCompleted_settles success summary :
  hoare (tracked taskId) (taskCompleted taskId success summary)
        (λ r w, returned r ∧ settled taskId success w).
Proof.
  intros w [[info Hrun] [row Hrow]]. unfold settled.
  rewrite taskCompleted_runningTasks, taskCompleted_taskHistory, Hrun.
  rewrite lookup_delete_eq, lookup_insert_eq. simpl.
  assert (Hret : returns (taskCompleted taskId success summary))
    by returns_services.
  split; [apply Hret|]. split; [done|]. split; [done|].
  unfold exec, taskCompleted, bind at 1, gets at 1. simpl. rewrite Hrun.
  assert (Hkeep : keeps (λ w, task_sessions (store w)) refreshStats)
    by keeps_services.
  unfold bind, gets, modify, ret, SessionStoreService.completeTask,
    MonitorGateway.broadcastTaskUpdate, MonitorGateway.broadcastLog,
    MonitorGateway.emit. simpl.
  match goal with
  | |- context [refreshStats ?x] => specialize (Hkeep x)
  end.
  unfold exec in Hkeep. cbv beta in Hkeep. rewrite Hkeep. simpl.
  by rewrite lookup_alter_eq, Hrow.
Qed.

Lemma tracked_call {A} (m : M A) :
  keeps (λ w, (runningTasks w, task_sessions (store w))) m → returns m →
  hoare (tracked taskId) m (λ r w, returned r ∧ tracked taskId w).
Proof.
  intros Hkeep Hret w Hw. split; [apply Hret | by apply tracked_keeps].
Qed.

Lemma on_failure_settles {A} task headline (job : Job A) message :
  task_id task = taskId →
  hoare (tracked taskId) (on_failure task headline job message)
        (λ r w, succeeded r = false ∧ settled taskId false w).
Proof.
  intros Hid. unfold on_failure. rewrite Hid.
  eapply hoare_seq;
    [apply tracked_call; [keeps_services | returns_services] | intros ?].
  eapply hoare_seq;
    [apply tracked_call; [keeps_services | returns_services] | intros ?].
  eapply hoare_seq; [apply taskCompleted_settles | intros ?].
  by apply hoare_throw.
Qed.

Lemma taskStarted_tracked identifier title :
  hoare (λ _, True) (taskStarted taskId identifier title)
        (λ r w, returned r ∧ tracked taskId w).
Proof.
  intros w _.
  by destruct (taskStarted_session taskId identifier title
                 (storedSessionId taskId w) w eq_refl) as (? & _ & ?).
Qed.


Lemma markCommentsProcessed_keeps_rows commentIds taskId' :
  keeps (λ w, (runningTasks w, task_sessions (store w)))
        (SessionStoreService.markCommentsProcessed commentIds taskId').
Proof.
  intros w.
  unfold exec, SessionStoreService.markCommentsProcessed,
    SessionStoreService.transaction.
  assert (H : keeps (λ w, (runningTasks w, task_sessions (store w)))
                (for_each commentIds
                   (λ c, SessionStoreService.insert_or_ignore c taskId')))
    by keeps_services.
  specialize (H w). unfold exec in H.
  destruct (for_each commentIds _ w) as [[a|e] w1]; simpl in *; [done|].
  by injection H as -> _.
Qed.

Lemma handler_settles {A} task headline (job : Job A) identifier title
    (body : M unit) :
  task_id task = taskId →
  hoare (tracked taskId) body (body_outcome taskId) →
  hoare (λ _, True)
        (taskStarted taskId identifier title >>
         try_catch body (on_failure task headline job))
        (λ r w, settled taskId (succeeded r) w).
Proof.
  intros Hid Hbody.
  eapply hoare_seq; [apply taskStarted_tracked | intros ?].
  eapply hoare_try_catch; [exact Hbody | intros e | intros ? ? H; exact H].
  eapply hoare_post; [by apply on_failure_settles|].
  intros r w [Hr Hw]. by rewrite Hr.
Qed.

Lemma completes_after {A} (m : M A) :
  keeps (λ w, (runningTasks w, task_sessions (store w))) m → returns m →
  hoare (tracked taskId) (m >> taskCompleted taskId true None)
        (body_outcome taskId).
Proof.
  intros Hkeep Hret.
  eapply hoare_seq; [by apply tracked_call | intros ?].
  eapply hoare_post; [apply taskCompleted_settles|].
  intros [[]|e] w [Hr Hw]; [done | by destruct Hr].
Qed.

Ltac finish_body :=
  match goal with
  | |- hoare _ (if res_success ?res then _ else _) _ =>
      destruct (res_success res);
      [ apply completes_after; [keeps_services | returns_services]
      | by apply hoare_throw ]
  end.

Lemma handleTask_settles job agent :
  task_id (job_data job) = taskId →
  hoare (λ _, True) (handleTask job agent)
        (λ r w, settled taskId (succeeded r) w).
Proof.
  intros Hid. unfold handleTask. rewrite Hid.
  apply handler_settles; [done|].
  eapply hoare_bind with (Q1 := λ _, tracked taskId);
    [apply executeTask_tracked | intros res | intros ? ? H; exact H].
  finish_body.
Qed.

Lemma handleFeedback_settles job agent :
  task_id (fb_task (job_data job)) = taskId →
  hoare (λ _, True) (handleFeedback job agent)
        (λ r w, settled taskId (succeeded r) w).
Proof.
  intros Hid. unfold handleFeedback. rewrite Hid.
  apply handler_settles; [done|].
  do 2 (eapply hoare_seq;
          [apply tracked_call; [keeps_services | returns_services]
          | intros ?]).
  eapply hoare_bind with (Q1 := λ _, tracked taskId);
    [apply executeFeedback_tracked | intros res | intros ? ? H; exact H].
  eapply hoare_bind with (Q1 := λ _, tracked taskId);
    [ apply tracked_keeps, markCommentsProcessed_keeps_rows
    | intros ? | intros ? ? H; exact H].
  destruct (res_success res); [|by apply hoare_throw].
  eapply hoare_post; [apply taskCompleted_settles|].
  intros [[]|e] w [Hr Hw]; [done | by destruct Hr].
Qed.

Lemma handleRetry_settles job agent :
  task_id (rj_task (job_data job)) = taskId →
  hoare (λ _, True) (handleRetry job agent)
        (λ r w, settled taskId (succeeded r) w).
Proof.
  intros Hid. unfold handleRetry. rewrite Hid.
  apply handler_settles; [done|].
  eapply hoare_seq;
    [apply tracked_call; [keeps_services | returns_services] | intros ?].
  eapply hoare_bind with (Q1 := λ _, tracked taskId);
    [apply executeFeedback_tracked | intros res | intros ? ? H; exact H].
  finish_body.
Qed.

End Settles.

Lemma do_run_settled r :
  hoare (λ _, True) (do_run r)
        (λ res w, settled (task_id (run_task r)) (succeeded res) w).
Proof.
  destruct r as [job agent|job agent|job agent]; simpl.
  - by apply handleTask_settles.
  - by apply handleFeedback_settles.
  - by apply handleRetry_settles.
Qed.

(** X7.  Whatever the agent does and whatever the tracker answers, a run of
    one of the three job handlers ends with its work item out of the
    running-task map, and with the outcome recorded twice, in the history
    and in the [task_sessions] row: success when the handler returned,
    failure when it threw. *)
Theorem every_run_settles r w :
  settled (task_id (run_task r)) (succeeded (result (do_run r) w))
          (exec (do_run r) w).
Proof. by apply do_run_settled. Qed.

(** ** What the agent call reports *)

Section Outcome.

Import MonitorService ClaudeService TaskProcessor.

Context (taskId : string).

Lemma string_app_assoc (a b c : string) : (a +:+ b) +:+ c = a +:+ b +:+ c.
Proof.
  induction a as [|x a IH]; [reflexivity|].
  change (String x ((a +:+ b) +:+ c) = String x (a +:+ b +:+ c)).
  by rewrite IH.
Qed.

Lemma string_app_nil_r (a : string) : a +:+ EmptyString = a.
Proof.
  induction a as [|x a IH]; [reflexivity|].
  change (String x (a +:+ EmptyString) = String x a). by rewrite IH.
Qed.

Lemma taskProgress_returns step progress :
  returns (taskProgress taskId step progress).
Proof. returns_services. Qed.

Lemma hoare_returns {A} (m : M A) :
  returns m → hoare (λ _, True) m (λ r _, returned r ∧ True).
Proof. intros H w _. split; [apply H | done]. Qed.

Lemma hoare_pure_bind {A C} (m : M A) (k : A → M C) (R : Res A → Prop)
    (Q : Res C → World → Prop) :
  hoare (λ _, True) m (λ r _, R r) →
  (∀ a, R (Ok a) → hoare (λ _, True) (k a) Q) →
  (∀ e, R (Throw e) → ∀ w, Q (Throw e) w) →
  hoare (λ _, True) (bind m k) Q.
Proof.
  intros Hm Hk Hthrow.
  eapply hoare_bind; [exact Hm | intros a w Ha; by apply Hk | ].
  intros e w He. by apply Hthrow.
Qed.

Lemma wrote_trans text1 text2 v v1 r :
  responseText v1 = responseText v +:+ text1 →
  wrote text2 v1 r → wrote (text1 +:+ text2) v r.
Proof.
  intros H1 (v' & -> & H2). exists v'. split; [done|].
  by rewrite H2, H1, string_app_assoc.
Qed.

Lemma process_blocks_text content v :
  hoare (λ _, True) (process_blocks content (monitor_handlers taskId) v)
        (λ r _, wrote (message_text (assistant (Some content))) v r).
Proof.
  revert v. induction content as [|[text|name|] content IH]; intros v.
  - apply hoare_ret. intros w _. exists v. simpl.
    by rewrite string_app_nil_r.
  - change (process_blocks (text_block text :: content)
              (monitor_handlers taskId) v)
      with (process_blocks content (monitor_handlers taskId)
              {| responseText := responseText v +:+ text;
                 lastProgress := lastProgress v;
                 toolCallCount := toolCallCount v;
                 sessionId := sessionId v |}).
    eapply hoare_post; [apply IH|]. intros r w Hr.
    eapply (wrote_trans text _ v); [|exact Hr]. reflexivity.
  - cbn [process_blocks monitor_handlers stream_handlers onToolUse].
    eapply hoare_pure_bind with
      (R := λ r, ∃ v1, r = Ok v1 ∧ responseText v1 = responseText v).
    + eapply hoare_seq; [apply hoare_returns, taskProgress_returns|].
      intros ?. apply hoare_ret. intros w _. by eexists.
    + intros v1 (? & [= <-] & Hv1).
      eapply hoare_post; [apply IH|]. intros r w Hr.
      apply (wrote_trans EmptyString _ v v1 r); [|exact Hr].
      by rewrite string_app_nil_r.
    + by intros e (? & [=] & _).
  - apply IH.
Qed.

Lemma taskSessionId_returns sessionId :
  returns (taskSessionId taskId sessionId).
Proof. returns_services. Qed.

Lemma wrote_nothing v : wrote EmptyString v (Ok v).
Proof. exists v. by rewrite string_app_nil_r. Qed.

Lemma processMessage_text msg v :
  hoare (λ _, True) (processMessage msg (monitor_handlers taskId) v)
        (λ r _, wrote (message_text msg) v r).
Proof.
  destruct msg as [[content|]|subtype r|subtype sid| | |];
    try (apply hoare_ret; intros; apply wrote_nothing).
  - apply process_blocks_text.
  - cbn [processMessage message_text].
    destruct (String.eqb subtype "success"), (Js.truthy r);
      apply hoare_ret; intros; apply wrote_nothing.
  - cbn [processMessage message_text].
    destruct (String.eqb subtype "init"), (Js.truthy sid) as [s|];
      try (apply hoare_ret; intros; apply wrote_nothing).
    cbn [monitor_handlers stream_handlers h_onSessionId monitor_callbacks
           onSessionId].
    eapply hoare_seq; [apply hoare_returns, taskSessionId_returns|].
    intros ?. apply hoare_ret. intros. exists
      {| responseText := responseText v; lastProgress := lastProgress v;
         toolCallCount := toolCallCount v; sessionId := Some s |}.
    split; [done|]. simpl. by rewrite string_app_nil_r.
Qed.

Lemma consume_text stream v :
  hoare (λ _, True) (consume stream (monitor_handlers taskId) v)
        (λ r _, wrote (transcript (omap yielded stream)) v r).
Proof.
  revert v. induction stream as [|[msg|act] stream IH]; intros v.
  - apply hoare_ret. intros. apply wrote_nothing.
  - cbn [consume transcript foldr omap list_omap yielded].
    eapply hoare_pure_bind; [apply processMessage_text | |].
    + intros v1 (? & [= <-] & Hv1).
      eapply hoare_post; [apply IH|]. intros r w Hr.
      by apply (wrote_trans _ _ v v1 r).
    + by intros e (? & [=] & _).
  - cbn [consume omap list_omap yielded].
    apply hoare_mcp_linear; [done | apply IH].
Qed.

Lemma run_query_outcome agent :
  hoare (λ _, True) (run_query agent (monitor_callbacks taskId))
        (λ r _, match run_throws agent with
                | Some e => r = Throw e
                | None =>
                    ∃ v, r = Ok v
                         ∧ responseText v = transcript (run_messages agent)
                end).
Proof.
  unfold run_query.
  eapply hoare_pure_bind; [apply consume_text | |].
  - intros v (? & [= <-] & Hv).
    destruct (run_throws agent);
      [by apply hoare_throw | apply hoare_ret; intros; by exists v].
  - by intros e (? & [=] & _).
Qed.

Lemma result_gets_bind {A C} (g : World → A) (k : A → M C) w :
  result (bind (gets g) k) w = result (k (g w)) w.
Proof. reflexivity. Qed.

Lemma addComment_returns issueId content :
  returns (LinearService.addComment issueId content).
Proof. returns_services. Qed.

(** A call that returns, then the rest. *)
Ltac after_call :=
  eapply hoare_seq;
  [ apply hoare_returns;
    first [ apply taskProgress_returns | apply addComment_returns
          | apply returns_gets | returns_services ]
  | intros ? ].

Lemma reports_failure authMethod agent e sid :
  run_throws agent = Some e →
  reports authMethod agent
    (Ok {| res_success := false;
           res_error := Some (describe_error authMethod e);
           res_sessionId := sid |}).
Proof.
  intros He. eexists. split; [done|].
  unfold reported_success, reported_error. by rewrite He.
Qed.

Lemma reports_text authMethod agent (failed : bool) sid :
  run_throws agent = None →
  hasError (transcript (run_messages agent)) = failed →
  reports authMethod agent
    (Ok {| res_success := negb failed;
           res_error := if failed
                        then Some (transcript (run_messages agent))
                        else None;
           res_sessionId := sid |}).
Proof.
  intros He Hf. eexists. split; [done|].
  unfold reported_success, reported_error. by rewrite He, Hf.
Qed.

Lemma hoare_result {A} (m : M A) (R : Res A → Prop) w :
  hoare (λ _, True) m (λ r _, R r) → R (result m w).
Proof. intros H. by apply H. Qed.

Lemma hoare_assume {A} (φ : Prop) (m : M A) Q :
  (φ → hoare (λ _, True) m Q) → hoare (λ _, φ) m Q.
Proof. intros H w Hφ. by apply H. Qed.

(** The [try] block around the stream, then the [catch] block. *)
Ltac agent_call authMethod agent :=
  eapply hoare_try_catch with (Q1 := λ r _, attempt authMethod agent r);
  [ after_call;
    eapply hoare_pure_bind; [apply run_query_outcome | |];
    [ intros v Hv; destruct (run_throws agent) eqn:Hthrows;
      [ discriminate Hv | destruct Hv as (? & [= <-] & Hv) ];
      rewrite Hv;
      destruct (hasError (transcript (run_messages agent))) eqn:Hfailed;
      [ after_call; apply hoare_ret; intros; unfold attempt;
        by apply (reports_text authMethod agent true)
      | apply hoare_gets_bind; intros now; cbv zeta;
        after_call; after_call; apply hoare_ret; intros; unfold attempt;
        by apply (reports_text authMethod agent false) ]
    | intros e He ?; unfold attempt; destruct (run_throws agent);
      [ by injection He as -> | by destruct He as (? & [=] & _) ] ]
  | intros e; apply hoare_assume; intros He; cbv zeta;
    after_call; after_call; apply hoare_ret; intros; unfold attempt;
    by apply reports_failure
  | by intros ? ? ? ].

Lemma executeTask_reports task agent w :
  reports (cfg_authMethod w) agent
    (result (executeTask task (monitor_callbacks taskId) agent) w).
Proof.
  unfold executeTask. rewrite !result_gets_bind.
  generalize (cfg_authMethod w) (clock w). intros authMethod startTime.
  apply hoare_result. agent_call authMethod agent.
Qed.

Lemma executeFeedback_reports task text sessionId0 agent w :
  reports (cfg_authMethod w) agent
    (result (executeFeedback task text sessionId0
               (monitor_callbacks taskId) agent) w).
Proof.
  unfold executeFeedback. rewrite !result_gets_bind.
  generalize (cfg_authMethod w) (clock w). intros authMethod startTime.
  apply hoare_result. agent_call authMethod agent.
Qed.


Lemma executeFeedback_hoare task text sessionId0 agent :
  hoare (λ _, True)
        (executeFeedback task text sessionId0 (monitor_callbacks taskId) agent)
        (λ r _, ∃ authMethod, reports authMethod agent r).
Proof. intros w _. eexists. apply executeFeedback_reports. Qed.


End Outcome.

(** X8.  The agent call never throws.  It reports success exactly when the
    agent's stream ended without an exception and the text the agent wrote
    does not contain both of the markers [❌] and [failed]; the error it
    reports is the exception's message, explained when it looks like an
    authentication failure, or else the whole text.  This holds for a
    first execution and for a resumed one alike. *)
Theorem agent_call_reports task agent w :
  let callbacks := TaskProcessor.monitor_callbacks (task_id task) in
  reports (cfg_authMethod w) agent
    (result (ClaudeService.executeTask task callbacks agent) w)
  ∧ ∀ feedback sessionId0,
      reports (cfg_authMethod w) agent
        (result (ClaudeService.executeFeedback task feedback sessionId0
                   callbacks agent) w).
Proof.
  split; [apply executeTask_reports|].
  intros. apply executeFeedback_reports.
Qed.

(** ** A job succeeds when the agent reports success *)

Section JobOutcome.

Import MonitorService ClaudeService TaskProcessor.





(** *** The feedback job also needs its comments marked *)

Lemma for_each_insert_result ids taskId w :
  let m := for_each ids
             (λ c, SessionStoreService.insert_or_ignore c taskId) in
  succeeded (result m w) = inserts_accepted (db_insert_fails (store w)) ids
  ∧ db_insert_fails (store (exec m w)) = db_insert_fails (store w).
Proof.
  revert w. induction ids as [|c ids IH]; intros w; [done|].
  cbn [for_each inserts_accepted forallb]. unfold result, exec, bind.
  rewrite insert_or_ignore_run.
  destruct (db_insert_fails (store w) c) eqn:Hc; [done|]. simpl.
  match goal with
  | |- context [for_each ids _ ?w1] =>
      destruct (IH w1) as [Hr He];
      assert (HF : db_insert_fails (store w1) = db_insert_fails (store w))
        by (simpl; by destruct (processed_comments (store w) !! c))
  end.
  unfold result, exec in Hr, He. rewrite HF in Hr, He. done.
Qed.

Lemma markCommentsProcessed_result ids taskId F :
  hoare (λ w, db_insert_fails (store w) = F)
        (SessionStoreService.markCommentsProcessed ids taskId)
        (λ r w, succeeded r = inserts_accepted F ids
                ∧ db_insert_fails (store w) = F).
Proof.
  intros w <-. destruct (for_each_insert_result ids taskId w) as [Hr He].
  unfold SessionStoreService.markCommentsProcessed,
    SessionStoreService.transaction, result, exec in *.
  destruct (for_each ids _ w) as [[a|e] w1]; simpl in *; done.
Qed.

Lemma handleFeedback_outcome job agent F :
  hoare (λ w, db_insert_fails (store w) = F) (handleFeedback job agent)
        (λ r _, succeeded r
                = reported_success agent
                  && inserts_accepted F (fb_commentIds (job_data job))).
Proof.
  unfold handleFeedback. set (task := fb_task (job_data job)).
  set (expected := reported_success agent && _).
  apply (hoare_bind_call (λ w, db_insert_fails (store w)));
    [keeps_services | returns_services | intros ?].
  eapply hoare_try_catch with (Q1 := λ r _, succeeded r = expected);
    [ | intros e; apply hoare_assume; intros He;
        eapply hoare_post; [apply on_failure_throws|];
        by intros [?|?] ? ?
      | done ].
  do 2 (apply (hoare_bind_call (λ w, db_insert_fails (store w)));
          [keeps_services | returns_services | intros ?]).
  eapply hoare_bind with
    (Q1 := λ r w, (∃ authMethod, reports authMethod agent r)
                  ∧ db_insert_fails (store w) = F).
  - intros w Hw. split; [by apply executeFeedback_hoare|].
    rewrite <- Hw.
    assert (H : keeps (λ w, db_insert_fails (store w))
                  (executeFeedback task (fb_feedback (job_data job))
                     (fb_sessionId (job_data job))
                     (monitor_callbacks (task_id task)) agent))
      by keeps_services.
    apply H.
  - intros res.
    eapply hoare_bind with
      (Q1 := λ r _, (∃ authMethod, reports authMethod agent (Ok res))
                    ∧ succeeded r
                      = inserts_accepted F (fb_commentIds (job_data job))).
    + intros w [Hres Hw]. split; [done|].
      by apply markCommentsProcessed_result.
    + intros ? w [(authMethod & res' & [= <-] & Hres & _) Hmarked].
      subst expected. rewrite <- Hmarked, <- Hres. simpl.
      rewrite andb_true_r. destruct (res_success res); [|done].
      assert (H : returns (taskCompleted (task_id task) true None))
        by returns_services.
      specialize (H w). by destruct (result _ w).
    + intros e w [_ Hmarked]. subst expected. rewrite <- Hmarked. simpl.
      by rewrite andb_false_r.
  - by intros e w [(? & ? & [=] & _) _].
Qed.

End JobOutcome.


(** ** One pass of the task poller *)

Section TaskPoller.

Import LinearService TaskPollerService.















End TaskPoller.



(** ** One pass of the review poller *)

Section ReviewPoller.

Import LinearService SessionStoreService ReviewPollerService.









End ReviewPoller.



(** ** Feedback is collected once *)

(** X12.  Once a feedback job has run and the database has accepted its
    inserts, no comment the job carried is taken for new feedback again,
    for any work item and whether or not the run succeeded. *)
Theorem feedback_collected_once job agent w :
  let ids := fb_commentIds (job_data job) in
  (∀ c, c ∈ ids → db_insert_fails (store w) c = false) →
  let w' := exec (TaskProcessor.handleFeedback job agent) w in
  ∀ task c, c ∈ new_feedback w' task → comment_id c ∉ ids.
Proof.
  intros ids Haccepted w' task c Hc Hin.
  destruct (handleFeedback_ledger_hoare job agent (ledger w)
              (db_insert_fails (store w)) w eq_refl) as [_ Hmarked].
  destruct (Hmarked Haccepted) as [Hall _].
  apply newUserComments_exact in Hc as (_ & _ & Hnone).
  destruct (Hall _ Hin) as [row Hrow]. fold w' in Hrow. congruence.
Qed.

Lemma feedback_collected_once_witness :
  let w' := exec (TaskProcessor.handleFeedback
                    (Scenario.job_of Scenario.looks_good)
                    (Scenario.agent_succeeds "session-3"))
                 Scenario.reviewing in
  new_feedback Scenario.reviewing Scenario.status_check
  = [Scenario.human_comment]
  ∧ ∀ task c, c ∈ new_feedback w' task → comment_id c ∉ ["comment-h1"].
Proof.
  split; [vm_compute; reflexivity|].
  apply (feedback_collected_once (Scenario.job_of Scenario.looks_good)
           (Scenario.agent_succeeds "session-3") Scenario.reviewing).
  reflexivity.
Defined.

(** ** The session store *)

Section Store.

Import SessionStoreService.

(** X13.  [markCommentProcessed], when the database accepts the insert,
    makes [isCommentProcessed] answer [true] for the comment.  The first
    mark wins: a comment that was already in the ledger keeps its row, with
    the work item and the time of the first mark, and no other comment's
    row is touched; marking a second time changes nothing at all. *)
Theorem markCommentProcessed_first_wins commentId taskId w :
  db_insert_fails (store w) commentId = false →
  let w' := exec (markCommentProcessed commentId taskId) w in
  result (markCommentProcessed commentId taskId) w = Ok tt
  ∧ result (isCommentProcessed commentId) w' = Ok true
  ∧ (is_Some (ledger w !! commentId) → ledger w' = ledger w)
  ∧ (∀ c, c ≠ commentId → ledger w' !! c = ledger w !! c)
  ∧ (∀ taskId', exec (markCommentProcessed commentId taskId') w' = w').
Proof.
  intros Haccepted.
  unfold markCommentProcessed, result, exec. rewrite insert_or_ignore_run.
  rewrite Haccepted. unfold isCommentProcessed, gets, ledger, with_store.
  simpl. split; [done|].
  destruct (processed_comments (store w) !! commentId) as [row|] eqn:E; simpl.
  - split; [by rewrite E, bool_decide_eq_true_2 by (by eexists)|].
    split; [done|]. split; [done|]. intros taskId'.
    rewrite insert_or_ignore_run. simpl. rewrite Haccepted.
    unfold with_store. simpl. by rewrite E.
  - split; [by rewrite lookup_insert_eq, bool_decide_eq_true_2 by (by eexists)|].
    split; [by intros [? ?]|].
    split; [by intros c Hc; rewrite lookup_insert_ne|]. intros taskId'.
    rewrite insert_or_ignore_run. simpl. rewrite Haccepted.
    unfold with_store. simpl. by rewrite lookup_insert_eq.
Qed.

Lemma markCommentProcessed_first_wins_witness :
  let w := exec (markCommentProcessed "comment-h1" "issue-2")
                Scenario.reviewing in
  let w' := exec (markCommentProcessed "comment-h1" "issue-1") w in
  pc_linear_task_id <$> ledger w' !! "comment-h1" = Some "issue-2".
Proof.
  intros w w'.
  destruct (markCommentProcessed_first_wins "comment-h1" "issue-1" w eq_refl)
    as (_ & _ & Hkept & _).
  fold w' in Hkept. rewrite Hkept; [vm_compute; reflexivity|].
  vm_compute. by eexists.
Defined.

End Store.

(** ** The session id the monitor reports *)

Section Coherent.

Import MonitorService MonitorQueries.

Ltac run_tracker :=
  unfold bind, gets, modify, ret,
    SessionStoreService.completeTask, SessionStoreService.saveSession,
    SessionStoreService.updateSessionId,
    MonitorGateway.broadcastTaskUpdate, MonitorGateway.broadcastLog,
    MonitorGateway.emit;
  simpl.

Lemma taskCompleted_task_sessions taskId success summary w :
  ∀ k, row_session_id <$> task_sessions
         (store (exec (taskCompleted taskId success summary) w)) !! k
       = row_session_id <$> task_sessions (store w) !! k.
Proof.
  intros k. destruct (runningTasks w !! taskId) as [info|] eqn:E.
  - unfold exec, taskCompleted, bind at 1, gets at 1. simpl. rewrite E.
    assert (Hkeep : keeps (λ w, task_sessions (store w)) refreshStats)
      by keeps_services.
    run_tracker.
    match goal with
    | |- context [refreshStats ?x] => specialize (Hkeep x)
    end.
    unfold exec in Hkeep. cbv beta in Hkeep. rewrite Hkeep. simpl.
    destruct (decide (k = taskId)) as [->|Hk].
    + rewrite lookup_alter_eq. by destruct (task_sessions (store w) !! taskId).
    + by rewrite lookup_alter_ne.
  - unfold exec. by rewrite taskCompleted_absent.
Qed.

Lemma run_op_coherent op w : coherent w → coherent (exec (run_op op) w).
Proof.
  intros Hw. destruct op as [id ident title|id step p|id s|id success summary];
    simpl.
  - unfold exec, taskStarted. run_tracker. intros k info.
    unfold storedSessionId. simpl.
    destruct (decide (k = id)) as [->|Hk].
    + rewrite !lookup_insert_eq. intros [= <-]. simpl.
      split; [by eexists | done].
    + rewrite !lookup_insert_ne by done. apply Hw.
  - unfold exec, taskProgress, bind at 1, gets at 1. simpl.
    destruct (runningTasks w !! id) as [i|] eqn:E; [|done].
    run_tracker. intros k info. unfold storedSessionId. simpl.
    destruct (decide (k = id)) as [->|Hk].
    + rewrite lookup_insert_eq. intros [= <-]. simpl. by apply Hw.
    + rewrite lookup_insert_ne by done. apply Hw.
  - unfold exec, taskSessionId, bind at 1, gets at 1. simpl.
    destruct (runningTasks w !! id) as [i|] eqn:E; [|done].
    run_tracker. intros k info. unfold storedSessionId. simpl.
    destruct (decide (k = id)) as [->|Hk].
    + rewrite lookup_insert_eq, lookup_alter_eq. intros [= <-]. simpl.
      destruct (Hw id i E) as [[row Hrow] _]. rewrite Hrow. simpl.
      split; [by eexists | done].
    + rewrite lookup_insert_ne, lookup_alter_ne by done. apply Hw.
  - intros k info. rewrite taskCompleted_runningTasks.
    intros Hk. apply lookup_delete_Some in Hk as [Hne Hk].
    destruct (Hw k info Hk) as [[row Hrow] Hs].
    pose proof (taskCompleted_task_sessions id success summary w k) as Hrows.
    unfold storedSessionId in *. rewrite Hrow in Hrows, Hs. simpl in *.
    destruct (task_sessions
                (store (exec (taskCompleted id success summary) w)) !! k)
      as [row'|]; [|done].
    simpl in Hrows. injection Hrows as Hrows.
    split; [by eexists|]. simpl. by rewrite Hrows.
Qed.

Lemma run_ops_coherent ops w : coherent w → coherent (run_ops ops w).
Proof.
  revert w. induction ops as [|op ops IH]; intros w Hw; [done|].
  simpl. by apply IH, run_op_coherent.
Qed.

Lemma getTaskSessionId_coherent taskId w :
  coherent w →
  getTaskSessionId taskId w = (Ok (Js.truthy (storedSessionId taskId w)), w).
Proof.
  intros Hw. unfold getTaskSessionId, SessionStoreService.getSessionByTaskId,
    bind, gets, ret. simpl.
  destruct (runningTasks w !! taskId) as [info|] eqn:E; simpl; [|done].
  destruct (rt_sessionId info) as [s|] eqn:Hs; simpl; [|done].
  destruct (Hw taskId info E) as [_ Hstored]. specialize (Hstored s Hs).
  rewrite Hstored. unfold storedSessionId in Hstored. simpl.
  destruct (String.eqb s EmptyString) eqn:Hempty; [|done].
  by rewrite Hstored; simpl; rewrite Hempty.
Qed.

End Coherent.

(** X14.  Starting with nothing running, and whatever calls the tracker
    then receives, [getTaskSessionId] answers with the session id the
    database stores for the work item: the running entry it looks at first
    never disagrees with the row, and an empty id counts as none. *)
Theorem getTaskSessionId_reads_store ops taskId w :
  runningTasks w = ∅ →
  let w' := run_ops ops w in
  MonitorQueries.getTaskSessionId taskId w'
  = (Ok (Js.truthy (storedSessionId taskId w')), w').
Proof.
  intros Hidle. apply getTaskSessionId_coherent, run_ops_coherent.
  intros k info. by rewrite Hidle, lookup_empty.
Qed.

Lemma getTaskSessionId_reads_store_witness :
  let w' := run_ops [ op_started "issue-1" "X-1" "Write changelog";
                      op_sessionId "issue-1" "session-1";
                      op_started "issue-1" "X-1" "[Retry] Write changelog" ]
                    Scenario.initial in
  result (MonitorQueries.getTaskSessionId "issue-1") w' = Ok (Some "session-1").
Proof.
  intros w'. subst w'. unfold result.
  rewrite (getTaskSessionId_reads_store _ "issue-1" Scenario.initial eq_refl).
  vm_compute. reflexivity.
Defined.

(** ** A failed run leaves its issue in Failed *)

Section RetryAfterFailure.

Import MonitorService ClaudeService TaskProcessor MonitorQueries.

Context (issueId : string) (c : list TaskStatus).
Hypothesis cache_complete : ∀ st, st ∈ c.

Lemma updateStatus_serviceable st :
  hoare (serviceable issueId c) (LinearService.updateStatus issueId st)
        (λ r w, returned r ∧ serviceable issueId c w
                ∧ issue_status issueId w = Some st).
Proof.
  intros w Hw. unfold serviceable, failure_view in *.
  injection Hw as Hready Hcache Hexists.
  assert (Hcached : st ∈ lin_stateCache (linear w))
    by (rewrite Hcache; apply cache_complete).
  destruct (updateStatus_requests issueId st w Hready Hcached)
    as (Hr & _ & Hst & Hview).
  unfold client_view in Hview. injection Hview as Hready' Hcache'.
  unfold issue_exists, issue_status in *.
  apply bool_decide_eq_true_1 in Hexists as [issue Hissue].
  rewrite Hissue in Hst. simpl in Hst.
  split; [done|]. rewrite Hready', Hcache', Hready, Hcache.
  destruct (srv_issues (linear (exec _ w)) !! issueId) as [issue'|];
    [|done].
  split; [by rewrite bool_decide_eq_true_2 by (by eexists) | done].
Qed.

Lemma updateStatus_keeps_serviceable st :
  hoare (serviceable issueId c) (LinearService.updateStatus issueId st)
        (λ _, serviceable issueId c).
Proof.
  eapply hoare_post; [apply updateStatus_serviceable|].
  by intros r w (_ & ? & _).
Qed.

Lemma hoare_returns_ok {A} (m : M A) P (Q : World → Prop) :
  returns m → hoare P m (λ r w, succeeded r = false → Q w).
Proof. intros Hm w _. specialize (Hm w). by destruct (result m w). Qed.

(** [serviceable] along the body of a handler, as long as it can still
    throw. *)
Ltac serviceable_step :=
  first
    [ apply hoare_returns_ok; solve [returns_services]
    | apply hoare_throw; by intros ? ? ?
    | eapply hoare_bind with
        (Q1 := λ _ w, failure_view issueId w = (true, c, true));
        [ first [ apply updateStatus_keeps_serviceable
                | apply hoare_frame; [solve [keeps_services] | by intros ? ? ?] ]
        | intros ?
        | by intros ? ? ? ? ]
    | match goal with
      | |- hoare _ (if ?b then _ else _) _ => destruct b
      | |- hoare _ (match ?x with _ => _ end) _ => destruct x
      end ].

Lemma on_failure_marks_failed {A} task headline (job : Job A) message :
  task_id task = issueId →
  hoare (serviceable issueId c) (on_failure task headline job message)
        (λ r w, succeeded r = false
                ∧ (lin_ready (linear w), issue_status issueId w)
                  = (true, Some FAILED)).
Proof.
  intros Hid. unfold on_failure. rewrite Hid.
  eapply hoare_seq.
  { eapply hoare_post; [apply updateStatus_serviceable|].
    intros r w (Hr & Hw & Hst). split; [exact Hr|].
    unfold serviceable, failure_view in Hw. injection Hw as Hready _ _.
    exact (f_equal2 pair Hready Hst
           : (λ w, (lin_ready (linear w), issue_status issueId w)
                   = (true, Some FAILED)) w). }
  intros ?.
  do 2 (apply (hoare_bind_call
                 (λ w, (lin_ready (linear w), issue_status issueId w)));
          [keeps_services | returns_services | intros ?]).
  by apply hoare_throw.
Qed.


Lemma failing_handler {A} task headline (job : Job A) identifier title
    (body : M unit) :
  task_id task = issueId →
  hoare (serviceable issueId c) body
        (λ r w, succeeded r = false → serviceable issueId c w) →
  hoare (serviceable issueId c)
        (taskStarted issueId identifier title >>
         try_catch body (on_failure task headline job))
        (λ r w, succeeded r = false →
                (lin_ready (linear w), issue_status issueId w)
                = (true, Some FAILED)).
Proof.
  intros Hid Hbody.
  apply (hoare_bind_call (failure_view issueId));
    [keeps_services | returns_services | intros ?].
  eapply hoare_try_catch; [exact Hbody | intros e | by intros ? ? ? ?].
  eapply hoare_weaken; [by apply on_failure_marks_failed | |].
  - intros w Hw. by apply Hw.
  - by intros r w [_ ?] _.
Qed.

Lemma do_run_marks_failed r :
  task_id (run_task r) = issueId →
  hoare (serviceable issueId c) (do_run r)
        (λ res w, succeeded res = false →
                  (lin_ready (linear w), issue_status issueId w)
                  = (true, Some FAILED)).
Proof.
  intros Hid.
  destruct r as [job agent|job agent|job agent]; simpl in *.
  - unfold handleTask. rewrite Hid. apply failing_handler; [done|].
    unfold serviceable. repeat serviceable_step.
  - unfold handleFeedback. rewrite Hid. apply failing_handler; [done|].
    unfold serviceable. repeat serviceable_step.
  - unfold handleRetry. rewrite Hid. apply failing_handler; [done|].
    unfold serviceable. repeat serviceable_step.
Qed.

End RetryAfterFailure.

(** ** The retry endpoint *)

Section Retry.

Import MonitorQueries.

Lemma getTaskSessionId_run taskId w :
  getTaskSessionId taskId w = (result (getTaskSessionId taskId) w, w).
Proof.
  unfold result, getTaskSessionId, SessionStoreService.getSessionByTaskId,
    bind, gets, ret. simpl.
  by destruct (Js.truthy (runningTasks w !! taskId ≫= rt_sessionId)).
Qed.

Lemma hoare_gets_known {A C} (P : World → Prop) (g : World → A) a
    (k : A → M C) Q :
  (∀ w, P w → g w = a) → hoare P (k a) Q → hoare P (bind (gets g) k) Q.
Proof.
  intros Hg Hk w Hw. unfold result, exec, bind, gets. simpl.
  rewrite (Hg w Hw). by apply Hk.
Qed.

Lemma updateIssue_keeps_posted issueId state k :
  keeps (posted_by_system k) (LinearService.client_updateIssue issueId state).
Proof.
  intros w. unfold exec, LinearService.client_updateIssue, bind, modify,
    gets, throw.
  simpl. unfold posted_by_system.
  destruct (srv_issues (linear w) !! issueId) as [[t st]|]; simpl;
    by rewrite omap_app, app_nil_r.
Qed.

#[local] Hint Resolve updateIssue_keeps_posted : keeps.

Lemma addComment_posted issueId text w :
  lin_ready (linear w) = true →
  posted_by_system issueId (exec (LinearService.addComment issueId text) w)
  = posted_by_system issueId w ++ [text].
Proof.
  intros Hready.
  unfold posted_by_system, exec, LinearService.addComment,
    LinearService.ensureClient, LinearService.client_createComment,
    bind, try_catch, gets, modify, throw, ret.
  simpl. rewrite Hready. simpl.
  destruct (srv_issues (linear w) !! issueId); simpl;
    by rewrite omap_app; simpl; rewrite String.eqb_refl.
Qed.

Context (faults : QueueFaults) (taskId : string) (task : LinearTask)
  (sessionId : string).

Lemma retry_steps w0 :
  lin_ready (linear w0) = true →
  hoare (λ w, w = w0)
        (try_catch (queue_retry faults taskId task sessionId) catch_all)
        (λ r w, r = Ok (retry_response faults task)
                ∧ retry_view taskId w
                  = (status_requests w0
                     ++ (if resolvable IN_PROGRESS w0
                         then [(taskId, IN_PROGRESS)] else []),
                     posted_by_system taskId w0 ++ [retry_comment sessionId],
                     queue w0
                     ++ (if add_rejects faults is None
                         then [retry_request w0 task sessionId] else []),
                     (cfg_taskTimeout w0, true))).
Proof.
  intros Hready. unfold queue_retry, catch_all, retry_response.
  set (R := status_requests w0 ++ _).
  set (P := posted_by_system taskId w0 ++ _).
  set (job := retry_request w0 task sessionId).
  set (T := cfg_taskTimeout w0).
  eapply hoare_try_catch with
    (Q1 := λ r w,
       retry_view taskId w
       = (R, P, queue w0 ++ (if add_rejects faults is None then [job] else []),
          (T, true))
       ∧ match r with
         | Ok resp => first_fault faults = None
                      ∧ resp = queued_for_retry
                                 ("Task " +:+ task_identifier task
                                  +:+ " has been queued for retry")
         | Throw e => first_fault faults = Some e
         end).
  2:{ intros e. apply hoare_ret. intros w [Hw He]. by rewrite He. }
  2:{ intros resp w [Hw [He ->]]. by rewrite He. }
  eapply hoare_seq with
    (P' := λ w, retry_view taskId w
                = (R, posted_by_system taskId w0, queue w0, (T, true))).
  { intros w ->. split; [returns_services|].
    assert (Hkeeps : keeps (λ w, (posted_by_system taskId w, queue w,
                                  (cfg_taskTimeout w, lin_ready (linear w))))
                       (LinearService.updateStatus taskId IN_PROGRESS))
      by keeps_services.
    specialize (Hkeeps w0). simpl in Hkeeps.
    injection Hkeeps as HP HQ HT HR.
    unfold retry_view.
    by rewrite updateStatus_requests_exact, HP, HQ, HT, HR, Hready. }
  intros ?.
  eapply hoare_seq with
    (P' := λ w, retry_view taskId w = (R, P, queue w0, (T, true))).
  { intros w Hw. unfold retry_view in Hw.
    injection Hw as HR HP HQ HT Hr. split; [returns_services|].
    assert (Hkeeps : keeps (λ w, (status_requests w, queue w,
                                  (cfg_taskTimeout w, lin_ready (linear w))))
                       (LinearService.addComment taskId
                          (retry_comment sessionId)))
      by keeps_services.
    specialize (Hkeeps w). simpl in Hkeeps.
    injection Hkeeps as HR' HQ' HT' Hr'.
    unfold retry_view.
    rewrite (addComment_posted _ _ _ Hr), HR', HQ', HT', Hr'.
    by rewrite HR, HP, HQ, HT, Hr. }
  intros ?.
  apply (hoare_gets_known _ _ T);
    [intros w Hw; unfold retry_view in Hw; by injection Hw|].
  unfold taskQueue_add, first_fault.
  destruct (add_rejects faults) as [e|].
  { apply hoare_throw. intros w Hw. by rewrite app_nil_r. }
  eapply hoare_seq with
    (P' := λ w, retry_view taskId w = (R, P, queue w0 ++ [job], (T, true))).
  { intros w Hw. unfold retry_view in Hw.
    injection Hw as HR HP HQ HT Hr. split; [done|].
    change (retry_view taskId (exec (queue_add ?d ?o) w))
      with (status_requests w, posted_by_system taskId w, queue w ++ [(d, o)],
            (cfg_taskTimeout w, lin_ready (linear w))).
    by rewrite HR, HP, HQ, HT, Hr. }
  intros ?.
  do 2 (apply (hoare_bind_call (retry_view taskId));
          [unfold retry_view; keeps_services | returns_services | intros ?]).
  unfold awaited_refreshStats.
  destruct (getJobCounts_rejects faults) as [e|].
  - eapply hoare_bind with
      (Q1 := λ r w, r = Throw e
                    ∧ retry_view taskId w
                      = (R, P, queue w0 ++ [job], (T, true))).
    + apply (hoare_bind_call (retry_view taskId));
        [unfold retry_view; keeps_services | returns_services | intros ?].
      by apply hoare_throw.
    + by intros ? w [[=] _].
    + by intros e' w [[= ->] Hw].
  - apply (hoare_bind_call (retry_view taskId));
      [unfold retry_view; keeps_services | returns_services | intros ?].
    by apply hoare_ret.
Qed.

(** The checks of [retryTask], one after the other. *)
Lemma retryTask_run w :
  retryTask faults taskId w
  = match (if lin_ready (linear w) then srv_issues (linear w) !! taskId
           else None) with
    | None =>
        (Ok (NotFoundException ("Task with ID " +:+ taskId +:+ " not found")),
         w)
    | Some (task, state) =>
        if bool_decide (state = FAILED) then
          match result (getTaskSessionId taskId) w with
          | Ok (Some sessionId) =>
              try_catch (queue_retry faults taskId task sessionId)
                        catch_all w
          | _ =>
              (Ok (BadRequestException
                     ("No session found for task " +:+ taskId
                      +:+ ". Cannot retry without previous execution context.")),
               w)
          end
        else
          (Ok (BadRequestException
                 ("Only failed tasks can be retried. Current status: "
                  +:+ TaskStatus_name state)), w)
    end.
Proof.
  unfold retryTask, getIssueWithState, LinearService.ensureClient.
  unfold try_catch at 1, bind at 1 2, gets at 1. simpl.
  destruct (lin_ready (linear w)); simpl; [|done].
  destruct (srv_issues (linear w) !! taskId) as [[task' state]|]; [|done].
  case_bool_decide; simpl; [|done].
  unfold bind at 1. rewrite getTaskSessionId_run.
  assert (Hret : returns (getTaskSessionId taskId)) by
    (unfold getTaskSessionId, SessionStoreService.getSessionByTaskId;
     returns_services).
  specialize (Hret w).
  destruct (result (getTaskSessionId taskId) w) as [[s|]|e]; try done.
Qed.

(** Past its checks, [retryTask] is [queue_retry] under the [catch]. *)
Lemma retryTask_passes w :
  lin_ready (linear w) = true →
  srv_issues (linear w) !! taskId = Some (task, FAILED) →
  result (getTaskSessionId taskId) w = Ok (Some sessionId) →
  retryTask faults taskId w
  = try_catch (queue_retry faults taskId task sessionId) catch_all w.
Proof.
  intros Hready Hissue Hsession.
  rewrite retryTask_run, Hready, Hissue, Hsession.
  by rewrite bool_decide_eq_true_2.
Qed.

End Retry.

Lemma accepted_response faults task :
  accepted (Ok (retry_response faults task)) = answers faults.
Proof.
  unfold retry_response, first_fault, answers.
  by destruct (MonitorQueries.add_rejects faults),
    (MonitorQueries.getJobCounts_rejects faults).
Qed.

(** X15.  The retry endpoint answers with the success object or with one
    of its two HTTP exceptions, never with another error.  Its checks are
    that the client is ready, that the issue exists and is in Failed, and
    that [getTaskSessionId] finds a session id; a request that fails one
    of them is refused and changes nothing.  A request that passes them
    has its effects whatever comes next: In Progress is requested from the
    tracker, the retry comment is posted, and the retry job, which carries
    the issue and the session id, is added unless the queue rejects it.
    The request is accepted exactly when, besides, the queue answers both
    times it is asked; if it does not, the answer is the
    [BadRequestException] of the [catch] block, with the error of the
    queue, after the effects. *)
Theorem retryTask_guard faults taskId w :
  let r := result (MonitorQueries.retryTask faults taskId) w in
  let w' := exec (MonitorQueries.retryTask faults taskId) w in
  let passes :=
    lin_ready (linear w) = true
    ∧ issue_status taskId w = Some FAILED
    ∧ ∃ s, result (MonitorQueries.getTaskSessionId taskId) w = Ok (Some s) in
  returned r
  ∧ (accepted r = true ↔ passes ∧ answers faults = true)
  ∧ (¬ passes → w' = w)
  ∧ (∀ task s,
       lin_ready (linear w) = true →
       srv_issues (linear w) !! taskId = Some (task, FAILED) →
       result (MonitorQueries.getTaskSessionId taskId) w = Ok (Some s) →
       r = Ok (retry_response faults task)
       ∧ status_requests w'
         = status_requests w
           ++ (if resolvable IN_PROGRESS w then [(taskId, IN_PROGRESS)]
               else [])
       ∧ posted_by_system taskId w'
         = posted_by_system taskId w ++ [MonitorQueries.retry_comment s]
       ∧ queue w'
         = queue w
           ++ (if MonitorQueries.add_rejects faults is None
               then [retry_request w task s] else [])).
Proof.
  cbv zeta.
  assert (Hpass : ∀ task s,
            lin_ready (linear w) = true →
            srv_issues (linear w) !! taskId = Some (task, FAILED) →
            result (MonitorQueries.getTaskSessionId taskId) w = Ok (Some s) →
            result (MonitorQueries.retryTask faults taskId) w
            = Ok (retry_response faults task)
            ∧ retry_view taskId (exec (MonitorQueries.retryTask faults taskId) w)
              = (status_requests w
                 ++ (if resolvable IN_PROGRESS w
                     then [(taskId, IN_PROGRESS)] else []),
                 posted_by_system taskId w ++ [MonitorQueries.retry_comment s],
                 queue w
                 ++ (if MonitorQueries.add_rejects faults is None
                     then [retry_request w task s] else []),
                 (cfg_taskTimeout w, true))).
  { intros task s Hready Hissue Hsession.
    unfold result, exec.
    rewrite (retryTask_passes faults taskId task s w Hready Hissue Hsession).
    by apply (retry_steps faults taskId task s w Hready w). }
  pose proof (retryTask_run faults taskId w) as Hrun.
  unfold issue_status.
  destruct (lin_ready (linear w)) eqn:Hready; simpl in Hrun.
  2:{ unfold result, exec. rewrite Hrun. simpl.
      split; [done|]. split; [by split; [|intros [[? _] _]]|].
      split; [done|]. by intros ? ? ?. }
  destruct (srv_issues (linear w) !! taskId) as [[task state]|] eqn:Hissue;
    simpl in *.
  2:{ unfold result, exec. rewrite Hrun. simpl.
      split; [done|]. split; [by split; [|intros [(_ & ? & _) _]]|].
      split; [done|]. by intros ? ? ?. }
  case_bool_decide as Hstate; simpl in Hrun.
  2:{ unfold result, exec. rewrite Hrun. simpl.
      split; [done|].
      split; [split; [done | intros [(_ & [= ?] & _) _]; done]|].
      split; [done|]. intros ? ? _ [= _ ?]. done. }
  subst state.
  destruct (result (MonitorQueries.getTaskSessionId taskId) w)
    as [[s|]|e] eqn:Hs.
  2,3: unfold result, exec; rewrite Hrun; simpl;
       (split; [done|]);
       (split; [by split; [|intros [(_ & _ & ? & ?) _]]|]);
       (split; [done|]); by intros ? ? ?.
  destruct (Hpass task s eq_refl eq_refl eq_refl) as [Hr Hview].
  rewrite Hr. split; [done|].
  rewrite accepted_response.
  split; [split; [by eauto 6 | by intros [_ ?]]|].
  split; [intros Hno; destruct Hno; by eauto|].
  intros task' s' _ [= <-] [= <-]. split; [done|].
  unfold retry_view in Hview. by injection Hview.
Qed.

Lemma retryTask_guard_witness :
  let failed := run_execute (Scenario.job_of Scenario.changelog)
                  (Scenario.agent_reports_failure "session-3") in
  let w := exec (do_run failed) Scenario.initial in
  let redis_down :=
    {| MonitorQueries.add_rejects := Some "Connection is closed.";
       MonitorQueries.getJobCounts_rejects := None |} in
  let m := MonitorQueries.retryTask redis_down "issue-1" in
  result m w
  = Ok (MonitorQueries.BadRequestException
          "Failed to retry task: Connection is closed.")
  ∧ status_requests (exec m w)
    = status_requests w ++ [("issue-1", IN_PROGRESS)]
  ∧ queue (exec m w) = queue w.
Proof.
  intros failed w redis_down m.
  destruct (retryTask_guard redis_down "issue-1" w)
    as (_ & _ & _ & Hpasses).
  destruct (Hpasses Scenario.changelog "session-3")
    as (Hr & Hrequests & _ & Hqueue);
    [vm_compute; reflexivity.. |].
  split; [exact Hr|]. split.
  - etrans; [exact Hrequests|]. f_equal.
  - etrans; [exact Hqueue|]. apply app_nil_r.
Defined.

(** ** Retrying a failed job *)

Lemma getTaskSessionId_idle taskId w :
  runningTasks w !! taskId = None →
  result (MonitorQueries.getTaskSessionId taskId) w
  = Ok (Js.truthy (storedSessionId taskId w)).
Proof.
  intros Hidle.
  unfold result, MonitorQueries.getTaskSessionId,
    SessionStoreService.getSessionByTaskId, bind, gets, ret. simpl.
  by rewrite Hidle.
Qed.

(** X16.  A job that failed can be retried through the endpoint exactly
    when a session id is stored for its work item afterwards, that is when
    the agent reported one during the run or an earlier run had left one.
    The endpoint then accepts the retry if the queue answers, and the retry
    job, which is added unless the queue rejects it, carries the most
    recent of these ids; with a queue that answers ([answers faults] is
    [true], no request is rejected) the retry is accepted and the job is
    added.  Without a session id the endpoint refuses and changes nothing.
    (The tracker is assumed to be serviceable: client ready, every state
    cached, issue present.) *)
Theorem failed_run_retry r c w faults :
  (∀ st, st ∈ c) →
  serviceable (task_id (run_task r)) c w →
  succeeded (result (do_run r) w) = false →
  let taskId := task_id (run_task r) in
  let w' := exec (do_run r) w in
  let retried := MonitorQueries.retryTask faults taskId in
  match Js.truthy (latest (storedSessionId taskId w) (captured r)) with
  | Some sessionId =>
      accepted (result retried w') = answers faults
      ∧ ∃ task, queue (exec retried w')
                = queue w'
                  ++ if MonitorQueries.add_rejects faults is None
                     then [retry_request w' task sessionId] else []
  | None => accepted (result retried w') = false ∧ exec retried w' = w'
  end.
Proof.
  intros Hc Hw Hfailed taskId w' retried.
  pose proof (do_run_marks_failed taskId c Hc r eq_refl w Hw Hfailed)
    as Hmarked.
  injection Hmarked as Hready Hstatus.
  destruct (do_run_settled r w I) as (Hidle & _).
  pose proof (do_run_session r (storedSessionId taskId w) w eq_refl) as Hsid.
  fold taskId w' in Hready, Hstatus, Hidle, Hsid.
  pose proof (getTaskSessionId_idle taskId w' Hidle) as Hget.
  rewrite Hsid in Hget.
  unfold issue_status in Hstatus.
  destruct (srv_issues (linear w') !! taskId) as [[task st]|] eqn:Hissue;
    [|done].
  injection Hstatus as ->.
  subst retried.
  destruct (Js.truthy (latest (storedSessionId taskId w) (captured r)))
    as [sessionId|].
  - unfold result, exec.
    rewrite (retryTask_passes faults taskId task sessionId w'
               Hready Hissue Hget).
    destruct (retry_steps faults taskId task sessionId w' Hready w' eq_refl)
      as [Hr Hview].
    unfold result, exec in Hr, Hview. rewrite Hr, accepted_response.
    split; [done|]. exists task.
    unfold retry_view in Hview. by injection Hview.
  - pose proof (retryTask_run faults taskId w') as Hrun.
    rewrite Hready, Hissue, Hget in Hrun. simpl in Hrun.
    unfold result, exec. by rewrite Hrun.
Qed.

Lemma failed_run_retry_witness :
  let r := run_execute (Scenario.job_of Scenario.changelog)
                       (Scenario.agent_reports_failure "session-3") in
  let w' := exec (do_run r) Scenario.initial in
  accepted (result (MonitorQueries.retryTask MonitorQueries.working "issue-1")
                   w') = true.
Proof.
  intros r w'.
  assert (Hc : ∀ st, st ∈ Scenario.workflow)
    by (intros []; repeat constructor).
  assert (Hw : serviceable (task_id (run_task r)) Scenario.workflow
                 Scenario.initial) by (vm_compute; reflexivity).
  assert (Hf : succeeded (result (do_run r) Scenario.initial) = false)
    by (vm_compute; reflexivity).
  pose proof (failed_run_retry r Scenario.workflow Scenario.initial
                MonitorQueries.working Hc Hw Hf) as H.
  cbv zeta in H.
  assert (Hl : Js.truthy
                 (latest (storedSessionId (task_id (run_task r))
                            Scenario.initial) (captured r))
               = Some "session-3") by (vm_compute; reflexivity).
  rewrite Hl in H. exact (proj1 H).
Defined.

(** ** The agent's requests to the tracker *)

Section AgentRequests.

Import MonitorService ClaudeService TaskProcessor.

Context (issueId : string).

Lemma tracker_grants_status now act l :
  (snd <$> srv_issues (tracker_grants now act l) !! issueId,
   srv_states (tracker_grants now act l))
  = ((λ st, agent_sets issueId (srv_states l) st [act])
       <$> (snd <$> srv_issues l !! issueId),
     srv_states l).
Proof.
  destruct act as [i body|i state]; simpl.
  - destruct (srv_issues l !! i); simpl;
      by destruct (srv_issues l !! issueId).
  - destruct (srv_issues l !! i) as [[t st]|] eqn:E; simpl.
    + destruct (bool_decide (state ∈ srv_states l)); simpl.
      * case_bool_decide as Hi; simpl.
        -- subst i. by rewrite lookup_insert_eq, E.
        -- rewrite lookup_insert_ne by done.
           by destruct (srv_issues l !! issueId).
      * rewrite andb_false_r. by destruct (srv_issues l !! issueId).
    + case_bool_decide as Hi; simpl.
      * subst i. by rewrite E.
      * by destruct (srv_issues l !! issueId).
Qed.

Lemma agent_sets_cons states st act acts :
  agent_sets issueId states st (act :: acts)
  = agent_sets issueId states (agent_sets issueId states st [act]) acts.
Proof. reflexivity. Qed.

Context (taskId : string).

Lemma processMessage_returns msg v :
  returns (processMessage msg (monitor_handlers taskId) v).
Proof.
  intros w.
  pose proof (returns_consume_callbacks [yields msg]
                (monitor_callbacks taskId) v) as H.
  unfold result in *. specialize (H ltac:(intros; returns_services)
                                    ltac:(intros ? ? [= <-]; returns_services) w).
  simpl in H. unfold bind, result in H. fold (monitor_handlers taskId) in H.
  by destruct (processMessage msg (monitor_handlers taskId) v w) as [[?|?] ?].
Qed.

Lemma processMessage_keeps_linear msg v :
  keeps linear (processMessage msg (monitor_handlers taskId) v).
Proof.
  apply keeps_processMessage; intros; unfold monitor_handlers; simpl;
    keeps_services.
Qed.

Lemma consume_status stream v S states :
  hoare (λ w, status_view issueId w = (S, states))
        (consume stream (monitor_handlers taskId) v)
        (λ r w, returned r
                ∧ status_view issueId w
                  = ((λ st, agent_sets issueId states st (omap acted stream))
                       <$> S, states)).
Proof.
  revert v S. induction stream as [|[msg|act] stream IH]; intros v S.
  - apply hoare_ret. intros w Hw. split; [done|]. rewrite Hw.
    by destruct S.
  - cbn [consume omap list_omap acted].
    eapply hoare_seq; [|intros v'; apply IH].
    intros w Hw. split; [apply processMessage_returns|].
    unfold status_view, issue_status in *.
    by rewrite (processMessage_keeps_linear msg v w).
  - cbn [consume omap list_omap acted].
    intros w Hw. unfold result, exec, bind, mcp_linear, modify. simpl.
    pose proof (IH v ((λ st, agent_sets issueId states st [act]) <$> S)
                  (with_linear (tracker_grants (clock w) act) w)) as H.
    unfold result, exec in H.
    unfold status_view, issue_status in *. simpl in H.
    injection Hw as HS Hstates.
    rewrite tracker_grants_status, HS, Hstates in H.
    destruct (H eq_refl) as [Hr Hv]. split; [done|]. rewrite Hv.
    by destruct S.
Qed.

Lemma run_query_status agent S states :
  hoare (λ w, status_view issueId w = (S, states))
        (run_query agent (monitor_callbacks taskId))
        (λ _ w, status_view issueId w
                = ((λ st, agent_sets issueId states st (run_acts agent))
                     <$> S, states)).
Proof.
  unfold run_query.
  eapply hoare_seq; [apply consume_status | intros v].
  destruct (run_throws agent); [by apply hoare_throw | by apply hoare_ret].
Qed.

Lemma taskProgress_keeps_linear step progress :
  keeps linear (taskProgress taskId step progress).
Proof. keeps_services. Qed.

(** Around the stream the agent call leaves the status alone. *)
Ltac agent_call_status b :=
  apply hoare_gets_bind; intros ?;
  apply hoare_gets_bind; intros ?;
  eapply hoare_try_catch with (Q1 := λ _ w, status_view issueId w = b);
  [ apply (hoare_bind_call (status_view issueId));
      [ unfold status_view; keeps_services | returns_services | intros ? ];
    eapply hoare_bind with (Q1 := λ _ w, status_view issueId w = b);
      [ apply run_query_status
      | intros ?; apply (hoare_frame (status_view issueId));
          [ unfold status_view; keeps_services | by intros ? ? ? ]
      | by intros ? ? ? ]
  | intros ?; apply (hoare_frame (status_view issueId));
      [ unfold status_view; keeps_services | by intros ? ? ? ]
  | by intros ? ? ? ].

Lemma executeTask_status task agent S states :
  hoare (λ w, status_view issueId w = (S, states))
        (executeTask task (monitor_callbacks taskId) agent)
        (λ _ w, status_view issueId w
                = ((λ st, agent_sets issueId states st (run_acts agent))
                     <$> S, states)).
Proof.
  unfold executeTask.
  agent_call_status
    ((λ st, agent_sets issueId states st (run_acts agent)) <$> S, states).
Qed.

Lemma executeFeedback_status task text sessionId0 agent S states :
  hoare (λ w, status_view issueId w = (S, states))
        (executeFeedback task text sessionId0 (monitor_callbacks taskId) agent)
        (λ _ w, status_view issueId w
                = ((λ st, agent_sets issueId states st (run_acts agent))
                     <$> S, states)).
Proof.
  unfold executeFeedback.
  agent_call_status
    ((λ st, agent_sets issueId states st (run_acts agent)) <$> S, states).
Qed.

End AgentRequests.

(** ** The feedback handler *)

Section Feedback.

Import MonitorService ClaudeService TaskProcessor.

Context (job : Job FeedbackJob) (agent : AgentRun) (issueId : string).
Hypothesis job_issue : task_id (fb_task (job_data job)) = issueId.

Lemma handleFeedback_status S states C :
  C.1 = true → IN_PROGRESS ∈ C.2 →
  hoare (λ w, (status_view issueId w, client_view w) = (S, states, C))
        (handleFeedback job agent)
        (λ r w, returned r →
                issue_status issueId w
                = (λ _, agent_sets issueId states IN_PROGRESS
                          (run_acts agent)) <$> S).
Proof.
  intros Hready Hcached. unfold handleFeedback. rewrite job_issue.
  set (final := (λ _ : TaskStatus,
                   agent_sets issueId states IN_PROGRESS (run_acts agent))
                <$> S).
  eapply hoare_bind with
    (Q1 := λ _ w, (status_view issueId w, client_view w) = (S, states, C));
    [ apply hoare_frame;
        [unfold status_view, client_view; keeps_services | done]
    | intros ? | done ].
  eapply hoare_try_catch with
    (Q1 := λ r w, returned r → issue_status issueId w = final).
  2:{ intros err. eapply hoare_weaken; [apply on_failure_throws|done|].
      intros r w Hr Hok. by destruct Hr. }
  2:{ done. }
  eapply hoare_seq with
    (P' := λ w, status_view issueId w = ((λ _, IN_PROGRESS) <$> S, states)).
  { intros w [= HS Hstates <-].
    destruct (updateStatus_cached issueId IN_PROGRESS w Hready Hcached)
      as (Hr & _ & Hview & _).
    split; [done|]. by rewrite Hview, HS, Hstates. }
  intros ?.
  apply (hoare_bind_call (status_view issueId));
    [unfold status_view; keeps_services | returns_services | intros ?].
  eapply hoare_seq with (P' := λ w, issue_status issueId w = final).
  { intros w Hw. split.
    { assert (Hret : returns
                       (executeFeedback (fb_task (job_data job))
                          (fb_feedback (job_data job))
                          (fb_sessionId (job_data job))
                          (monitor_callbacks issueId) agent))
        by returns_services.
      apply Hret. }
    pose proof (executeFeedback_status issueId issueId
                  (fb_task (job_data job)) (fb_feedback (job_data job))
                  (fb_sessionId (job_data job)) agent _ _ w Hw)
      as [= Hst _].
    rewrite Hst. subst final. by destruct S. }
  intros res.
  eapply hoare_bind with (Q1 := λ _ w, issue_status issueId w = final);
    [ apply hoare_frame; [keeps_services | done]
    | intros ? | by intros ? ? _ [] ].
  destruct (res_success res); [|by apply hoare_throw; intros ? _ []].
  apply hoare_frame; [keeps_services | done].
Qed.

Lemma resolvable_view st w w' :
  resolver_view w = resolver_view w' → resolvable st w = resolvable st w'.
Proof.
  unfold resolver_view, resolvable. intros [= _ Hteam Hcache Hstates].
  by rewrite Hteam, Hcache, Hstates.
Qed.

(** The [catch] block asks for Failed, which is requested from the tracker
    if the name can be resolved. *)
Lemma on_failure_requests headline message R w0 :
  lin_ready (linear w0) = true →
  hoare (λ w, (status_requests w, resolver_view w) = (R, resolver_view w0))
        (on_failure (fb_task (job_data job)) headline job message)
        (λ r w, succeeded r = false
                ∧ status_requests w
                  = R ++ if resolvable FAILED w0 then [(issueId, FAILED)]
                         else []).
Proof.
  intros Hready. unfold on_failure. rewrite job_issue.
  set (R' := R ++ if resolvable FAILED w0 then [(issueId, FAILED)] else []).
  eapply hoare_seq with (P' := λ w, status_requests w = R').
  { intros w Hw. apply pair_equal_spec in Hw as [HR HV].
    split; [returns_services|].
    rewrite updateStatus_requests_exact, HR, (resolvable_view _ _ _ HV).
    unfold resolver_view in HV. injection HV as -> _ _ _.
    by rewrite Hready. }
  intros ?.
  do 2 (apply (hoare_bind_call status_requests);
          [keeps_services | returns_services | intros ?]).
  by apply hoare_throw.
Qed.

Lemma handleFeedback_requests w0 :
  lin_ready (linear w0) = true →
  IN_PROGRESS ∈ lin_stateCache (linear w0) →
  hoare (λ w, (status_requests w, resolver_view w)
              = (status_requests w0, resolver_view w0))
        (handleFeedback job agent)
        (λ r w, status_requests w
                = status_requests w0
                  ++ (issueId, IN_PROGRESS)
                     :: if succeeded r then []
                        else if resolvable FAILED w0
                             then [(issueId, FAILED)] else []).
Proof.
  intros Hready Hcached. unfold handleFeedback. rewrite job_issue.
  set (R := status_requests w0 ++ [(issueId, IN_PROGRESS)]).
  assert (HR : ∀ l, status_requests w0 ++ (issueId, IN_PROGRESS) :: l
                    = R ++ l)
    by (intros l; subst R; by rewrite <- app_assoc).
  eapply hoare_post with
    (Q' := λ r w, status_requests w
                  = R ++ if succeeded r then []
                         else if resolvable FAILED w0
                              then [(issueId, FAILED)] else []);
    [|intros r w H; by rewrite HR].
  apply (hoare_bind_call (λ w, (status_requests w, resolver_view w)));
    [unfold resolver_view; keeps_services | returns_services | intros ?].
  eapply hoare_try_catch with
    (Q1 := λ r w, match r with
                  | Ok _ => status_requests w = R
                  | Throw _ => (status_requests w, resolver_view w)
                               = (R, resolver_view w0)
                  end).
  2:{ intros e. eapply hoare_post; [by apply on_failure_requests|].
      intros [?|?] w [Hr Hw]; [done | exact Hw]. }
  2:{ intros ? w Hw. simpl. by rewrite app_nil_r. }
  eapply hoare_seq with
    (P' := λ w, (status_requests w, resolver_view w)
                = (R, resolver_view w0)).
  { intros w Hw. apply pair_equal_spec in Hw as [HR0 HV].
    assert (Hready' : lin_ready (linear w) = true)
      by (unfold resolver_view in HV; injection HV as -> _ _ _;
          exact Hready).
    assert (Hcached' : IN_PROGRESS ∈ lin_stateCache (linear w))
      by (unfold resolver_view in HV; injection HV as _ _ -> _;
          exact Hcached).
    destruct (updateStatus_cached issueId IN_PROGRESS w Hready' Hcached')
      as (Hr & Hreq & _ & Hview).
    split; [done|]. subst R. by rewrite Hreq, Hview, HR0, HV. }
  intros ?.
  do 2 (apply (hoare_bind_call (λ w, (status_requests w, resolver_view w)));
          [unfold resolver_view; keeps_services | returns_services
          | intros ?]).
  eapply hoare_bind with
    (Q1 := λ _ w, (status_requests w, resolver_view w)
                  = (R, resolver_view w0));
    [ apply hoare_frame; [unfold resolver_view; keeps_services | done]
    | intros ? | done ].
  match goal with
  | |- context [res_success ?res] => destruct (res_success res)
  end; [|by apply hoare_throw].
  intros w Hw. apply pair_equal_spec in Hw as [HR0 _].
  assert (Hret : returns (taskCompleted issueId true None))
    by returns_services.
  assert (Hkeeps : keeps status_requests (taskCompleted issueId true None))
    by keeps_services.
  specialize (Hret w). specialize (Hkeeps w).
  destruct (result _ w); [|done]. by rewrite Hkeeps.
Qed.

End Feedback.

(** C2, as the code has it.  For a feedback job, with the client ready and
    the In Progress state in its cache: the handler returns exactly when
    the agent run reports success and the comment ids are marked.  It
    requests In Progress before the agent runs; after the run it requests
    nothing when it returns, and nothing but Failed when it throws (the
    run reported a failure, or the run succeeded and marking the comments
    raised).  It never requests Done or In Review and does not consult the
    review gate.  When it returns, the issue is in the state the agent
    itself has set last during the run, through the tracker tools the
    feedback prompt tells it to use, and In Progress if the agent has set
    none. *)
Theorem handleFeedback_requests_in_progress_only job agent w :
  let task := fb_task (job_data job) in
  let m := TaskProcessor.handleFeedback job agent in
  let returned_normally := succeeded (result m w) in
  lin_ready (linear w) = true →
  IN_PROGRESS ∈ lin_stateCache (linear w) →
  returned_normally
  = reported_success agent
    && inserts_accepted (db_insert_fails (store w))
                        (fb_commentIds (job_data job))
  ∧ status_requests (exec m w)
    = status_requests w
      ++ (task_id task, IN_PROGRESS)
         :: (if returned_normally then []
             else if resolvable FAILED w then [(task_id task, FAILED)]
                  else [])
  ∧ (returned_normally = true →
     issue_status (task_id task) (exec m w)
     = (λ _, agent_sets (task_id task) (srv_states (linear w)) IN_PROGRESS
               (ClaudeService.run_acts agent))
         <$> issue_status (task_id task) w).
Proof.
  intros task m returned_normally Hready Hcached.
  split; [|split].
  - by apply (handleFeedback_outcome job agent (db_insert_fails (store w)) w).
  - by apply (handleFeedback_requests job agent (task_id task) eq_refl w
                Hready Hcached w).
  - intros Hr.
    apply (handleFeedback_status job agent (task_id task) eq_refl
             (issue_status (task_id task) w) (srv_states (linear w))
             (client_view w) Hready Hcached w eq_refl).
    revert Hr. unfold returned_normally, m.
    by destruct (result (TaskProcessor.handleFeedback job agent) w).
Qed.

Lemma handleFeedback_requests_in_progress_only_witness :
  let m := TaskProcessor.handleFeedback
             (Scenario.job_of Scenario.looks_good)
             (Scenario.agent_approves "session-3" "issue-2") in
  succeeded (result m Scenario.reviewing) = true
  ∧ status_requests (exec m Scenario.reviewing) = [("issue-2", IN_PROGRESS)]
  ∧ issue_status "issue-2" (exec m Scenario.reviewing) = Some DONE.
Proof.
  intros m.
  assert (Hcached : IN_PROGRESS ∈ lin_stateCache (linear Scenario.reviewing))
    by (change (IN_PROGRESS ∈ Scenario.workflow); repeat constructor).
  destruct (handleFeedback_requests_in_progress_only
              (Scenario.job_of Scenario.looks_good)
              (Scenario.agent_approves "session-3" "issue-2")
              Scenario.reviewing eq_refl Hcached)
    as (Hreturned & Hrequests & Hstatus).
  assert (Hok : succeeded (result m Scenario.reviewing) = true)
    by (etrans; [exact Hreturned | vm_compute; reflexivity]).
  split; [exact Hok|]. split.
  - etrans; [exact Hrequests|]. fold m. rewrite Hok. reflexivity.
  - etrans; [exact (Hstatus Hok)|]. vm_compute. reflexivity.
Defined.

(** C2, as stated, fails: the work item "Check status" has no trigger
    keyword, the review poller turns the comment "looks good" into a
    feedback job, the agent run succeeds and the handler returns; yet the
    only transition requested is "In Progress" and the item is not
    "Done". *)
Lemma feedback_success_not_routed_to_done :
  let m := TaskProcessor.handleFeedback
             (Scenario.job_of Scenario.looks_good)
             (Scenario.agent_succeeds "session-3") in
  queue (exec ReviewPollerService.pollReviewTasks Scenario.reviewing)
  = [(feedback_job Scenario.looks_good, job_options (Some 3000))]
  ∧ TaskProcessor.checkNeedsReview (fb_task Scenario.looks_good) = false
  ∧ result m Scenario.reviewing = Ok tt
  ∧ status_requests (exec m Scenario.reviewing) = [("issue-2", IN_PROGRESS)]
  ∧ issue_status "issue-2" (exec m Scenario.reviewing) ≠ Some DONE.
Proof.
  evaluate.
Qed.

(** ** Where a run leaves its issue *)

Section FinalStatus.

Import MonitorService ClaudeService TaskProcessor.

Context (issueId : string) (c : list TaskStatus).
Hypothesis cache_complete : ∀ st, st ∈ c.

Ltac framed f :=
  apply (hoare_frame f); [solve [keeps_services] | by intros ? ? ?].

Lemma routing_sets_status st (rest : M unit) :
  keeps (issue_status issueId) rest →
  hoare (serviceable issueId c)
        (call _ := LinearService.updateStatus issueId st in rest)
        (λ _ w, issue_status issueId w = Some st).
Proof.
  intros Hrest.
  eapply hoare_bind with (Q1 := λ _ w, issue_status issueId w = Some st).
  - eapply hoare_post; [by apply updateStatus_serviceable|].
    by intros r w (_ & _ & ?).
  - intros ?. by apply (hoare_frame (issue_status issueId)).
  - done.
Qed.

Lemma succeeding_handler {A} task headline (job : Job A) identifier title
    (body : M unit) st :
  hoare (serviceable issueId c) body
        (λ r w, succeeded r = true → issue_status issueId w = Some st) →
  hoare (serviceable issueId c)
        (taskStarted issueId identifier title >>
         try_catch body (on_failure task headline job))
        (λ r w, succeeded r = true → issue_status issueId w = Some st).
Proof.
  intros Hbody.
  apply (hoare_bind_call (failure_view issueId));
    [keeps_services | returns_services | intros ?].
  eapply hoare_try_catch; [exact Hbody | intros e | by intros ? ? ?].
  eapply hoare_weaken; [apply on_failure_throws | done |].
  intros [?|?] w Hr; [by destruct Hr | done].
Qed.

Lemma completes_with_status st :
  hoare (λ w, issue_status issueId w = Some st)
        (taskCompleted issueId true None)
        (λ _ w, issue_status issueId w = Some st).
Proof. framed (issue_status issueId). Qed.

Lemma routed_then_completed st (routing : M unit) :
  hoare (serviceable issueId c) routing
        (λ _ w, issue_status issueId w = Some st) →
  hoare (serviceable issueId c)
        (routing >> taskCompleted issueId true None)
        (λ r w, succeeded r = true → issue_status issueId w = Some st).
Proof.
  intros Hrouting.
  eapply hoare_bind; [exact Hrouting | intros ? | done].
  eapply hoare_post; [apply completes_with_status | done].
Qed.

(** An execute or a retry job: the gate's choice is requested after the
    agent has run, and granted. *)
Lemma gated_run_routes r states :
  task_id (run_task r) = issueId →
  (if r is run_feedback _ _ then False else True) →
  hoare (serviceable issueId c) (do_run r)
        (λ res w, succeeded res = true →
                  issue_status issueId w = Some (final_status states r true)).
Proof.
  intros Hid Hgated.
  destruct r as [job agent|job agent|job agent]; simpl in *; [|done|].
  - unfold handleTask. rewrite Hid. apply succeeding_handler.
    eapply hoare_bind with (Q1 := λ _, serviceable issueId c);
      [framed (failure_view issueId) | intros res | done].
    destruct (res_success res); [|by apply hoare_throw].
    apply routed_then_completed.
    destruct (checkNeedsReview (job_data job));
      apply routing_sets_status; keeps_services.
  - unfold handleRetry. rewrite Hid. apply succeeding_handler.
    do 2 (eapply hoare_bind with (Q1 := λ _, serviceable issueId c);
            [framed (failure_view issueId) | intros ? | done]).
    destruct (res_success _); [|by apply hoare_throw].
    apply routed_then_completed.
    destruct (checkNeedsReview (rj_task (job_data job)));
      apply routing_sets_status; keeps_services.
Qed.

Lemma do_run_routes r w :
  task_id (run_task r) = issueId →
  serviceable issueId c w →
  succeeded (result (do_run r) w) = true →
  issue_status issueId (exec (do_run r) w)
  = Some (final_status (srv_states (linear w)) r true).
Proof.
  intros Hid Hw Hr.
  destruct r as [job agent|job agent|job agent].
  - by apply (gated_run_routes (run_execute job agent) _ Hid I w Hw).
  - simpl in *. unfold serviceable, failure_view in Hw.
    injection Hw as Hready Hcache Hexists.
    apply bool_decide_eq_true_1 in Hexists as [[t st] Hissue].
    assert (Hcached : IN_PROGRESS ∈ (client_view w).2)
      by (simpl; rewrite Hcache; apply cache_complete).
    rewrite (handleFeedback_status job agent issueId Hid
               (issue_status issueId w) (srv_states (linear w))
               (client_view w) Hready Hcached w eq_refl).
    + unfold issue_status. rewrite Hissue. simpl. by rewrite Hid.
    + by destruct (result _ w).
  - by apply (gated_run_routes (run_retry job agent) _ Hid I w Hw).
Qed.

End FinalStatus.

(** X17.  Where a run leaves its issue, with a serviceable tracker (client
    ready, every state cached, issue present).  A job that fails leaves the
    issue in Failed.  A successful execute or retry job leaves it in In
    Review when the review gate fires and in Done otherwise, whatever the
    agent has set during the run.  A successful feedback job leaves it
    where the agent has put it: in the state of the agent's last
    [update_issue] for the issue that names a state of the workflow, and in
    In Progress, where the handler put it before the run, if there is
    none. *)
Theorem run_final_status r c w :
  (∀ st, st ∈ c) →
  serviceable (task_id (run_task r)) c w →
  issue_status (task_id (run_task r)) (exec (do_run r) w)
  = Some (final_status (srv_states (linear w)) r
            (succeeded (result (do_run r) w))).
Proof.
  intros Hc Hw.
  destruct (succeeded (result (do_run r) w)) eqn:Hr.
  - by apply (do_run_routes _ c Hc r w eq_refl Hw).
  - pose proof (do_run_marks_failed _ c Hc r eq_refl w Hw Hr) as H.
    by injection H.
Qed.

Lemma run_final_status_witness :
  let feedback := run_feedback (Scenario.job_of Scenario.looks_good)
                    (Scenario.agent_approves "session-3" "issue-2") in
  let retry := run_retry
                 (Scenario.job_of {| rj_task := Scenario.changelog;
                                     rj_sessionId := "session-1" |})
                 (Scenario.agent_approves "session-4" "issue-1") in
  issue_status "issue-2" (exec (do_run feedback) Scenario.reviewing)
  = Some DONE
  ∧ issue_status "issue-1" (exec (do_run retry) Scenario.reviewing)
    = Some IN_REVIEW.
Proof.
  intros feedback retry.
  assert (Hc : ∀ st, st ∈ Scenario.workflow)
    by (intros []; repeat constructor).
  split.
  - assert (Hw : serviceable (task_id (run_task feedback)) Scenario.workflow
                   Scenario.reviewing) by (vm_compute; reflexivity).
    etrans; [exact (run_final_status feedback Scenario.workflow
                      Scenario.reviewing Hc Hw)|].
    vm_compute. reflexivity.
  - assert (Hw : serviceable (task_id (run_task retry)) Scenario.workflow
                   Scenario.reviewing) by (vm_compute; reflexivity).
    etrans; [exact (run_final_status retry Scenario.workflow
                      Scenario.reviewing Hc Hw)|].
    vm_compute. reflexivity.
Defined.

(** ** Settings: saving what the form shows *)

Section SettingsProofs.

Import Settings.

Lemma settingsConfig_NoDup : NoDup settingsConfig.*1.
Proof. compute_done. Qed.

Lemma env_setSettings l s : env (setSettings l s) = env s.
Proof.
  revert s. induction l as [|[k v] l IH]; intros s; [done|].
  unfold setSettings in *. simpl. by rewrite IH.
Qed.

Lemma lookup_setSettings l s key :
  NoDup l.*1 →
  db (setSettings l s) !! key
  = match (list_to_map l : gmap string string) !! key with
    | Some v => Some v
    | None => db s !! key
    end.
Proof.
  revert s. induction l as [|[k v] l IH]; intros s Hl; [done|].
  apply NoDup_cons in Hl as [Hk Hl].
  unfold setSettings in *. cbn [foldl list_to_map foldr]. rewrite IH by done.
  simpl. destruct (decide (key = k)) as [->|Hne].
  - rewrite lookup_insert_eq.
    rewrite (not_elem_of_list_to_map_1 (M := gmap string) l k Hk).
    by rewrite lookup_insert_eq.
  - rewrite !lookup_insert_ne by done. done.
Qed.

Lemma saved_keys (dto : gmap string string) (cfg : list (string * string))
    key :
  key ∈ (omap (λ kp : string * string,
                 match dto !! kp.1 with
                 | None => None
                 | Some value =>
                     if sensitive kp.1 && isMaskedValue (Some value)
                     then None else Some (kp.1, value)
                 end) cfg).*1 →
  key ∈ cfg.*1.
Proof.
  induction cfg as [|[k p] cfg IH]; simpl; [done|].
  destruct (dto !! k) as [v|]; simpl.
  - destruct (sensitive k && isMaskedValue (Some v)); simpl.
    + intros H. right. by apply IH.
    + intros [->|H]%elem_of_cons; [left | right; by apply IH].
  - intros H. right. by apply IH.
Qed.

Lemma settingsToSave_NoDup dto : NoDup (settingsToSave dto).*1.
Proof.
  unfold settingsToSave. generalize settingsConfig_NoDup.
  generalize settingsConfig. intros cfg.
  induction cfg as [|[k p] cfg IH]; intros Hcfg; simpl; [constructor|].
  apply NoDup_cons in Hcfg as [Hk Hcfg].
  destruct (dto !! k) as [v|]; simpl; [|by apply IH].
  destruct (sensitive k && isMaskedValue (Some v)); simpl; [by apply IH|].
  apply NoDup_cons. split; [|by apply IH].
  intros H. by apply Hk, (saved_keys dto).
Qed.

Lemma lookup_settingsToSave dto key :
  (list_to_map (settingsToSave dto) : gmap string string) !! key
  = if bool_decide (key ∈ settingsConfig.*1) then
      dto !! key ≫= λ value,
        if sensitive key && isMaskedValue (Some value) then None
        else Some value
    else None.
Proof.
  unfold settingsToSave. generalize settingsConfig_NoDup.
  generalize settingsConfig. intros cfg.
  induction cfg as [|[k p] cfg IH]; intros Hcfg; [done|].
  apply NoDup_cons in Hcfg as [Hk Hcfg]. specialize (IH Hcfg).
  cbn [omap list_omap fmap list_fmap fst].
  destruct (decide (key = k)) as [->|Hne].
  - rewrite (bool_decide_eq_true_2 (k ∈ k :: _)) by left.
    assert (Hnone : (list_to_map
                       (omap (λ kp : string * string,
                                match dto !! kp.1 with
                                | None => None
                                | Some value =>
                                    if sensitive kp.1
                                       && isMaskedValue (Some value)
                                    then None else Some (kp.1, value)
                                end) cfg) : gmap string string) !! k = None).
    { apply not_elem_of_list_to_map_1. intros H.
      by apply Hk, (saved_keys dto). }
    destruct (dto !! k) as [v|]; simpl; [|done].
    destruct (sensitive k && isMaskedValue (Some v)); simpl; [done|].
    by rewrite lookup_insert_eq.
  - assert (Hin : bool_decide (key ∈ k :: cfg.*1)
                  = bool_decide (key ∈ cfg.*1)).
    { apply bool_decide_ext. rewrite elem_of_cons.
      split; [by intros [?|?] | by right]. }
    rewrite Hin, <- IH.
    destruct (dto !! k) as [v|]; simpl; [|done].
    destruct (sensitive k && isMaskedValue (Some v)); simpl; [done|].
    by rewrite lookup_insert_ne.
Qed.

Lemma saveSettings_db dto s key :
  db (saveSettings dto s).1 !! key
  = match dto !! key with
    | Some value =>
        if bool_decide (key ∈ settingsConfig.*1)
           && negb (sensitive key && isMaskedValue (Some value))
        then Some value else db s !! key
    | None => db s !! key
    end.
Proof.
  unfold saveSettings. cbv zeta. cbn [fst].
  rewrite lookup_setSettings by apply settingsToSave_NoDup.
  rewrite lookup_settingsToSave.
  destruct (bool_decide (key ∈ settingsConfig.*1));
    [|by destruct (dto !! key)].
  destruct (dto !! key) as [v|]; [|done]. cbn [mbind option_bind andb].
  by destruct (sensitive key && isMaskedValue (Some v)).
Qed.

(** *** The mask *)

Lemma truthy_Some v : v ≠ EmptyString → Js.truthy (Some v) = Some v.
Proof.
  intros Hv. simpl. apply String.eqb_neq in Hv. by rewrite Hv.
Qed.

Lemma truthy_nonempty o v : Js.truthy o = Some v → v ≠ EmptyString.
Proof.
  destruct o as [s|]; simpl; [|done].
  destruct (String.eqb s EmptyString) eqn:E; [done|].
  intros [= <-]. by apply String.eqb_neq.
Qed.

Lemma mask_is_masked v :
  v ≠ EmptyString → isMaskedValue (Some (maskSensitiveValue (Some v))) = true.
Proof.
  intros Hv. unfold maskSensitiveValue. rewrite (truthy_Some v Hv).
  destruct (Js.length v <=? 8)%nat; [reflexivity|].
  unfold isMaskedValue. rewrite truthy_Some.
  - apply includes_infix.
  - by destruct (Js.slice0 4 v).
Qed.

(** *** What the form shows *)

Lemma truthy_idem o : Js.truthy (Js.truthy o) = Js.truthy o.
Proof.
  destruct o as [v|]; simpl; [|done].
  destruct (String.eqb v EmptyString) eqn:E; simpl; [done | by rewrite E].
Qed.

Lemma truthy_default o :
  Js.truthy (Some (default EmptyString (Js.truthy o))) = Js.truthy o.
Proof.
  destruct o as [v|]; simpl; [|done].
  destruct (String.eqb v EmptyString) eqn:E; simpl; [done | by rewrite E].
Qed.

Lemma shown_effective key path s :
  shown key path s
  = if sensitive key && bool_decide (effective key path s ≠ EmptyString)
    then maskSensitiveValue (Some (effective key path s))
    else effective key path s.
Proof.
  unfold shown, effective, getValue, getSetting, getAllSettings.
  destruct (Js.truthy (db s !! key)) as [v|] eqn:E; [|done].
  cbn [default]. change (Some v) with (Some v : option string).
  rewrite <- E, truthy_idem. done.
Qed.

Lemma getSettings_lookup key path s :
  (key, path) ∈ settingsConfig →
  getSettings s !! key = Some (exposed key path s).
Proof.
  intros Hin. unfold getSettings, exposed.
  set (result := list_to_map _ : gmap string string).
  assert (Hres : ∀ k p, (k, p) ∈ settingsConfig →
                        result !! k = Some (shown k p s)).
  { intros k p Hkp. apply elem_of_list_to_map_1.
    - rewrite <- list_fmap_compose. apply settingsConfig_NoDup.
    - apply list_elem_of_fmap. by exists (k, p). }
  cbv zeta.
  destruct (decide (key = "authMethod")) as [->|Hne1].
  - rewrite lookup_insert_eq, (Hres _ _ Hin). done.
  - rewrite lookup_insert_ne by done.
    destruct (decide (key = "model")) as [->|Hne2].
    + rewrite lookup_insert_eq, (Hres _ _ Hin). done.
    + rewrite lookup_insert_ne by done. rewrite (Hres _ _ Hin).
      unfold form_default.
      apply String.eqb_neq in Hne1, Hne2. rewrite Hne1, Hne2.
      f_equal. simpl. by destruct (String.eqb (shown key path s) EmptyString) eqn:E;
        [apply String.eqb_eq in E|].
Qed.

Lemma sensitive_form_default key :
  sensitive key = true → form_default key = EmptyString.
Proof.
  unfold sensitive, sensitiveFields. intros H.
  apply bool_decide_eq_true_1 in H.
  repeat (apply elem_of_cons in H as [->|H]; [done|]).
  by apply elem_of_nil in H.
Qed.

Lemma config_key key path :
  (key, path) ∈ settingsConfig → bool_decide (key ∈ settingsConfig.*1) = true.
Proof.
  intros H. apply bool_decide_eq_true_2, list_elem_of_fmap.
  by exists (key, path).
Qed.

Lemma resaved_db key path s :
  (key, path) ∈ settingsConfig →
  db (resaved s) !! key
  = if sensitive key && isMaskedValue (Some (exposed key path s))
    then db s !! key else Some (exposed key path s).
Proof.
  intros Hin. unfold resaved.
  rewrite saveSettings_db, (getSettings_lookup _ _ _ Hin).
  rewrite (config_key _ _ Hin). simpl.
  by destruct (sensitive key && isMaskedValue (Some (exposed key path s))).
Qed.

Lemma resaved_env s : env (resaved s) = env s.
Proof. unfold resaved, saveSettings. simpl. apply env_setSettings. Qed.

Lemma getValue_effective key path s :
  Js.truthy (getValue key path s) = None ∨
  getValue key path s = Some (effective key path s)
  ∧ effective key path s ≠ EmptyString.
Proof.
  unfold effective.
  destruct (Js.truthy (getValue key path s)) as [v|] eqn:E; [right | by left].
  pose proof (truthy_nonempty _ _ E) as Hv. split; [|done]. simpl.
  destruct (getValue key path s) as [v'|]; [|done]. simpl in E.
  destruct (String.eqb v' EmptyString); [done|]. by injection E as ->.
Qed.

Lemma getValue_falsy key path s :
  Js.truthy (getValue key path s) = None →
  getValue key path s = env s !! path
  ∧ Js.truthy (db s !! key) = None
  ∧ effective key path s = EmptyString.
Proof.
  unfold effective, getValue, getSetting, config_get. intros H.
  destruct (Js.truthy (db s !! key)) as [v|] eqn:E.
  - pose proof (truthy_nonempty _ _ E) as Hv.
    rewrite (truthy_Some v Hv) in H. done.
  - by rewrite H.
Qed.

Lemma resaved_getValue key path s :
  (key, path) ∈ settingsConfig →
  default (form_default key) (Js.truthy (getValue key path (resaved s)))
  = default (form_default key) (Js.truthy (getValue key path s))
  ∧ (form_default key = EmptyString →
     getValue key path (resaved s) = getValue key path s).
Proof.
  intros Hin. unfold getValue at 1 3, getSetting, config_get.
  rewrite (resaved_db _ _ _ Hin), resaved_env.
  unfold exposed. rewrite shown_effective.
  destruct (getValue_effective key path s) as [Hnone|[Hsome Hne]].
  - destruct (getValue_falsy _ _ _ Hnone) as (Henv & Hdb & Heff).
    rewrite Heff, Hnone.
    rewrite (bool_decide_eq_false_2 (EmptyString ≠ EmptyString))
      by (intros H; by apply H).
    rewrite andb_false_r. cbn [Js.truthy String.eqb default].
    destruct (sensitive key) eqn:Hs.
    + rewrite (sensitive_form_default _ Hs). cbn.
      rewrite <- Henv, Hnone. by rewrite Henv.
    + cbn [andb]. cbn [Js.truthy].
      destruct (String.eqb (form_default key) EmptyString) eqn:Hd.
      * rewrite <- Henv, Hnone. by rewrite Henv.
      * cbn [default]. split; [by simpl; rewrite Hd|].
        intros Hd'. rewrite Hd' in Hd. done.
  - rewrite Hsome. rewrite (truthy_Some _ Hne).
    rewrite (bool_decide_eq_true_2 _ Hne), andb_true_r.
    destruct (sensitive key) eqn:Hs.
    + pose proof (mask_is_masked _ Hne) as Hmasked.
      assert (Hm : Js.truthy (Some (maskSensitiveValue
                                      (Some (effective key path s))))
                   = Some (maskSensitiveValue (Some (effective key path s)))).
      { unfold isMaskedValue in Hmasked.
        destruct (Js.truthy (Some (maskSensitiveValue _))) as [m|] eqn:E;
          [|done].
        simpl in E.
        destruct (String.eqb (maskSensitiveValue _) EmptyString); [done|].
        done. }
      rewrite Hm. cbn [default from_option id]. rewrite Hmasked. simpl.
      unfold getValue, getSetting, config_get in Hsome. rewrite Hsome.
      by rewrite (truthy_Some _ Hne).
    + rewrite (truthy_Some _ Hne). cbn [andb default from_option id].
      by rewrite !(truthy_Some _ Hne).
Qed.

Lemma exposed_plain key path s :
  sensitive key = false →
  exposed key path s
  = default (form_default key) (Js.truthy (getValue key path s)).
Proof.
  intros Hs. unfold exposed. rewrite shown_effective, Hs.
  cbn [andb]. unfold effective. by rewrite truthy_default.
Qed.

Lemma resaved_exposed key path s :
  (key, path) ∈ settingsConfig →
  exposed key path (resaved s) = exposed key path s.
Proof.
  intros Hin. destruct (resaved_getValue key path s Hin) as [Hd Hv].
  destruct (sensitive key) eqn:Hs.
  - unfold exposed. rewrite !shown_effective. unfold effective.
    by rewrite (Hv (sensitive_form_default _ Hs)).
  - by rewrite !exposed_plain.
Qed.

Lemma resaved_secret key path s :
  (key, path) ∈ settingsConfig →
  sensitive key = true → effective key path s ≠ EmptyString →
  db (resaved s) !! key = db s !! key.
Proof.
  intros Hin Hs Hne. rewrite (resaved_db _ _ _ Hin), Hs.
  unfold exposed. rewrite shown_effective, Hs.
  rewrite (bool_decide_eq_true_2 _ Hne). cbn [andb].
  pose proof (mask_is_masked _ Hne) as Hmasked.
  assert (Hm : Js.truthy (Some (maskSensitiveValue
                                  (Some (effective key path s))))
               = Some (maskSensitiveValue (Some (effective key path s)))).
  { unfold isMaskedValue in Hmasked.
    destruct (Js.truthy (Some (maskSensitiveValue _))) as [m|] eqn:E;
      [|done].
    simpl in E.
    destruct (String.eqb (maskSensitiveValue _) EmptyString); [done|].
    done. }
  rewrite Hm. cbn [default from_option id]. by rewrite Hmasked.
Qed.

End SettingsProofs.

(** X18.  Saving the settings form as GET has shown it changes no setting
    that is in force.  For every configured key the value the provider
    hands out is the same afterwards (for the two enumerations: the same
    once their default is applied), so the authentication method and the
    model are the same; a secret that is set, in the table or in the
    environment, is never overwritten by its mask; and the form shows the
    same value again. *)
Theorem settings_round_trip s key path :
  (key, path) ∈ Settings.settingsConfig →
  let s' := resaved s in
  (key ≠ "authMethod" → key ≠ "model" →
   Settings.getValue key path s' = Settings.getValue key path s)
  ∧ Settings.getAuthMethod s' = Settings.getAuthMethod s
  ∧ Settings.getModel s' = Settings.getModel s
  ∧ (Settings.sensitive key = true → effective key path s ≠ EmptyString →
     Settings.db s' !! key = Settings.db s !! key)
  ∧ Settings.getSettings s' !! key = Settings.getSettings s !! key.
Proof.
  intros Hin s'. subst s'.
  split; [|split; [|split; [|split]]].
  - intros Hne1 Hne2. apply (resaved_getValue key path s Hin).
    unfold form_default. apply String.eqb_neq in Hne1, Hne2.
    by rewrite Hne1, Hne2.
  - apply (resaved_getValue "authMethod" "anthropic.authMethod" s).
    compute_done.
  - apply (resaved_getValue "model" "anthropic.model" s). compute_done.
  - by apply resaved_secret.
  - rewrite !(getSettings_lookup _ _ _ Hin). f_equal.
    by apply resaved_exposed.
Qed.

Lemma settings_round_trip_witness :
  let s := {| Settings.db := {[ "linearApiKey" := "lin_api_0123456789" ]};
              Settings.env := {[ "linear.teamId" := "ENG" ]} |} in
  Settings.getSettings s !! "linearApiKey" = Some "lin_***6789"
  ∧ Settings.db (resaved s) !! "linearApiKey" = Some "lin_api_0123456789"
  ∧ Settings.getValue "linearTeamId" "linear.teamId" (resaved s) = Some "ENG".
Proof.
  intros s.
  assert (Hkey : ("linearApiKey", "linear.apiKey") ∈ Settings.settingsConfig)
    by compute_done.
  assert (Hteam : ("linearTeamId", "linear.teamId") ∈ Settings.settingsConfig)
    by compute_done.
  destruct (settings_round_trip s _ _ Hkey) as (_ & _ & _ & Hsecret & _).
  destruct (settings_round_trip s _ _ Hteam) as (Hvalue & _).
  split; [vm_compute; reflexivity|]. split.
  - rewrite Hsecret; [vm_compute; reflexivity | reflexivity |].
    vm_compute. discriminate.
  - rewrite Hvalue; [vm_compute; reflexivity | discriminate | discriminate].
Defined.


(** ** Work items do not interfere *)

Section Isolation.

Import MonitorService ClaudeService TaskProcessor.

Context (taskId other : string).
Hypothesis different : other ≠ taskId.

Ltac run_tracker :=
  unfold bind, gets, modify, ret,
    SessionStoreService.completeTask, SessionStoreService.saveSession,
    SessionStoreService.updateSessionId,
    MonitorGateway.broadcastTaskUpdate, MonitorGateway.broadcastLog,
    MonitorGateway.emit;
  simpl.

Lemma taskStarted_isolated identifier title :
  keeps (item_view taskId) (taskStarted other identifier title).
Proof.
  intros w. unfold exec, taskStarted, item_view. run_tracker.
  by rewrite !lookup_insert_ne.
Qed.

Lemma taskProgress_isolated step progress :
  keeps (item_view taskId) (taskProgress other step progress).
Proof.
  intros w. unfold exec, taskProgress, bind at 1, gets at 1.
  simpl. destruct (runningTasks w !! other); [|done]. run_tracker.
  unfold item_view. simpl. by rewrite lookup_insert_ne.
Qed.

Lemma taskSessionId_isolated sessionId :
  keeps (item_view taskId) (taskSessionId other sessionId).
Proof.
  intros w. unfold exec, taskSessionId, bind at 1, gets at 1.
  simpl. destruct (runningTasks w !! other); [|done]. run_tracker.
  unfold item_view. simpl. by rewrite lookup_insert_ne, lookup_alter_ne.
Qed.

Lemma refreshStats_item : keeps (item_view taskId) refreshStats.
Proof. unfold item_view. keeps_services. Qed.

Lemma taskCompleted_isolated success summary :
  keeps (item_view taskId) (taskCompleted other success summary).
Proof.
  intros w. unfold exec, taskCompleted, bind at 1, gets at 1.
  simpl. destruct (runningTasks w !! other); [|done]. run_tracker.
  match goal with
  | |- context [refreshStats ?x] =>
      pose proof (refreshStats_item x) as H
  end.
  unfold exec in H. rewrite H. unfold item_view. simpl.
  by rewrite lookup_delete_ne, lookup_insert_ne, lookup_alter_ne.
Qed.

Lemma markCommentsProcessed_item commentIds taskId' :
  keeps (item_view taskId)
        (SessionStoreService.markCommentsProcessed commentIds taskId').
Proof.
  intros w.
  unfold exec, SessionStoreService.markCommentsProcessed,
    SessionStoreService.transaction.
  assert (H : keeps (item_view taskId)
                (for_each commentIds
                   (λ c, SessionStoreService.insert_or_ignore c taskId')))
    by (unfold item_view; keeps_services).
  specialize (H w). unfold exec in H.
  destruct (for_each commentIds _ w) as [[a|e] w1]; simpl in *; [done|].
  unfold item_view in *. simpl. by injection H as -> -> _.
Qed.

Lemma keeps_running {A} (m : M A) :
  keeps (item_view taskId) m → keeps (λ w, runningTasks w !! taskId) m.
Proof. intros H w. specialize (H w). by injection H. Qed.

Lemma keeps_history {A} (m : M A) :
  keeps (item_view taskId) m → keeps (λ w, taskHistory w !! taskId) m.
Proof. intros H w. specialize (H w). by injection H. Qed.

Lemma keeps_row {A} (m : M A) :
  keeps (item_view taskId) m →
  keeps (λ w, task_sessions (store w) !! taskId) m.
Proof. intros H w. specialize (H w). by injection H. Qed.

Create HintDb isolated.

#[local] Hint Resolve taskStarted_isolated taskProgress_isolated
  taskSessionId_isolated taskCompleted_isolated markCommentsProcessed_item
  : isolated.

#[local] Hint Extern 1 (keeps (λ w, runningTasks w !! _) _) =>
  apply keeps_running; solve [auto 1 with isolated] : keeps.
#[local] Hint Extern 1 (keeps (λ w, taskHistory w !! _) _) =>
  apply keeps_history; solve [auto 1 with isolated] : keeps.
#[local] Hint Extern 1 (keeps (λ w, task_sessions (store w) !! _) _) =>
  apply keeps_row; solve [auto 1 with isolated] : keeps.

#[local] Hint Extern 2 (keeps _ (onProgress _ _ _)) =>
  progress cbn [onProgress monitor_callbacks];
  solve [auto 2 with keeps] : keeps.

Lemma do_run_isolated r :
  task_id (run_task r) = other → keeps (item_view taskId) (do_run r).
Proof.
  intros Hid.
  destruct r as [job agent|job agent|job agent]; simpl in *.
  - unfold handleTask, on_failure, item_view. rewrite Hid. keeps_services.
  - unfold handleFeedback, on_failure, item_view. rewrite Hid.
    keeps_services.
  - unfold handleRetry, on_failure, item_view. rewrite Hid. keeps_services.
Qed.

End Isolation.

(** X20.  Runs of the job handlers on other work items change nothing of
    what the tracker and the session store hold for a work item: its
    running entry, its history entry and its [task_sessions] row are the
    same after any sequence of such runs, whatever their agents do. *)
Theorem runs_do_not_interfere taskId runs w :
  Forall (λ r, task_id (run_task r) ≠ taskId) runs →
  item_view taskId (do_runs runs w) = item_view taskId w.
Proof.
  intros Hruns. revert w.
  induction Hruns as [|r runs Hr _ IH]; intros w; [done|].
  simpl. rewrite IH. by apply (do_run_isolated taskId (task_id (run_task r))).
Qed.

Lemma runs_do_not_interfere_witness :
  let w := do_runs [ run_execute (Scenario.job_of Scenario.changelog)
                       (Scenario.agent_reports_failure "session-9") ]
                   Scenario.reviewing in
  task_sessions (store w) !! "issue-2"
  = task_sessions (store Scenario.reviewing) !! "issue-2".
Proof.
  intros w.
  assert (H : Forall (λ r, task_id (run_task r) ≠ "issue-2")
                [ run_execute (Scenario.job_of Scenario.changelog)
                    (Scenario.agent_reports_failure "session-9") ])
    by (constructor; [discriminate | constructor]).
  exact (f_equal snd
           (runs_do_not_interfere "issue-2" _ Scenario.reviewing H)).
Defined.

(** ** The progress a run reports *)

Section Progress.

Import MonitorService ClaudeService TaskProcessor.

Context (taskId : string) (L0 : list nat).

Lemma progress_of_self u :
  tu_taskId u = taskId → progress_of taskId (task_update u) = tu_progress u.
Proof. intros <-. simpl. by rewrite String.eqb_refl. Qed.

Lemma broadcastLog_progress l :
  keeps (progress_log taskId) (MonitorGateway.broadcastLog l).
Proof.
  intros w. unfold exec, MonitorGateway.broadcastLog, MonitorGateway.emit,
    modify, progress_log. simpl. by rewrite omap_app, app_nil_r.
Qed.

Lemma broadcastStats_progress st :
  keeps (progress_log taskId) (MonitorGateway.broadcastStats st).
Proof.
  intros w. unfold exec, MonitorGateway.broadcastStats, MonitorGateway.emit,
    modify, progress_log. simpl. by rewrite omap_app, app_nil_r.
Qed.

Lemma sorted_snoc (L : list nat) p :
  StronglySorted le L → Forall (λ q, q ≤ p) L → StronglySorted le (L ++ [p]).
Proof.
  induction 1 as [|q L HL IH Hq]; intros Hp; simpl.
  - repeat constructor.
  - apply Forall_cons in Hp as [Hqp Hp]. constructor; [by apply IH|].
    apply Forall_app. split; [done | by constructor].
Qed.

Lemma head_snoc (L : list nat) p :
  head L = Some 10 → head (L ++ [p]) = Some 10.
Proof. by destruct L. Qed.

Lemma taskProgress_run step progress w info :
  runningTasks w !! taskId = Some info →
  let w' := exec (taskProgress taskId step progress) w in
  result (taskProgress taskId step progress) w = Ok tt
  ∧ progress_log taskId w' = progress_log taskId w ++ [progress]
  ∧ ∃ info', runningTasks w' !! taskId = Some info'
             ∧ rt_progress info' = progress.
Proof.
  intros Hrun. unfold result, exec.
  destruct (taskProgress taskId step progress w) as [r w'] eqn:E.
  unfold taskProgress, bind, gets, modify, ret,
    MonitorGateway.broadcastTaskUpdate, MonitorGateway.broadcastLog,
    MonitorGateway.emit in E.
  simpl in E. rewrite Hrun in E. injection E as <- <-.
  unfold progress_log. simpl. rewrite !omap_app. simpl.
  rewrite String.eqb_refl. simpl.
  rewrite app_nil_r, lookup_insert_eq. split; [done|]. split; [done|].
  by eexists.
Qed.

Lemma taskProgress_first step :
  hoare (about_to_report taskId L0) (taskProgress taskId step 10)
        (λ r w, returned r ∧ reporting taskId L0 10 w).
Proof.
  intros w [Hlog [info Hrun]].
  destruct (taskProgress_run step 10 w info Hrun)
    as (Hr & Hlog' & info' & Hrun' & Hp).
  rewrite Hr. split; [done|]. exists [10], info'.
  rewrite Hlog', Hlog, Hp. repeat split; try done.
  - repeat constructor.
  - by repeat constructor.
Qed.

Lemma taskProgress_reports step progress bound :
  bound ≤ progress →
  hoare (reporting taskId L0 bound) (taskProgress taskId step progress)
        (λ r w, returned r ∧ reporting taskId L0 progress w).
Proof.
  intros Hb w (L & info & Hlog & Hhead & Hsorted & Hrun & Hall & Hbound).
  destruct (taskProgress_run step progress w info Hrun)
    as (Hr & Hlog' & info' & Hrun' & Hp).
  rewrite Hr. split; [done|]. exists (L ++ [progress]), info'.
  rewrite Hlog', Hlog, Hp, app_assoc.
  assert (Hle : Forall (λ q, q ≤ progress) L).
  { eapply Forall_impl; [exact Hall|]. intros q Hq. simpl in Hq. lia. }
  repeat split; try done.
  - by apply head_snoc.
  - by apply sorted_snoc.
  - apply Forall_app. split; [done | by repeat constructor].
Qed.

Lemma taskSessionId_reports sessionId bound :
  hoare (reporting taskId L0 bound) (taskSessionId taskId sessionId)
        (λ r w, returned r ∧ reporting taskId L0 bound w).
Proof.
  intros w (L & info & Hlog & Hhead & Hsorted & Hrun & Hall & Hbound).
  unfold result, exec.
  destruct (taskSessionId taskId sessionId w) as [r w'] eqn:E.
  unfold taskSessionId, bind, gets, modify, ret,
    SessionStoreService.updateSessionId,
    MonitorGateway.broadcastTaskUpdate, MonitorGateway.broadcastLog,
    MonitorGateway.emit in E.
  simpl in E. rewrite Hrun in E. injection E as <- <-.
  split; [done|].
  exists (L ++ [rt_progress info]),
    {| rt_taskId := rt_taskId info; rt_identifier := rt_identifier info;
       rt_title := rt_title info; rt_progress := rt_progress info;
       rt_currentStep := rt_currentStep info; rt_steps := rt_steps info;
       rt_startedAt := rt_startedAt info;
       rt_sessionId := Some sessionId |}.
  unfold progress_log in *. simpl. rewrite !omap_app. simpl.
  rewrite String.eqb_refl. simpl.
  rewrite app_nil_r, lookup_insert_eq, Hlog, app_assoc.
  repeat split; try done.
  - by apply head_snoc.
  - by apply sorted_snoc.
  - apply Forall_app. split; [done | by repeat constructor].
Qed.

Lemma reporting_weaken b b' w :
  b ≤ b' → reporting taskId L0 b w → reporting taskId L0 b' w.
Proof.
  intros Hb (L & info & ? & ? & ? & ? & ? & ?). exists L, info.
  repeat split; try done. lia.
Qed.

Lemma process_blocks_reports content v :
  paced v →
  hoare (reporting taskId L0 (lastProgress v))
        (process_blocks content (monitor_handlers taskId) v)
        (streamed taskId L0).
Proof.
  revert v. induction content as [|[text|name|] content IH]; intros v Hv.
  - apply hoare_ret. intros w Hw. by exists v.
  - change (process_blocks (text_block text :: content)
              (monitor_handlers taskId) v)
      with (process_blocks content (monitor_handlers taskId)
              {| responseText := responseText v +:+ text;
                 lastProgress := lastProgress v;
                 toolCallCount := toolCallCount v;
                 sessionId := sessionId v |}).
    by apply (IH {| responseText := responseText v +:+ text;
                    lastProgress := lastProgress v;
                    toolCallCount := toolCallCount v;
                    sessionId := sessionId v |}).
  - cbn [process_blocks monitor_handlers stream_handlers onToolUse
           monitor_callbacks onProgress].
    set (progress := 90 `min` (20 + S (toolCallCount v) * 15)).
    assert (Hle : lastProgress v ≤ progress)
      by (unfold paced in Hv; subst progress; lia).
    eapply hoare_bind with
      (Q1 := λ r w, r = Ok {| responseText := responseText v;
                              lastProgress := progress;
                              toolCallCount := S (toolCallCount v);
                              sessionId := sessionId v |}
                    ∧ reporting taskId L0 progress w).
    + eapply hoare_seq; [by apply taskProgress_reports|].
      intros ?. by apply hoare_ret.
    + intros v' w [Heq Hw]. injection Heq as Heq. subst v'. revert w Hw.
      apply (IH {| responseText := responseText v;
                   lastProgress := progress;
                   toolCallCount := S (toolCallCount v);
                   sessionId := sessionId v |}).
      unfold paced. cbn [lastProgress toolCallCount]. by subst progress.
    + by intros e w [[=] _].
  - apply IH, Hv.
Qed.

Lemma processMessage_reports msg v :
  paced v →
  hoare (reporting taskId L0 (lastProgress v))
        (processMessage msg (monitor_handlers taskId) v)
        (streamed taskId L0).
Proof.
  intros Hv.
  destruct msg as [[content|]|subtype r|subtype sid| | |];
    try (apply hoare_ret; intros w Hw; by exists v).
  - by apply process_blocks_reports.
  - cbn [processMessage].
    destruct (String.eqb subtype "success"), (Js.truthy r);
      apply hoare_ret; intros w Hw; by exists v.
  - cbn [processMessage].
    destruct (String.eqb subtype "init"), (Js.truthy sid) as [s|];
      try (apply hoare_ret; intros w Hw; by exists v).
    cbn [monitor_handlers stream_handlers h_onSessionId monitor_callbacks
           onSessionId].
    eapply hoare_seq; [apply taskSessionId_reports|].
    intros ?. apply hoare_ret. intros w Hw.
    by exists {| responseText := responseText v;
                 lastProgress := lastProgress v;
                 toolCallCount := toolCallCount v; sessionId := Some s |}.
Qed.

Lemma consume_reports stream v :
  paced v →
  hoare (reporting taskId L0 (lastProgress v))
        (consume stream (monitor_handlers taskId) v)
        (streamed taskId L0).
Proof.
  revert v. induction stream as [|[msg|act] stream IH]; intros v Hv.
  - apply hoare_ret. intros w Hw. by exists v.
  - cbn [consume].
    eapply hoare_bind; [by apply processMessage_reports | |].
    + intros v' w (v1 & Heq & Hv1 & Hw). injection Heq as <-.
      revert w Hw. by apply IH.
    + by intros e w (? & [=] & _).
  - cbn [consume]. apply hoare_mcp_linear; [by intros g w Hw | by apply IH].
Qed.

Lemma paced_bound v : paced v → lastProgress v ≤ 90.
Proof. unfold paced. lia. Qed.

Lemma run_query_reports agent :
  hoare (reporting taskId L0 10) (run_query agent (monitor_callbacks taskId))
        (λ _ w, reporting taskId L0 90 w).
Proof.
  unfold run_query.
  eapply hoare_bind with (Q1 := streamed taskId L0).
  - apply (consume_reports (run_stream agent)
             {| responseText := EmptyString; lastProgress := 10;
                toolCallCount := 0; sessionId := None |}).
    unfold paced. simpl. lia.
  - intros v.
    eapply hoare_weaken with
      (P' := reporting taskId L0 90)
      (Q' := λ _ w, reporting taskId L0 90 w);
      [ destruct (run_throws agent);
          [by apply hoare_throw | by apply hoare_ret]
      | | done ].
    intros w (v' & Heq & Hv & Hw). injection Heq as <-.
    by apply (reporting_weaken (lastProgress v) 90); [apply paced_bound|].
  - by intros e w (? & [=] & _).
Qed.

Lemma reporting_frame {A} (m : M A) bound :
  keeps (λ w, (progress_log taskId w, runningTasks w !! taskId)) m →
  hoare (reporting taskId L0 bound) m (λ _, reporting taskId L0 bound).
Proof.
  intros Hm w (L & info & Hlog & ? & ? & Hrun & ? & ?).
  specialize (Hm w). simpl in Hm. injection Hm as Hlog' Hrun'.
  exists L, info. by rewrite Hlog', Hrun'.
Qed.

(** The end of the agent call: a framed step or the last report. *)
Ltac report_step :=
  first
    [ apply hoare_ret; by intros ? ?
    | eapply hoare_seq;
        [ apply taskProgress_reports; lia | intros ? ]
    | match goal with
      | |- hoare (λ w, reporting _ _ ?b w) (bind _ _) _ =>
          eapply hoare_bind with (Q1 := λ _ w, reporting taskId L0 b w);
          [ apply reporting_frame; solve [keeps_services]
          | intros ?
          | intros ? ? Hw; apply (reporting_weaken b 100); [lia | exact Hw] ]
      | |- hoare (reporting _ _ ?b) (bind _ _) _ =>
          eapply hoare_bind with (Q1 := λ _ w, reporting taskId L0 b w);
          [ apply reporting_frame; solve [keeps_services]
          | intros ?
          | intros ? ? Hw; apply (reporting_weaken b 100); [lia | exact Hw] ]
      end ].

Ltac agent_call_reports :=
  apply hoare_gets_bind; intros ?;
  apply hoare_gets_bind; intros ?;
  eapply hoare_try_catch with (Q1 := λ _ w, reporting taskId L0 100 w);
  [ cbn [onProgress monitor_callbacks];
    eapply hoare_seq; [apply taskProgress_first | intros ?];
    eapply hoare_bind with (Q1 := λ _ w, reporting taskId L0 90 w);
    [ apply run_query_reports
    | intros v; destruct (hasError (responseText v));
      [ repeat report_step
      | apply hoare_gets_bind; intros ?; cbv zeta; repeat report_step ]
    | intros e w Hw; by apply (reporting_weaken 90 100); [lia|] ]
  | intros e; cbv zeta; cbn [onProgress monitor_callbacks];
    repeat report_step
  | by intros ? ? ? ].

Lemma executeTask_reports_progress task agent :
  hoare (about_to_report taskId L0)
        (executeTask task (monitor_callbacks taskId) agent)
        (λ _ w, reporting taskId L0 100 w).
Proof. unfold executeTask. agent_call_reports. Qed.

Lemma executeFeedback_reports_progress task text sessionId0 agent :
  hoare (about_to_report taskId L0)
        (executeFeedback task text sessionId0 (monitor_callbacks taskId) agent)
        (λ _ w, reporting taskId L0 100 w).
Proof. unfold executeFeedback. agent_call_reports. Qed.

#[local] Hint Resolve broadcastLog_progress broadcastStats_progress : keeps.

Lemma refreshStats_progress : keeps (progress_log taskId) refreshStats.
Proof. keeps_services. Qed.

Lemma last_snoc_nat (L : list nat) p : last (L ++ [p]) = Some p.
Proof. induction L as [|q [|q' L] IH]; done. Qed.

Lemma taskCompleted_reports success summary :
  hoare (reporting taskId L0 100) (taskCompleted taskId success summary)
        (λ r w, returned r ∧ reported taskId L0 w).
Proof.
  intros w (L & info & Hlog & Hhead & Hsorted & Hrun & Hall & Hbound).
  assert (Hret : returns (taskCompleted taskId success summary))
    by returns_services.
  split; [apply Hret|].
  exists (L ++ [100]). split; [|split; [|split]].
  - unfold exec, taskCompleted, bind at 1, gets at 1. simpl. rewrite Hrun.
    unfold bind, gets, modify, ret, SessionStoreService.completeTask,
      MonitorGateway.broadcastTaskUpdate, MonitorGateway.broadcastLog,
      MonitorGateway.emit. simpl.
    match goal with
    | |- context [refreshStats ?x] =>
        pose proof (refreshStats_progress x) as H
    end.
    unfold exec in H. rewrite H. unfold progress_log in *. simpl.
    rewrite !omap_app. simpl. rewrite String.eqb_refl. simpl.
    by rewrite app_nil_r, Hlog, app_assoc.
  - by apply head_snoc.
  - apply sorted_snoc; [done|].
    eapply Forall_impl; [exact Hall|]. intros q Hq. simpl in Hq. lia.
  - apply last_snoc_nat.
Qed.

Lemma taskStarted_about identifier title :
  hoare (λ w, progress_log taskId w = L0)
        (taskStarted taskId identifier title)
        (λ r w, returned r ∧ about_to_report taskId L0 w).
Proof.
  intros w Hw. unfold result, exec.
  destruct (taskStarted taskId identifier title w) as [r w'] eqn:E.
  unfold taskStarted, bind, gets, modify, ret,
    SessionStoreService.saveSession,
    MonitorGateway.broadcastTaskUpdate, MonitorGateway.broadcastLog,
    MonitorGateway.emit in E.
  simpl in E. injection E as <- <-. split; [done|].
  unfold about_to_report, progress_log in *. simpl.
  rewrite !omap_app. simpl. rewrite String.eqb_refl. simpl.
  rewrite !app_nil_r, lookup_insert_eq. split; [done | by eexists].
Qed.

Lemma about_call {A} (m : M A) :
  keeps (λ w, (progress_log taskId w, runningTasks w !! taskId)) m →
  returns m →
  hoare (about_to_report taskId L0) m
        (λ r w, returned r ∧ about_to_report taskId L0 w).
Proof.
  intros Hm Hret w [Hlog Hrun]. split; [apply Hret|].
  specialize (Hm w). simpl in Hm. injection Hm as Hlog' Hrun'.
  unfold about_to_report. by rewrite Hlog', Hrun'.
Qed.

Lemma reporting_call {A} (m : M A) bound :
  keeps (λ w, (progress_log taskId w, runningTasks w !! taskId)) m →
  returns m →
  hoare (reporting taskId L0 bound) m
        (λ r w, returned r ∧ reporting taskId L0 bound w).
Proof.
  intros Hm Hret w Hw. split; [apply Hret | by apply reporting_frame].
Qed.

Lemma on_failure_reports {A} task headline (job : Job A) message :
  task_id task = taskId →
  hoare (reporting taskId L0 100) (on_failure task headline job message)
        (λ _ w, reported taskId L0 w).
Proof.
  intros Hid. unfold on_failure. rewrite Hid.
  do 2 (eapply hoare_seq;
          [apply reporting_call; [keeps_services | returns_services]
          | intros ?]).
  eapply hoare_seq; [apply taskCompleted_reports | intros ?].
  by apply hoare_throw.
Qed.

Lemma handler_reports {A} task headline (job : Job A) identifier title
    (body : M unit) :
  task_id task = taskId →
  hoare (about_to_report taskId L0) body (body_reports taskId L0) →
  hoare (λ w, progress_log taskId w = L0)
        (taskStarted taskId identifier title >>
         try_catch body (on_failure task headline job))
        (λ _ w, reported taskId L0 w).
Proof.
  intros Hid Hbody.
  eapply hoare_seq; [apply taskStarted_about | intros ?].
  eapply hoare_try_catch; [exact Hbody | intros e | by intros ? ? ?].
  by apply on_failure_reports.
Qed.

Lemma completes_reports {A} (m : M A) (success : bool) message :
  keeps (λ w, (progress_log taskId w, runningTasks w !! taskId)) m →
  returns m →
  hoare (reporting taskId L0 100)
        (if success then m >> taskCompleted taskId true None
         else throw message)
        (body_reports taskId L0).
Proof.
  intros Hm Hret. destruct success; [|by apply hoare_throw].
  eapply hoare_seq; [by apply reporting_call | intros ?].
  eapply hoare_post; [apply taskCompleted_reports|].
  intros [[]|e] w [Hr Hw]; [done | by destruct Hr].
Qed.

Lemma do_run_reports r :
  task_id (run_task r) = taskId →
  hoare (λ w, progress_log taskId w = L0) (do_run r)
        (λ _ w, reported taskId L0 w).
Proof.
  intros Hid.
  destruct r as [job agent|job agent|job agent]; simpl in *.
  - unfold handleTask. rewrite Hid. apply handler_reports; [done|].
    eapply hoare_bind with (Q1 := λ _ w, reporting taskId L0 100 w);
      [apply executeTask_reports_progress | intros res | by intros ? ? ?].
    apply completes_reports; [keeps_services | returns_services].
  - unfold handleFeedback. rewrite Hid. apply handler_reports; [done|].
    do 2 (eapply hoare_seq;
            [apply about_call; [keeps_services | returns_services]
            | intros ?]).
    eapply hoare_bind with (Q1 := λ _ w, reporting taskId L0 100 w);
      [apply executeFeedback_reports_progress | intros res
      | by intros ? ? ?].
    eapply hoare_bind with (Q1 := λ _ w, reporting taskId L0 100 w);
      [apply reporting_frame; keeps_services | intros ? | by intros ? ? ?].
    destruct (res_success res); [|by apply hoare_throw].
    eapply hoare_post; [apply taskCompleted_reports|].
    intros [[]|e] w [Hr Hw]; [done | by destruct Hr].
  - unfold handleRetry. rewrite Hid. apply handler_reports; [done|].
    eapply hoare_seq;
      [apply about_call; [keeps_services | returns_services] | intros ?].
    eapply hoare_bind with (Q1 := λ _ w, reporting taskId L0 100 w);
      [apply executeFeedback_reports_progress | intros res
      | by intros ? ? ?].
    apply completes_reports; [keeps_services | returns_services].
Qed.

End Progress.

(** *** The values, one by one *)

Section Exact.

Import MonitorService ClaudeService TaskProcessor.

Context (taskId : string) (L0 : list nat).

Lemma taskSessionId_run sessionId w info :
  runningTasks w !! taskId = Some info →
  let w' := exec (taskSessionId taskId sessionId) w in
  result (taskSessionId taskId sessionId) w = Ok tt
  ∧ progress_log taskId w' = progress_log taskId w ++ [rt_progress info]
  ∧ ∃ info', runningTasks w' !! taskId = Some info'
             ∧ rt_progress info' = rt_progress info.
Proof.
  intros Hrun. unfold result, exec.
  destruct (taskSessionId taskId sessionId w) as [r w'] eqn:E.
  unfold taskSessionId, bind, gets, modify, ret,
    SessionStoreService.updateSessionId,
    MonitorGateway.broadcastTaskUpdate, MonitorGateway.broadcastLog,
    MonitorGateway.emit in E.
  simpl in E. rewrite Hrun in E. injection E as <- <-.
  unfold progress_log. simpl. rewrite !omap_app. simpl.
  rewrite String.eqb_refl. simpl.
  rewrite app_nil_r, lookup_insert_eq. split; [done|]. split; [done|].
  by eexists.
Qed.

Lemma process_blocks_exact content v st :
  hoare (reports_state taskId L0 st v)
        (process_blocks content (monitor_handlers taskId) v)
        (stream_reports taskId L0 (foldl block_step st content)).
Proof.
  revert v st.
  induction content as [|[text|name|] content IH]; intros v st.
  - apply hoare_ret. intros w Hw. by exists v.
  - change (process_blocks (text_block text :: content)
              (monitor_handlers taskId) v)
      with (process_blocks content (monitor_handlers taskId)
              {| responseText := responseText v +:+ text;
                 lastProgress := lastProgress v;
                 toolCallCount := toolCallCount v;
                 sessionId := sessionId v |}).
    cbn [foldl block_step]. destruct st as [[last count] L].
    eapply hoare_pre; [apply IH|]. by intros w Hw.
  - cbn [process_blocks monitor_handlers stream_handlers onToolUse
           monitor_callbacks onProgress foldl].
    destruct st as [[last count] L]. cbn [block_step].
    intros w (Hlast & Hcount & Hlog & info & Hrun & Hp).
    cbn [fst snd] in *.
    destruct (taskProgress_run taskId
                ("Using tool: " +:+ name)
                (90 `min` (20 + S (toolCallCount v) * 15)) w info Hrun)
      as (Hr & Hlog' & info' & Hrun' & Hp').
    unfold result, exec, bind in *.
    destruct (taskProgress taskId _ _ w) as [r w1]. simpl in *. subst r.
    unfold ret. simpl.
    apply (IH {| responseText := responseText v;
                 lastProgress := 90 `min` (20 + S (toolCallCount v) * 15);
                 toolCallCount := S (toolCallCount v);
                 sessionId := sessionId v |}
              (90 `min` (20 + S count * 15), S count,
               L ++ [90 `min` (20 + S count * 15)])).
    rewrite Hcount in *. repeat split; cbn [fst snd lastProgress toolCallCount].
    + by rewrite Hlog', Hlog, app_assoc.
    + by exists info'.
  - cbn [foldl block_step]. destruct st as [[last count] L]. apply IH.
Qed.

Lemma processMessage_exact msg v st :
  hoare (reports_state taskId L0 st v)
        (processMessage msg (monitor_handlers taskId) v)
        (stream_reports taskId L0 (message_step st msg)).
Proof.
  destruct msg as [[content|]|subtype r|subtype sid| | |];
    try (apply hoare_ret; intros w Hw; by exists v).
  - apply process_blocks_exact.
  - cbn [processMessage message_step].
    destruct (String.eqb subtype "success"), (Js.truthy r);
      apply hoare_ret; intros w Hw; by exists v.
  - cbn [processMessage message_step].
    destruct (String.eqb subtype "init"), (Js.truthy sid) as [s|];
      try (apply hoare_ret; intros w Hw; by exists v).
    cbn [monitor_handlers stream_handlers h_onSessionId monitor_callbacks
           onSessionId].
    destruct st as [[last count] L].
    intros w (Hlast & Hcount & Hlog & info & Hrun & Hp).
    cbn [fst snd] in *.
    destruct (taskSessionId_run s w info Hrun)
      as (Hr & Hlog' & info' & Hrun' & Hp').
    unfold result, exec, bind in *.
    destruct (taskSessionId taskId s w) as [r w1]. simpl in *. subst r.
    unfold ret. simpl.
    eexists. split; [done|].
    repeat split; cbn [fst snd lastProgress toolCallCount]; try done.
    + by rewrite Hlog', Hlog, Hp, app_assoc.
    + exists info'. by rewrite Hp'.
Qed.

Lemma consume_exact stream v st :
  hoare (reports_state taskId L0 st v)
        (consume stream (monitor_handlers taskId) v)
        (stream_reports taskId L0
           (foldl message_step st (omap yielded stream))).
Proof.
  revert v st. induction stream as [|[msg|act] stream IH]; intros v st.
  - apply hoare_ret. intros w Hw. by exists v.
  - cbn [consume omap list_omap yielded foldl].
    eapply hoare_bind; [apply processMessage_exact | |].
    + intros v' w (v1 & Heq & Hw). injection Heq as <-.
      revert w Hw. apply IH.
    + by intros e w (? & [=] & _).
  - cbn [consume omap list_omap yielded].
    apply hoare_mcp_linear; [by intros g w Hw | apply IH].
Qed.

Lemma run_query_exact agent :
  hoare (reports_state taskId L0 (10, 0, [10])
           {| responseText := EmptyString; lastProgress := 10;
              toolCallCount := 0; sessionId := None |})
        (run_query agent (monitor_callbacks taskId))
        (λ _ w, reported_exactly taskId L0
                  (foldl message_step (10, 0, [10]) (run_messages agent)).2
                  w).
Proof.
  unfold run_query.
  eapply hoare_bind; [apply consume_exact | |].
  - intros v.
    eapply hoare_pre with
      (P' := reported_exactly taskId L0
               (foldl message_step (10, 0, [10]) (run_messages agent)).2);
      [ destruct (run_throws agent);
          [by apply hoare_throw | by apply hoare_ret] |].
    intros w (v' & _ & _ & _ & Hlog & info & Hrun & _).
    split; [done | by eexists].
  - by intros e w (? & [=] & _).
Qed.

Lemma taskProgress_starts step :
  hoare (about_to_report taskId L0) (taskProgress taskId step 10)
        (λ r w, returned r
                ∧ reports_state taskId L0 (10, 0, [10])
                    {| responseText := EmptyString; lastProgress := 10;
                       toolCallCount := 0; sessionId := None |} w).
Proof.
  intros w [Hlog [info Hrun]].
  destruct (taskProgress_run taskId step 10 w info Hrun)
    as (Hr & Hlog' & info' & Hrun' & Hp).
  rewrite Hr. split; [done|]. repeat split; cbn [fst snd]; try done.
  - by rewrite Hlog', Hlog.
  - by exists info'.
Qed.

Lemma taskProgress_exactly step progress L :
  hoare (reported_exactly taskId L0 L) (taskProgress taskId step progress)
        (λ r w, returned r ∧ reported_exactly taskId L0 (L ++ [progress]) w).
Proof.
  intros w [Hlog [info Hrun]].
  destruct (taskProgress_run taskId step progress w info Hrun)
    as (Hr & Hlog' & info' & Hrun' & Hp).
  rewrite Hr. split; [done|]. split.
  - by rewrite Hlog', Hlog, app_assoc.
  - by eexists.
Qed.

Lemma exactly_call {A} (m : M A) L :
  keeps (λ w, (progress_log taskId w, runningTasks w !! taskId)) m →
  returns m →
  hoare (reported_exactly taskId L0 L) m
        (λ r w, returned r ∧ reported_exactly taskId L0 L w).
Proof.
  intros Hm Hret w [Hlog Hrun]. split; [apply Hret|].
  specialize (Hm w). simpl in Hm. injection Hm as Hlog' Hrun'.
  unfold reported_exactly. by rewrite Hlog', Hrun'.
Qed.

(** The end of the agent call: a framed step or the last report. *)
Ltac exact_step :=
  first
    [ apply hoare_ret; by intros ? ?
    | eapply hoare_seq; [apply taskProgress_exactly | intros ?]
    | eapply hoare_seq;
        [ apply exactly_call; [solve [keeps_services] | returns_services]
        | intros ? ] ].

Ltac agent_call_exact agent :=
  apply hoare_gets_bind; intros ?;
  apply hoare_gets_bind; intros ?;
  eapply hoare_try_catch with
    (Q1 := λ r w,
       reported_exactly taskId L0
         ((foldl message_step (10, 0, [10]) (run_messages agent)).2
          ++ if r is Ok _ then [100] else []) w);
  [ cbn [onProgress monitor_callbacks];
    eapply hoare_seq; [apply taskProgress_starts | intros ?];
    eapply hoare_bind;
    [ apply run_query_exact
    | intros v; destruct (hasError (responseText v));
      [ repeat exact_step
      | apply hoare_gets_bind; intros ?; cbv zeta;
        match goal with
        | |- context [negb ?b] => destruct b
        end; cbn [negb]; repeat exact_step ]
    | intros e w Hw; by rewrite app_nil_r ]
  | intros e; cbv zeta; cbn [onProgress monitor_callbacks];
    eapply hoare_pre;
      [ repeat exact_step | intros w Hw; by rewrite app_nil_r in Hw ]
  | by intros ? ? ? ].

Lemma executeTask_exact task agent :
  hoare (about_to_report taskId L0)
        (executeTask task (monitor_callbacks taskId) agent)
        (λ _ w, reported_exactly taskId L0
                  ((foldl message_step (10, 0, [10]) (run_messages agent)).2
                   ++ [100]) w).
Proof. unfold executeTask. agent_call_exact agent. Qed.

Lemma executeFeedback_exact task text sessionId0 agent :
  hoare (about_to_report taskId L0)
        (executeFeedback task text sessionId0 (monitor_callbacks taskId) agent)
        (λ _ w, reported_exactly taskId L0
                  ((foldl message_step (10, 0, [10]) (run_messages agent)).2
                   ++ [100]) w).
Proof. unfold executeFeedback. agent_call_exact agent. Qed.

Lemma taskCompleted_exactly success summary L :
  hoare (reported_exactly taskId L0 L) (taskCompleted taskId success summary)
        (λ r w, returned r ∧ progress_log taskId w = L0 ++ L ++ [100]).
Proof.
  intros w [Hlog [info Hrun]].
  assert (Hret : returns (taskCompleted taskId success summary))
    by returns_services.
  split; [apply Hret|].
  unfold exec, taskCompleted, bind at 1, gets at 1. simpl. rewrite Hrun.
  unfold bind, gets, modify, ret, SessionStoreService.completeTask,
    MonitorGateway.broadcastTaskUpdate, MonitorGateway.broadcastLog,
    MonitorGateway.emit. simpl.
  match goal with
  | |- context [refreshStats ?x] =>
      pose proof (refreshStats_progress taskId x) as H
  end.
  unfold exec in H. rewrite H. unfold progress_log in *. simpl.
  rewrite !omap_app. simpl. rewrite String.eqb_refl. simpl.
  by rewrite app_nil_r, Hlog, app_assoc.
Qed.

Lemma on_failure_exactly {A} task headline (job : Job A) message L :
  task_id task = taskId →
  hoare (reported_exactly taskId L0 L) (on_failure task headline job message)
        (λ _ w, progress_log taskId w = L0 ++ L ++ [100]).
Proof.
  intros Hid. unfold on_failure. rewrite Hid.
  do 2 (eapply hoare_seq;
          [apply exactly_call; [keeps_services | returns_services]
          | intros ?]).
  eapply hoare_seq; [apply taskCompleted_exactly | intros ?].
  by apply hoare_throw.
Qed.

Lemma handler_exactly {A} task headline (job : Job A) identifier title
    (body : M unit) L :
  task_id task = taskId →
  hoare (about_to_report taskId L0) body
        (λ r w, match r with
                | Ok _ => progress_log taskId w = L0 ++ L ++ [100]
                | Throw _ => reported_exactly taskId L0 L w
                end) →
  hoare (λ w, progress_log taskId w = L0)
        (taskStarted taskId identifier title >>
         try_catch body (on_failure task headline job))
        (λ _ w, progress_log taskId w = L0 ++ L ++ [100]).
Proof.
  intros Hid Hbody.
  eapply hoare_seq; [apply taskStarted_about | intros ?].
  eapply hoare_try_catch; [exact Hbody | intros e | by intros ? ? ?].
  by apply on_failure_exactly.
Qed.

Lemma completes_exactly {A} (m : M A) (success : bool) message L :
  keeps (λ w, (progress_log taskId w, runningTasks w !! taskId)) m →
  returns m →
  hoare (reported_exactly taskId L0 L)
        (if success then m >> taskCompleted taskId true None
         else throw message)
        (λ r w, match r with
                | Ok _ => progress_log taskId w = L0 ++ L ++ [100]
                | Throw _ => reported_exactly taskId L0 L w
                end).
Proof.
  intros Hm Hret. destruct success; [|by apply hoare_throw].
  eapply hoare_seq; [by apply exactly_call | intros ?].
  eapply hoare_post; [apply taskCompleted_exactly|].
  intros [[]|e] w [Hr Hw]; [done | by destruct Hr].
Qed.

Lemma do_run_exactly r :
  task_id (run_task r) = taskId →
  hoare (λ w, progress_log taskId w = L0) (do_run r)
        (λ _ w, progress_log taskId w
                = L0 ++ expected_progress (run_agent r)).
Proof.
  intros Hid. unfold expected_progress.
  set (S := (foldl message_step (10, 0, [10])
               (run_messages (run_agent r))).2).
  change [100; 100] with ([100] ++ [100]). rewrite (app_assoc S).
  destruct r as [job agent|job agent|job agent]; simpl in *.
  - unfold handleTask. rewrite Hid. apply handler_exactly; [done|].
    eapply hoare_bind;
      [apply executeTask_exact | intros res | by intros ? ? ?].
    apply completes_exactly; [keeps_services | returns_services].
  - unfold handleFeedback. rewrite Hid. apply handler_exactly; [done|].
    do 2 (eapply hoare_seq;
            [apply about_call; [keeps_services | returns_services]
            | intros ?]).
    eapply hoare_bind;
      [apply executeFeedback_exact | intros res | by intros ? ? ?].
    eapply hoare_bind with
      (Q1 := λ _ w, reported_exactly taskId L0 (S ++ [100]) w);
      [ intros w [Hlog Hrun];
        assert (Hm : keeps (λ w, (progress_log taskId w,
                                  runningTasks w !! taskId))
                       (SessionStoreService.markCommentsProcessed
                          (fb_commentIds (job_data job)) taskId))
          by keeps_services;
        specialize (Hm w); simpl in Hm; injection Hm as Hlog' Hrun';
        unfold reported_exactly; by rewrite Hlog', Hrun'
      | intros ? | by intros ? ? ? ].
    destruct (res_success res); [|by apply hoare_throw].
    eapply hoare_post; [apply taskCompleted_exactly|].
    intros [[]|e] w [Hr Hw]; [done | by destruct Hr].
  - unfold handleRetry. rewrite Hid. apply handler_exactly; [done|].
    eapply hoare_seq;
      [apply about_call; [keeps_services | returns_services] | intros ?].
    eapply hoare_bind;
      [apply executeFeedback_exact | intros res | by intros ? ? ?].
    apply completes_exactly; [keeps_services | returns_services].
Qed.

End Exact.

(** X21.  The progress a run reports.  Over a run of any of the three job
    handlers the progress values broadcast for its work item are, in
    order: 10 when the agent call starts; for every tool use of the stream
    [min 90 (20 + 15 * count)], where [count] numbers the tool uses of the
    run from 1; for every session id of the stream the value reported
    last, once more; 100 when the agent call ends, and 100 again when the
    handler completes the task or marks it failed.  So they start with 10,
    never decrease, and end with 100. *)
Theorem run_progress_monotone r w :
  let taskId := task_id (run_task r) in
  let L := expected_progress (run_agent r) in
  progress_log taskId (exec (do_run r) w) = progress_log taskId w ++ L
  ∧ head L = Some 10
  ∧ StronglySorted le L
  ∧ last L = Some 100.
Proof.
  intros taskId L.
  pose proof (do_run_exactly taskId (progress_log taskId w) r eq_refl w
                eq_refl) as Hexact.
  destruct (do_run_reports taskId (progress_log taskId w) r eq_refl w eq_refl)
    as (L' & Hlog & Hhead & Hsorted & Hlast).
  fold L in Hexact. rewrite Hexact in Hlog.
  apply app_inv_head in Hlog. subst L'. done.
Qed.

(** For instance, an agent that reports its session, uses two tools and
    ends its stream. *)
Lemma expected_progress_example :
  expected_progress (Scenario.agent_approves "session-4" "issue-2")
  = [10; 10; 35; 50; 100; 100].
Proof. reflexivity. Qed.
